(** * PropScrapeAI: the scrape / enrich / persist pipeline of [src/app/actions.ts]

    A shallow embedding of the server actions [getHtml], [processScrapedData],
    [scrapeUrl], [scrapeHtml] and [scrapeBulk], of the extraction flow
    [extractPropertyInfo], and of the platform pieces they lean on (string
    methods, the URL parser, [Promise.all]).

    JavaScript strings are modelled as [string]: sequences of code units
    below 256.  Effects are explicit: every asynchronous function is a
    computation in the monad [Comp], which carries the trace of external calls
    made so far and either a value or the thrown error. *)

From Stdlib Require Import Ascii ZArith Lia.
From stdpp Require Import base tactics option list strings pretty.

Local Open Scope string_scope.
Local Open Scope list_scope.
Local Open Scope nat_scope.

(** ** JavaScript string methods used by the actions *)
Module Js.

(** [s.startsWith(pre)] *)
Definition startsWith (s pre : string) : bool := String.prefix pre s.

(** Truthiness of a string: only the empty string is falsy. *)
Definition truthy (s : string) : bool :=
  match s with EmptyString => false | String _ _ => true end.

(** [v || d] for an optional string field [v]: [undefined] and the empty
    string both give the default. *)
Definition or_else (v : option string) (d : string) : string :=
  match v with
  | Some s => if truthy s then s else d
  | None => d
  end.

(** [s.split(sep)] for a one-character separator; the result is never
    empty ([''.split(sep)] is [['']]). *)
Fixpoint split_go (sep : ascii) (s : string) (cur : string) : list string :=
  match s with
  | EmptyString => [String.rev cur]
  | String c s' =>
      if Ascii.eqb c sep then String.rev cur :: split_go sep s' EmptyString
      else split_go sep s' (String c cur)
  end.
Definition split (sep : ascii) (s : string) : list string :=
  split_go sep s EmptyString.

(** White space and line terminators removed by [trim], among code units
    below 256: TAB, LF, VT, FF, CR, SP and NBSP. *)
Definition is_white_space (c : ascii) : bool :=
  match nat_of_ascii c with
  | 9 | 10 | 11 | 12 | 13 | 32 | 160 => true
  | _ => false
  end.

Fixpoint trimStart (s : string) : string :=
  match s with
  | EmptyString => EmptyString
  | String c s' => if is_white_space c then trimStart s' else s
  end.
Definition trimEnd (s : string) : string :=
  String.rev (trimStart (String.rev s)).
Definition trim (s : string) : string := trimEnd (trimStart s).

(** [toLowerCase] on code units below 256: A-Z, and the Latin-1 capitals
    0xC0-0xDE without the multiplication sign 0xD7. *)
Definition lower_char (c : ascii) : ascii :=
  let n := nat_of_ascii c in
  if ((65 <=? n) && (n <=? 90)) || ((192 <=? n) && (n <=? 222) && negb (n =? 215))
  then ascii_of_nat (n + 32) else c.
Fixpoint toLowerCase (s : string) : string :=
  match s with
  | EmptyString => EmptyString
  | String c s' => String (lower_char c) (toLowerCase s')
  end.

(** The regular expression [/^[a-z0-9]+$/]. *)
Definition is_lower_alnum (c : ascii) : bool :=
  let n := nat_of_ascii c in
  ((97 <=? n) && (n <=? 122)) || ((48 <=? n) && (n <=? 57)).
Fixpoint all_chars (p : ascii -> bool) (s : string) : bool :=
  match s with
  | EmptyString => true
  | String c s' => p c && all_chars p s'
  end.
Definition test_lower_alnum (s : string) : bool :=
  truthy s && all_chars is_lower_alnum s.

(** [s.substring(s.lastIndexOf(c) + 1)]: the text after the last [c], the
    whole string when [c] does not occur ([lastIndexOf] is then -1). *)
Fixpoint occurs (c : ascii) (s : string) : bool :=
  match s with
  | EmptyString => false
  | String d s' => Ascii.eqb d c || occurs c s'
  end.
Fixpoint after_last (c : ascii) (s : string) : string :=
  match s with
  | EmptyString => EmptyString
  | String d s' =>
      if occurs c s' then after_last c s'
      else if Ascii.eqb d c then s'
      else s
  end.

(** Template-literal rendering of a non-negative integer. *)
Definition of_nat (n : nat) : string := pretty n.
Definition of_N (n : N) : string := pretty n.

(** The double-quote character, for messages that quote their argument. *)
Definition dquote : string := String (ascii_of_nat 34) EmptyString.

End Js.

(** ** The platform's URL objects

    [new URL(input)] and [new URL(input, base)] either throw a [TypeError] or
    give a URL object.  The pipeline is verified for every parser of the type
    [string -> option string -> option URL.t] ([None] is the thrown
    [TypeError]); only the serializer below is fixed.  [URL.parse] is a
    reference parser for the fragment that the scenarios of the specification
    exercise: http(s) URLs with a registered-name or dotted-quad host and no
    credentials, references relative to them, and URLs of a non-special
    scheme with an opaque path ([mailto:], [data:]).  What lies outside that
    fragment is rejected, also where the platform accepts it (credentials,
    [ftp:], IPv6 and shortened IPv4 hosts, percent-encoded hosts); no
    statement about every world depends on it. *)
Module URL.

Record t := {
  scheme : string;            (* lower case, without the colon *)
  host : option string;       (* host and port; [None] for an opaque path *)
  pathname : string;
  query : option string;
  fragment : option string
}.

(** The [protocol] getter. *)
Definition protocol (u : t) : string := scheme u +:+ ":".

(** The URL serializer, i.e. the [href] getter. *)
Definition href (u : t) : string :=
  scheme u +:+ ":"
  +:+ match host u with Some h => "//" +:+ h | None => "" end
  +:+ pathname u
  +:+ match query u with Some q => "?" +:+ q | None => "" end
  +:+ match fragment u with Some f => "#" +:+ f | None => "" end.

Fixpoint drop_while (p : ascii -> bool) (s : string) : string :=
  match s with
  | EmptyString => EmptyString
  | String c s' => if p c then drop_while p s' else s
  end.

Fixpoint remove_chars (p : ascii -> bool) (s : string) : string :=
  match s with
  | EmptyString => EmptyString
  | String c s' => if p c then remove_chars p s' else String c (remove_chars p s')
  end.

Fixpoint map_chars (f : ascii -> ascii) (s : string) : string :=
  match s with
  | EmptyString => EmptyString
  | String c s' => String (f c) (map_chars f s')
  end.

(** [break p s]: the longest prefix of [s] without a [p] character, and the
    rest of [s] from that character on. *)
Fixpoint break (p : ascii -> bool) (s : string) : string * string :=
  match s with
  | EmptyString => (EmptyString, EmptyString)
  | String c s' =>
      if p c then (EmptyString, s)
      else let '(a, b) := break p s' in (String c a, b)
  end.

Definition is_c0_or_space (c : ascii) : bool := nat_of_ascii c <=? 32.
Definition is_tab_or_newline (c : ascii) : bool :=
  match nat_of_ascii c with 9 | 10 | 13 => true | _ => false end.
Definition is_alpha (c : ascii) : bool :=
  let n := nat_of_ascii c in
  ((65 <=? n) && (n <=? 90)) || ((97 <=? n) && (n <=? 122)).
Definition is_digit (c : ascii) : bool :=
  let n := nat_of_ascii c in (48 <=? n) && (n <=? 57).
Definition is_scheme_char (c : ascii) : bool :=
  is_alpha c || is_digit c
  || Ascii.eqb c "+" || Ascii.eqb c "-" || Ascii.eqb c ".".
Definition is_host_char (c : ascii) : bool :=
  is_alpha c || is_digit c
  || Ascii.eqb c "-" || Ascii.eqb c "." || Ascii.eqb c "_".
Definition is_slash (c : ascii) : bool := Ascii.eqb c "/".
Definition backslash : ascii := ascii_of_nat 92.
Definition unbackslash (c : ascii) : ascii :=
  if Ascii.eqb c backslash then "/"%char else c.

(** Leading and trailing C0 controls and spaces are stripped, tabs and
    newlines are removed everywhere. *)
Definition clean (s : string) : string :=
  remove_chars is_tab_or_newline
    (String.rev (drop_while is_c0_or_space
       (String.rev (drop_while is_c0_or_space s)))).

(** Percent-encoding: a code unit below 128 is one byte, a Latin-1 code unit
    is the two bytes of its UTF-8 encoding. *)
Definition hex_digit (n : nat) : ascii :=
  if n <? 10 then ascii_of_nat (48 + n) else ascii_of_nat (55 + n).
Definition percent_byte (n : nat) : string :=
  String "%" (String (hex_digit (n / 16)) (String (hex_digit (n mod 16)) EmptyString)).
Definition percent_char (c : ascii) : string :=
  let n := nat_of_ascii c in
  if n <? 128 then percent_byte n
  else percent_byte (192 + n / 64) +:+ percent_byte (128 + n mod 64).

Definition in_c0_set (c : ascii) : bool :=
  let n := nat_of_ascii c in (n <? 32) || (126 <? n).
Definition in_fragment_set (c : ascii) : bool :=
  in_c0_set c
  || match nat_of_ascii c with 32 | 34 | 60 | 62 | 96 => true | _ => false end.
Definition in_query_set (c : ascii) : bool :=
  in_c0_set c
  || match nat_of_ascii c with 32 | 34 | 35 | 60 | 62 => true | _ => false end.
Definition in_special_query_set (c : ascii) : bool :=
  in_query_set c || Ascii.eqb c "'".
Definition in_path_set (c : ascii) : bool :=
  in_c0_set c
  || match nat_of_ascii c with
     | 32 | 34 | 35 | 60 | 62 | 63 | 94 | 96 | 123 | 125 => true
     | _ => false
     end.

Fixpoint encode (set : ascii -> bool) (s : string) : string :=
  match s with
  | EmptyString => EmptyString
  | String c s' =>
      (if set c then percent_char c else String c EmptyString) +:+ encode set s'
  end.

(** The scheme state: a letter, then letters, digits, [+], [-] and [.], up
    to a colon.  Gives the lower-cased scheme and what follows the colon. *)
Definition parse_scheme (s : string) : option (string * string) :=
  match s with
  | EmptyString => None
  | String c _ =>
      if is_alpha c then
        match break (fun d => negb (is_scheme_char d)) s with
        | (sch, String ":" rest) => Some (Js.toLowerCase sch, rest)
        | _ => None
        end
      else None
  end.

Definition is_special (sch : string) : bool :=
  String.eqb sch "http" || String.eqb sch "https".

(** The other special schemes, which the fragment leaves out, as it does
    the non-special URLs whose path starts with a slash. *)
Definition is_left_out (sch : string) : bool :=
  String.eqb sch "ftp" || String.eqb sch "file"
  || String.eqb sch "ws" || String.eqb sch "wss".

Definition default_port (sch : string) : nat :=
  if String.eqb sch "http" then 80 else 443.

Definition is_single_dot (seg : string) : bool :=
  let l := Js.toLowerCase seg in String.eqb l "." || String.eqb l "%2e".
Definition is_double_dot (seg : string) : bool :=
  let l := Js.toLowerCase seg in
  String.eqb l ".." || String.eqb l ".%2e" || String.eqb l "%2e."
  || String.eqb l "%2e%2e".

(** The path state over the segments of the input, [path] being the
    segments gathered so far. *)
Fixpoint path_state (segs : list string) (path : list string) : list string :=
  match segs with
  | [] => path
  | [seg] =>
      if is_double_dot seg then removelast path ++ [EmptyString]
      else if is_single_dot seg then path ++ [EmptyString]
      else path ++ [encode in_path_set seg]
  | seg :: rest =>
      if is_double_dot seg then path_state rest (removelast path)
      else if is_single_dot seg then path_state rest path
      else path_state rest (path ++ [encode in_path_set seg])
  end.

Fixpoint join_path (segs : list string) : string :=
  match segs with
  | [] => EmptyString
  | seg :: rest => "/" +:+ seg +:+ join_path rest
  end.

(** Segments of a serialized hierarchical path (it starts with a slash). *)
Definition segments (pathname : string) : list string :=
  tail (Js.split "/" pathname).

Fixpoint digits_value (s : string) (acc : N) : N :=
  match s with
  | EmptyString => acc
  | String c s' => digits_value s' (10 * acc + (N.of_nat (nat_of_ascii c) - 48))%N
  end.

Definition is_number (s : string) : bool :=
  Js.truthy s && Js.all_chars is_digit s.

(** A label of a dotted quad in canonical form: decimal, no leading zero,
    at most 255. *)
Definition is_quad_label (s : string) : bool :=
  is_number s
  && (String.eqb s "0" || negb (Js.startsWith s "0"))
  && (String.length s <=? 3) && (digits_value s 0 <=? 255)%N.

Definition is_hex_digit (c : ascii) : bool :=
  let n := nat_of_ascii c in
  is_digit c || ((65 <=? n) && (n <=? 70)) || ((97 <=? n) && (n <=? 102)).

(** The host ends in a number: its last label, a trailing empty label set
    aside, is decimal, or hexadecimal after [0x]. *)
Definition ends_in_number (labels : list string) : bool :=
  let labels :=
    if String.eqb (List.last labels EmptyString) EmptyString && (1 <? length labels)
    then removelast labels else labels in
  let l := List.last labels EmptyString in
  is_number l
  || match Js.toLowerCase l with
     | String "0" (String "x" digits) => Js.all_chars is_hex_digit digits
     | _ => false
     end.

(** Hosts of the fragment: letters, digits, [-], [.] and [_], lower-cased;
    a host that ends in a number has to be a canonical dotted quad. *)
Definition parse_hostname (h : string) : option string :=
  if Js.truthy h && Js.all_chars is_host_char h then
    let labels := Js.split "." h in
    if ends_in_number labels then
      if (length labels =? 4) && forallb is_quad_label labels then Some h else None
    else Some (Js.toLowerCase h)
  else None.

Definition parse_port (sch : string) (p : string) : option string :=
  if Js.all_chars is_digit p then
    if Js.truthy p then
      let v := digits_value (drop_while (Ascii.eqb "0") p) 0 in
      if (String.length (drop_while (Ascii.eqb "0") p) <=? 5) && (v <=? 65535)%N then
        if (v =? N.of_nat (default_port sch))%N then Some EmptyString
        else Some (":" +:+ pretty v)
      else None
    else Some EmptyString
  else None.

(** Host and port of an authority without credentials. *)
Definition parse_authority (sch : string) (auth : string) : option string :=
  if Js.occurs "@" auth then None
  else
    let '(h, p) :=
      if Js.occurs ":" auth
      then (String.rev (drop_while (fun c => negb (Ascii.eqb c ":")) (String.rev auth)),
            Some (Js.after_last ":" auth))
      else (auth, None) in
    let h := match p with
             | Some _ => String.rev (match String.rev h with
                                     | String _ r => r
                                     | EmptyString => EmptyString
                                     end)
             | None => h
             end in
    match parse_hostname h, parse_port sch (default EmptyString p) with
    | Some h', Some p' => Some (h' +:+ p')
    | _, _ => None
    end.

(** After the slashes that follow a special scheme: authority, then path.
    [rest] has its backslashes already turned into slashes. *)
Definition authority_then_path (sch rest : string) (q f : option string) : option t :=
  let '(auth, p) := break is_slash (drop_while is_slash rest) in
  match parse_authority sch auth with
  | None => None
  | Some h =>
      Some {| scheme := sch; host := Some h;
              pathname := join_path
                (match p with
                 | EmptyString => [EmptyString]
                 | String _ p' => path_state (Js.split "/" p') []
                 end);
              query := q; fragment := f |}
  end.

(** The relative state, against a base that has a host. *)
Definition relative (b : t) (rest : string) (q f : option string) : option t :=
  match rest with
  | EmptyString =>
      Some {| scheme := scheme b; host := host b; pathname := pathname b;
              query := match q with Some _ => q | None => query b end;
              fragment := f |}
  | String "/" (String "/" r) => authority_then_path (scheme b) r q f
  | String "/" r =>
      Some {| scheme := scheme b; host := host b;
              pathname := join_path (path_state (Js.split "/" r) []);
              query := q; fragment := f |}
  | _ =>
      Some {| scheme := scheme b; host := host b;
              pathname := join_path
                (path_state (Js.split "/" rest) (removelast (segments (pathname b))));
              query := q; fragment := f |}
  end.

Definition parse_with (b : option t) (input : string) : option t :=
  let '(s1, f) := break (Ascii.eqb "#") (clean input) in
  let frag := match f with
              | String _ f' => Some (encode in_fragment_set f')
              | EmptyString => None
              end in
  let '(s2, q) := break (Ascii.eqb "?") s1 in
  let qry set := match q with
                 | String _ q' => Some (encode set q')
                 | EmptyString => None
                 end in
  match parse_scheme s2 with
  | Some (sch, rest) =>
      if is_special sch then
        let rest' := map_chars unbackslash rest in
        match b with
        | Some bu =>
            if String.eqb (scheme bu) sch && negb (Js.startsWith rest' "//")
            then relative bu rest' (qry in_special_query_set) frag
            else authority_then_path sch rest' (qry in_special_query_set) frag
        | None => authority_then_path sch rest' (qry in_special_query_set) frag
        end
      else if is_left_out sch || Js.startsWith rest "/" then None
      else Some {| scheme := sch; host := None; pathname := encode in_c0_set rest;
                   query := qry in_query_set; fragment := frag |}
  | None =>
      match b with
      | None => None
      | Some bu =>
          match host bu with
          | Some _ =>
              relative bu (map_chars unbackslash s2) (qry in_special_query_set) frag
          | None =>
              match s2, q, frag with
              | EmptyString, EmptyString, Some _ =>
                  Some {| scheme := scheme bu; host := None; pathname := pathname bu;
                          query := query bu; fragment := frag |}
              | _, _, _ => None
              end
          end
      end
  end.

(** [new URL(input)] for [base = None], [new URL(input, base)] otherwise. *)
Definition parse (input : string) (base : option string) : option t :=
  match base with
  | None => parse_with None input
  | Some bs =>
      match parse_with None bs with
      | Some bu => parse_with (Some bu) input
      | None => None
      end
  end.

End URL.

(** ** Thrown values, results and computations *)

(** What a [catch] clause receives: an [Error] object with its message, or
    any other value, kept as the text [String(v)] gives for it. *)
Inductive Thrown :=
| ErrorObj (message : string)
| NonError (text : string).

(** [error instanceof Error ? error.message : String(error)] *)
Definition errorMessage (e : Thrown) : string :=
  match e with
  | ErrorObj m => m
  | NonError t => t
  end.

Inductive Result (A : Type) :=
| Ok (a : A)
| Throw (e : Thrown).
Arguments Ok {A} a.
Arguments Throw {A} e.

Definition is_ok {A} (r : Result A) : bool :=
  match r with Ok _ => true | Throw _ => false end.

Inductive JobKind := URL_job | HTML_job | BULK_job.

(** The argument of [saveHistoryEntry]: a [HistoryEntry] without [id] and
    [date]. *)
Record HistoryEntry := {
  h_type : JobKind;
  h_details : string;
  h_propertyCount : nat
}.

(** External calls, in the order the actions issue them.  Calls of
    concurrent branches are listed branch after branch, by index. *)
Inductive Event :=
| EvFetchPage (url : string)
| EvExtract (htmlContent : string)
| EvFetchImage (url referer : string)
| EvEnhance (title description : string)
| EvSaveHistory (entry : HistoryEntry)
| EvRevalidate (path : string).

(** An asynchronous computation: the calls it made, and how it settled. *)
Record Comp (A : Type) := MkComp {
  trace : list Event;
  outcome : Result A
}.
Arguments MkComp {A} trace outcome.
Arguments trace {A} c.
Arguments outcome {A} c.

#[global] Instance Comp_ret : MRet Comp := fun A a => MkComp [] (Ok a).
#[global] Instance Comp_bind : MBind Comp := fun A B f m =>
  match outcome m with
  | Ok a => MkComp (trace m ++ trace (f a)) (outcome (f a))
  | Throw e => MkComp (trace m) (Throw e)
  end.

Definition emit (ev : Event) : Comp unit := MkComp [ev] (Ok tt).
Definition throw {A} (e : Thrown) : Comp A := MkComp [] (Throw e).
Definition settle {A} (r : Result A) : Comp A := MkComp [] r.

(** [try { body } catch (e) { handler e }] *)
Definition try_catch {A} (body : Comp A) (handler : Thrown -> Comp A) : Comp A :=
  match outcome body with
  | Ok a => body
  | Throw e => MkComp (trace body ++ trace (handler e)) (outcome (handler e))
  end.

(** The history entries written by a run. *)
Definition history (tr : list Event) : list HistoryEntry :=
  omap (fun ev => match ev with EvSaveHistory e => Some e | _ => None end) tr.

(** The page and image fetches attempted by a run. *)
Definition is_fetch (ev : Event) : bool :=
  match ev with
  | EvFetchPage _ | EvFetchImage _ _ => true
  | _ => false
  end.

Definition is_enhance (ev : Event) : bool :=
  match ev with EvEnhance _ _ => true | _ => false end.

(** ** Records *)

(** An entry of [image_urls] as the extractor delivers it: a string, or
    anything else. *)
Inductive Candidate :=
| CStr (s : string)
| COther.

(** A draft record: the fields of [ExtractedPropertySchema] that the actions
    read, all optional; [d_rest] holds the other fields, which the actions
    only copy. *)
Record Draft := {
  d_page_link : option string;
  d_original_title : option string;
  d_original_description : option string;
  d_title : option string;
  d_description : option string;
  d_image_urls : option (list Candidate);   (* [None]: absent or not an array *)
  d_propertyCountry : option string;
  d_propertyAgent : option string;
  d_rest : list (string * string)
}.

(** A finalized record. *)
Record Property := {
  page_link : option string;
  rest : list (string * string);
  id : string;
  original_url : string;
  original_title : string;
  original_description : string;
  title : string;
  description : string;
  scraped_at : string;
  image_urls : list string;
  image_url : option string;       (* [None] is [undefined] *)
  propertyCountry : string;
  propertyAgent : string
}.

Record EnhancedContent := {
  enhancedTitle : string;
  enhancedDescription : string
}.

Record BulkScrapeError := {
  url : string;
  error : string
}.

Record ScrapeBulkResult := {
  properties : list Property;
  errors : list BulkScrapeError
}.

(** What a caller of the extractor may hold in [result]: nothing, an object
    without [properties], or an object with the array. *)
Inductive ExtractResult :=
| NoResult
| NoProperties
| Properties (ps : list Draft).

(** ** The world the actions run in *)

Record Response := {
  status : nat;
  statusText : string;
  content_type : option string;       (* [headers.get('content-type')] *)
  text : Result string;                (* [await response.text()] *)
  arrayBuffer : Result nat             (* [byteLength] of [await response.arrayBuffer()] *)
}.

(** [response.ok]: the status is in the range 200-299. *)
Definition ok (r : Response) : bool := (200 <=? status r) && (status r <=? 299).

Inductive FetchOutcome :=
| Responds (r : Response)
| Rejects (e : Thrown).

(** What one image task meets: its fetch, the two file-system calls, and the
    clock when it names its file. *)
Record ImageIO := {
  img_fetch : FetchOutcome;
  img_mkdir : option Thrown;           (* [None]: the call returns *)
  img_writeFile : option Thrown;
  img_now : N
}.

(** The environment of one job.  Every answer is a function of the request
    and of the branch (record index, image index) that asks; the completion
    orders say in which order concurrent promises settle. *)
Record World := {
  URL_parse : string -> option string -> option URL.t;
  page_fetch : string -> FetchOutcome;
  extract_prompt : string -> Result (option (list Draft));
  enhance_service : nat -> string -> string -> Result EnhancedContent;
  image_io : nat -> nat -> string -> string -> ImageIO;
  now_id : nat -> N;
  now_iso : nat -> string;
  image_completion : nat -> list nat;
  record_completion : list nat
}.

(** ** [Promise.all]

    [results] are the values the promises settle with, by index;
    [order] is the order in which they settle.  The resolve-element function
    of promise [i] stores its value in slot [i] of [values]. *)
Fixpoint resolveElements {A} (order : list nat) (results : list A)
    (values : list (option A)) : list (option A) :=
  match order with
  | [] => values
  | i :: order' =>
      resolveElements order' results
        (match results !! i with
         | Some r => <[i := Some r]> values
         | None => values
         end)
  end.

(** Every promise settles in the end: the ones that [order] leaves out
    settle after it. *)
Definition Promise_all {A} (order : list nat) (results : list A) : list A :=
  omap (fun v => v)
    (resolveElements (order ++ seq 0 (length results)) results
       (replicate (length results) None)).

(** ** Collaborators that are not part of the sources *)

(** Modelled from the spec: the content enhancer [enhancePropertyContent];
    the module [@/ai/flows/enhance-property-description] that the actions
    import it from is missing.  Section 4.3: if the input title or description
    is empty, the call is skipped and the inputs pass through unchanged;
    otherwise the service is called, and on any thrown failure the original
    title and description pass through.  [index] names the record that asks. *)
Definition enhancePropertyContent (w : World) (index : nat)
    (title description : string) : Comp EnhancedContent :=
  if negb (Js.truthy title) || negb (Js.truthy description) then
    mret {| enhancedTitle := title; enhancedDescription := description |}
  else
    emit (EvEnhance title description);;
    match enhance_service w index title description with
    | Ok enhanced => mret enhanced
    | Throw _ => mret {| enhancedTitle := title; enhancedDescription := description |}
    end.

(** Modelled from the spec: the history recorder [saveHistoryEntry]; the
    module [@/lib/db] that the actions import it from is missing.  Section 6:
    [append(entry)], write-only. *)
Definition saveHistoryEntry (entry : HistoryEntry) : Comp unit :=
  emit (EvSaveHistory entry).

(** [revalidatePath] of [next/cache]. *)
Definition revalidatePath (path : string) : Comp unit :=
  emit (EvRevalidate path).

(** ** [extractPropertyInfo] ([src/unnamed/part_002], lines 99-162)

    The flow returns the output of the prompt, and an object with an empty
    [properties] array when the prompt throws or has no output. *)
Definition extractPropertyInfo (w : World) (htmlContent : string) : Comp ExtractResult :=
  emit (EvExtract htmlContent);;
  try_catch
    (output ← settle (extract_prompt w htmlContent);
     mret (Properties (default [] output)))
    (fun _ => mret (Properties [])).

(** ** [getHtml] ([src/src/app/actions.ts], lines 24-52)

    The body of the error response is only read for the log. *)
Definition getHtml (w : World) (url : string) : Comp string :=
  emit (EvFetchPage url);;
  try_catch
    (match page_fetch w url with
     | Rejects e => throw e
     | Responds response =>
         if negb (ok response) then
           throw (ErrorObj ("Failed to fetch URL " +:+ url +:+ ": HTTP "
                            +:+ Js.of_nat (status response) +:+ " "
                            +:+ statusText response +:+ "."))
         else settle (text response)
     end)
    (fun error =>
       match error with
       | ErrorObj message =>
           if Js.startsWith message "Failed to fetch URL" then throw error
           else throw (ErrorObj ("Could not retrieve content from " +:+ url
                                 +:+ ". Reason: " +:+ message))
       | NonError text =>
           throw (ErrorObj ("Could not retrieve content from " +:+ url
                            +:+ ". Reason: " +:+ text))
       end).

(** ** [processScrapedData] ([src/src/app/actions.ts], lines 54-218) *)

(** [s.startsWith('http://') || s.startsWith('https://')] *)
Definition is_absolute (s : string) : bool :=
  Js.startsWith s "http://" || Js.startsWith s "https://".

(** [p.page_link && (p.page_link.startsWith('http://') || ...)] *)
Definition page_link_absolute (p : Draft) : bool :=
  match d_page_link p with
  | Some l => Js.truthy l && is_absolute l
  | None => false
  end.

(** The base chosen for a relative image reference. *)
Definition baseUrlToUse (p : Draft) (originalUrl : string) : option string :=
  if page_link_absolute p then d_page_link p
  else if Js.truthy originalUrl && is_absolute originalUrl then Some originalUrl
  else None.

(** The callback of [p.image_urls.map] (lines 61-86): [None] is [null], both
    for a skipped candidate and for one the parser throws on. *)
Definition resolveImageUrl (w : World) (p : Draft) (originalUrl : string)
    (c : Candidate) : option string :=
  match c with
  | COther => None
  | CStr imgUrl =>
      if negb (Js.truthy imgUrl) then None
      else if is_absolute imgUrl then URL.href <$> URL_parse w imgUrl None
      else
        match baseUrlToUse p originalUrl with
        | Some base => URL.href <$> URL_parse w imgUrl (Some base)
        | None => None
        end
  end.

(** The mapped candidates without the [null]s (lines 60-88). *)
Definition absoluteImageUrls (w : World) (p : Draft) (originalUrl : string) : list string :=
  match d_image_urls p with
  | Some cs => omap (resolveImageUrl w p originalUrl) cs
  | None => []
  end.

(** [contentType.split('/')[1]?.split('+')[0]?.toLowerCase() || 'jpg'], then
    the [jpeg] and the sanitizing steps. *)
Definition extensionOfContentType (contentType : string) : string :=
  let subtype := Js.split "/" contentType !! 1 in
  let head := subtype ≫= fun s => Js.split "+" s !! 0 in
  let ext := Js.or_else (Js.toLowerCase <$> head) "jpg" in
  let ext := if String.eqb ext "jpeg" then "jpg" else ext in
  if Js.test_lower_alnum ext then ext else "jpg".

(** The extension guessed from the path of the image URL; [new URL(imgUrl)]
    may throw. *)
Definition extensionOfUrl (w : World) (imgUrl : string) : Result string :=
  match URL_parse w imgUrl None with
  | None => Throw (ErrorObj "Invalid URL")
  | Some u =>
      let extFromUrl := Js.after_last "." (URL.pathname u) in
      if Js.truthy extFromUrl && Js.test_lower_alnum extFromUrl
         && (String.length extFromUrl <? 5)
      then Ok extFromUrl else Ok "jpg"
  end.

(** The extension of the stored file (lines 108-128). *)
Definition fileExtension (w : World) (contentType : option string)
    (imgUrl : string) : Result string :=
  match contentType with
  | Some ct =>
      if Js.truthy ct && Js.startsWith ct "image/"
      then Ok (extensionOfContentType ct)
      else extensionOfUrl w imgUrl
  | None => extensionOfUrl w imgUrl
  end.

#[global] Instance Result_ret : MRet Result := fun A a => Ok a.
#[global] Instance Result_bind : MBind Result := fun A B f r =>
  match r with
  | Ok a => f a
  | Throw e => Throw e
  end.

(** An awaited call that returns nothing: it returns, or it throws. *)
Definition returns (o : option Thrown) : Result unit :=
  match o with
  | Some e => Throw e
  | None => Ok tt
  end.

Definition responded (o : FetchOutcome) : Result Response :=
  match o with
  | Responds r => Ok r
  | Rejects e => Throw e
  end.

(** The body of the [try] block of one image task (lines 93-148): fetch,
    check, store.  Its value is the public URL of the stored file. *)
Definition fetchAndPersist (w : World) (propertyId : string) (imgIndex : nat)
    (imgUrl : string) (io : ImageIO) : Result string :=
  response ← responded (img_fetch io);
  if negb (ok response) then
    Throw (ErrorObj ("Fetch failed for " +:+ imgUrl +:+ " with status "
                     +:+ Js.of_nat (status response) +:+ " " +:+ statusText response))
  else
    fileExtension ← fileExtension w (content_type response) imgUrl;
    byteLength ← arrayBuffer response;
    if byteLength =? 0 then
      Throw (ErrorObj ("Downloaded image buffer is empty for " +:+ imgUrl +:+ "."))
    else
      returns (img_mkdir io);;
      let fileName := Js.of_N (img_now io) +:+ "_" +:+ Js.of_nat imgIndex
                      +:+ "." +:+ fileExtension in
      returns (img_writeFile io);;
      let publicUrl := "/uploads/properties/" +:+ propertyId +:+ "/" +:+ fileName in
      mret publicUrl.

(** One image task, with its [catch] (lines 150-153): the fallback is the
    URL itself. *)
Definition processImage (w : World) (propertyId : string) (imgIndex : nat)
    (imgUrl : string) (io : ImageIO) : string :=
  match fetchAndPersist w propertyId imgIndex imgUrl io with
  | Ok publicUrl => publicUrl
  | Throw _ => imgUrl
  end.

(** The [Referer] header of the image fetches (line 95). *)
Definition referer (p : Draft) (originalUrl : string) : string :=
  if Js.startsWith originalUrl "http" then originalUrl
  else Js.or_else (d_page_link p) "".

(** [`prop-${Date.now()}-${index}`] *)
Definition propertyId (w : World) (index : nat) : string :=
  "prop-" +:+ Js.of_N (now_id w index) +:+ "-" +:+ Js.of_nat index.

(** The values the image promises of record [index] settle with. *)
Definition imageProcessingPromises (w : World) (originalUrl : string)
    (index : nat) (p : Draft) : list string :=
  imap (fun imgIndex imgUrl =>
          processImage w (propertyId w index) imgIndex imgUrl
            (image_io w index imgIndex imgUrl (referer p originalUrl)))
       (absoluteImageUrls w p originalUrl).

(** [(await Promise.all(imageProcessingPromises)).filter(url => !!url)] *)
Definition processedImageUrls (w : World) (originalUrl : string)
    (index : nat) (p : Draft) : list string :=
  List.filter Js.truthy
    (Promise_all (image_completion w index)
       (imageProcessingPromises w originalUrl index p)).

Definition placeholder : string := "https://placehold.co/600x400.png".

Definition finalImageUrls (w : World) (originalUrl : string)
    (index : nat) (p : Draft) : list string :=
  let processed := processedImageUrls w originalUrl index p in
  if 0 <? length processed then processed else [placeholder].

(** The callback of [properties.map] (lines 57-204): one record.  The image
    fetches are issued in candidate order before anything is awaited. *)
Definition processProperty (w : World) (originalUrl : string)
    (index : nat) (p : Draft) : Comp Property :=
  MkComp (map (fun imgUrl => EvFetchImage imgUrl (referer p originalUrl))
              (absoluteImageUrls w p originalUrl)) (Ok tt);;
  let finalImageUrls := finalImageUrls w originalUrl index p in
  enhancedContent ← enhancePropertyContent w index
                      (Js.or_else (d_title p) "") (Js.or_else (d_description p) "");
  mret {| page_link := d_page_link p;
          rest := d_rest p;
          id := propertyId w index;
          original_url := originalUrl;
          original_title :=
            Js.or_else (d_original_title p) (Js.or_else (d_title p) "");
          original_description :=
            Js.or_else (d_original_description p) (Js.or_else (d_description p) "");
          title := enhancedTitle enhancedContent;
          description := enhancedDescription enhancedContent;
          scraped_at := now_iso w index;
          image_urls := finalImageUrls;
          image_url := finalImageUrls !! 0;
          propertyCountry := Js.or_else (d_propertyCountry p) "UAE";
          propertyAgent := Js.or_else (d_propertyAgent p) "ahmed" |}.

(** The first promise to reject, in settling order. *)
Fixpoint firstRejection {A} (order : list nat) (outcomes : list (Result A)) : option Thrown :=
  match order with
  | [] => None
  | i :: order' =>
      match outcomes !! i with
      | Some (Throw e) => Some e
      | _ => firstRejection order' outcomes
      end
  end.

Definition fulfilled {A} (r : Result A) : option A :=
  match r with
  | Ok a => Some a
  | Throw _ => None
  end.

(** [await Promise.all(branches)] over asynchronous branches: it rejects
    with the first rejection, and otherwise gives the values by index. *)
Definition Promise_all_comp {A} (order : list nat) (branches : list (Comp A)) : Comp (list A) :=
  MkComp (concat (trace <$> branches))
    (match firstRejection (order ++ seq 0 (length branches)) (outcome <$> branches) with
     | Some e => Throw e
     | None => Ok (Promise_all order (omap (fun c => fulfilled (outcome c)) branches))
     end).

(** All records of a job, then its history entry (lines 206-217). *)
Definition processScrapedData (w : World) (properties : list Draft)
    (originalUrl : string) (type : JobKind) (details : string) : Comp (list Property) :=
  finalProperties ← Promise_all_comp (record_completion w)
                      (imap (processProperty w originalUrl) properties);
  saveHistoryEntry {| h_type := type; h_details := details;
                      h_propertyCount := length finalProperties |};;
  revalidatePath "/history";;
  mret finalProperties.

(** ** The job entry points ([src/src/app/actions.ts], lines 221-301) *)

(** [e.message] of a caught value. *)
Definition message_of (e : Thrown) : string :=
  match e with
  | ErrorObj m => m
  | NonError _ => "undefined"
  end.

(** The validation block of [scrapeUrl]. *)
Definition validateUrl (w : World) (url : string) : Comp unit :=
  try_catch
    (match URL_parse w url None with
     | None => throw (ErrorObj "Invalid URL")
     | Some parsedUrl =>
         if negb (String.eqb (URL.protocol parsedUrl) "http:")
            && negb (String.eqb (URL.protocol parsedUrl) "https:")
         then throw (ErrorObj "Invalid URL protocol. Only HTTP and HTTPS are supported.")
         else mret tt
     end)
    (fun e =>
       throw (ErrorObj ("Invalid URL provided: " +:+ Js.dquote +:+ url +:+ Js.dquote
                        +:+ ". Please ensure it is a valid HTTP or HTTPS URL. Reason: "
                        +:+ message_of e))).

(** [scrapeUrl] (lines 221-242) *)
Definition scrapeUrl (w : World) (url : string) : Comp (list Property) :=
  validateUrl w url;;
  htmlContent ← getHtml w url;
  result ← extractPropertyInfo w htmlContent;
  match result with
  | NoResult | NoProperties => mret []
  | Properties ps => processScrapedData w ps url URL_job url
  end.

(** [scrapeHtml] (lines 244-258); [originalUrl = None] is the call without
    the second argument. *)
Definition scrapeHtml (w : World) (html : string) (originalUrl : option string)
    : Comp (list Property) :=
  let originalUrl := default "scraped-from-html" originalUrl in
  if negb (Js.truthy html) || (String.length html <? 100) then
    throw (ErrorObj "Invalid HTML provided.")
  else
    result ← extractPropertyInfo w html;
    match result with
    | NoResult | NoProperties => mret []
    | Properties ps =>
        processScrapedData w ps originalUrl HTML_job "Pasted HTML content"
    end.

(** [urls.split('\n').map(u => u.trim()).filter(Boolean)] *)
Definition urlList (urls : string) : list string :=
  List.filter Js.truthy (map Js.trim (Js.split "010" urls)).

(** The body of the [try] block of the bulk loop, run in the world [w] of its
    job; its value is what gets pushed onto [allResults]. *)
Definition bulkJob (w : World) (url : string) : Comp (list Property) :=
  htmlContent ← getHtml w url;
  result ← extractPropertyInfo w htmlContent;
  match result with
  | Properties (p :: ps) =>
      processScrapedData w (p :: ps) url BULK_job ("Bulk operation included: " +:+ url)
  | _ => mret []
  end.

(** The [for] loop of [scrapeBulk]: [job k url] is the body of the [try]
    block for the [k]-th URL, whatever it does. *)
Fixpoint bulkLoop (job : nat -> string -> Comp (list Property)) (k : nat)
    (urlList : list string) (allResults : list Property)
    (errors : list BulkScrapeError) : Comp ScrapeBulkResult :=
  match urlList with
  | [] => mret {| properties := allResults; errors := errors |}
  | url :: urlList' =>
      acc ← try_catch
              (processed ← job k url;
               mret (allResults ++ processed, errors))
              (fun error =>
                 mret (allResults,
                       errors ++ [{| url := url; error := errorMessage error |}]));
      bulkLoop job (S k) urlList' acc.1 acc.2
  end.

(** [scrapeBulk] (lines 260-301); the job of the [k]-th URL runs in the
    world [ws k]. *)
Definition scrapeBulk (ws : nat -> World) (urls : string) : Comp ScrapeBulkResult :=
  let urlList := urlList urls in
  if length urlList =? 0 then
    throw (ErrorObj "No valid URLs found in bulk input.")
  else bulkLoop (fun k => bulkJob (ws k)) 0 urlList [] [].

(** ** Earlier revisions kept in the repository *)
Module Legacy.

(** The body of the image task in the earlier revision of the actions
    ([src/unnamed/part_003], lines 55-95): a content type that is missing or
    not [image/*] throws. *)
Definition fetchAndPersist (propertyId : string) (imgIndex : nat)
    (io : ImageIO) : Result string :=
  response ← responded (img_fetch io);
  if negb (ok response) then
    Throw (ErrorObj ("Fetch failed with status " +:+ Js.of_nat (status response)))
  else
    match content_type response with
    | Some contentType =>
        if Js.truthy contentType && Js.startsWith contentType "image/" then
          byteLength ← arrayBuffer response;
          if byteLength =? 0 then Throw (ErrorObj "Downloaded image buffer is empty.")
          else
            let fileExtension :=
              Js.or_else (Js.split "/" contentType !! 1 ≫= fun s => Js.split "+" s !! 0)
                         "jpg" in
            returns (img_mkdir io);;
            let fileName := Js.of_N (img_now io) +:+ "_" +:+ Js.of_nat imgIndex
                            +:+ "." +:+ fileExtension in
            returns (img_writeFile io);;
            mret ("/uploads/properties/" +:+ propertyId +:+ "/" +:+ fileName)
        else
          Throw (ErrorObj ("Invalid content-type: " +:+ contentType
                           +:+ ". Expected an image."))
    | None => Throw (ErrorObj "Invalid content-type: null. Expected an image.")
    end.

(** Step 3 of the cloud-storage revision ([src/unnamed/part_004], lines
    124-127): the enhancer is only called when title and description are
    both truthy; otherwise the two fields pass through as they are. *)
Definition enhancementStep (w : World) (index : nat) (p : Draft)
    : Comp (option string * option string) :=
  match d_title p, d_description p with
  | Some t, Some d =>
      if Js.truthy t && Js.truthy d then
        enhancedContent ← enhancePropertyContent w index t d;
        mret (Some (enhancedTitle enhancedContent),
              Some (enhancedDescription enhancedContent))
      else mret (d_title p, d_description p)
  | _, _ => mret (d_title p, d_description p)
  end.

End Legacy.

(** ** Notions used in the statements *)

(** A slot is either still empty or holds the value of its own promise. *)
Definition slots_agree {A} (results : list A) (values : list (option A)) : Prop :=
  length values = length results ∧
  ∀ i v, values !! i = Some (Some v) → results !! i = Some v.

(** The drafts the extraction flow delivers for a page. *)
Definition extracted (w : World) (htmlContent : string) : list Draft :=
  match extract_prompt w htmlContent with
  | Ok output => default [] output
  | Throw _ => []
  end.

(** The enhancer passes its input through without calling the service. *)
Definition skipsEnhancement (title description : string) : bool :=
  negb (Js.truthy title) || negb (Js.truthy description).

(** What the enhancer returns. *)
Definition enhancedContentOf (w : World) (index : nat)
    (title description : string) : EnhancedContent :=
  let unchanged := {| enhancedTitle := title; enhancedDescription := description |} in
  if skipsEnhancement title description then unchanged
  else match enhance_service w index title description with
       | Ok enhanced => enhanced
       | Throw _ => unchanged
       end.

(** The record [processProperty] returns. *)
Definition finalizedRecord (w : World) (originalUrl : string)
    (index : nat) (p : Draft) : Property :=
  let enhancedContent :=
    enhancedContentOf w index (Js.or_else (d_title p) "")
                      (Js.or_else (d_description p) "") in
  {| page_link := d_page_link p;
     rest := d_rest p;
     id := propertyId w index;
     original_url := originalUrl;
     original_title := Js.or_else (d_original_title p) (Js.or_else (d_title p) "");
     original_description :=
       Js.or_else (d_original_description p) (Js.or_else (d_description p) "");
     title := enhancedTitle enhancedContent;
     description := enhancedDescription enhancedContent;
     scraped_at := now_iso w index;
     image_urls := finalImageUrls w originalUrl index p;
     image_url := finalImageUrls w originalUrl index p !! 0;
     propertyCountry := Js.or_else (d_propertyCountry p) "UAE";
     propertyAgent := Js.or_else (d_propertyAgent p) "ahmed" |}.

(** The calls [processProperty] makes. *)
Definition recordTrace (w : World) (originalUrl : string) (p : Draft) : list Event :=
  map (fun imgUrl => EvFetchImage imgUrl (referer p originalUrl))
      (absoluteImageUrls w p originalUrl)
  ++ (if skipsEnhancement (Js.or_else (d_title p) "") (Js.or_else (d_description p) "")
      then []
      else [EvEnhance (Js.or_else (d_title p) "") (Js.or_else (d_description p) "")]).

(** The same world, with the same answer to every request, but other
    settling orders for its promises. *)
Definition reschedule (w : World) (imageOrder : nat → list nat)
    (recordOrder : list nat) : World :=
  {| URL_parse := URL_parse w;
     page_fetch := page_fetch w;
     extract_prompt := extract_prompt w;
     enhance_service := enhance_service w;
     image_io := image_io w;
     now_id := now_id w;
     now_iso := now_iso w;
     image_completion := imageOrder;
     record_completion := recordOrder |}.

(** How the job of each URL settles, job [k] being the first. *)
Fixpoint jobOutcomes (job : nat → string → Comp (list Property)) (k : nat)
    (urlList : list string) : list (string * Result (list Property)) :=
  match urlList with
  | [] => []
  | url :: urlList' => (url, outcome (job k url)) :: jobOutcomes job (S k) urlList'
  end.

(** The calls of all jobs, one job after the other. *)
Fixpoint jobTraces (job : nat → string → Comp (list Property)) (k : nat)
    (urlList : list string) : list Event :=
  match urlList with
  | [] => []
  | url :: urlList' => trace (job k url) ++ jobTraces job (S k) urlList'
  end.

(** The same for the jobs of [scrapeBulk], job [k] running in world [ws k]. *)
Definition bulkOutcomes (ws : nat → World) (urlList : list string)
    : list (string * Result (list Property)) :=
  jobOutcomes (fun k => bulkJob (ws k)) 0 urlList.

(** The calls of the jobs of [scrapeBulk]. *)
Definition bulkTrace (ws : nat → World) (urlList : list string) : list Event :=
  jobTraces (fun k => bulkJob (ws k)) 0 urlList.

(** The records of the jobs that returned, in job order. *)
Definition pushedRecords (jobs : list (string * Result (list Property))) : list Property :=
  concat (omap (fun job => fulfilled job.2) jobs).

(** One entry per job that threw, in job order. *)
Definition capturedErrors (jobs : list (string * Result (list Property)))
    : list BulkScrapeError :=
  omap (fun job => match job.2 with
                   | Throw e => Some {| url := job.1; error := errorMessage e |}
                   | Ok _ => None
                   end) jobs.

(** The job threw. *)
Definition failed (job : string * Result (list Property)) : bool := negb (is_ok job.2).


(** The input of [scrapeUrl] parses as a URL whose protocol is [http:] or
    [https:]. *)
Definition validHttpUrl (w : World) (url : string) : bool :=
  match URL_parse w url None with
  | Some parsedUrl =>
      String.eqb (URL.protocol parsedUrl) "http:"
      || String.eqb (URL.protocol parsedUrl) "https:"
  | None => false
  end.

(** A candidate that does not start with [http://] or [https://]. *)
Definition isRelative (c : Candidate) : Prop :=
  match c with
  | CStr imgUrl => is_absolute imgUrl = false
  | COther => True
  end.

(** What resolution makes of a candidate when no base is at hand: only a
    string that starts with [http://] or [https://] reaches the parser. *)
Definition resolveWithoutBase (w : World) (c : Candidate) : option string :=
  match c with
  | CStr imgUrl =>
      if Js.truthy imgUrl && is_absolute imgUrl
      then URL.href <$> URL_parse w imgUrl None
      else None
  | COther => None
  end.

(** ** Worlds for the scenarios of the specification *)
Module Scenario.

Definition page (body : string) : Response :=
  {| status := 200; statusText := "OK"; content_type := Some "text/html";
     text := Ok body; arrayBuffer := Ok (String.length body) |}.

Definition png : Response :=
  {| status := 200; statusText := "OK"; content_type := Some "image/png";
     text := Ok ""; arrayBuffer := Ok 2048 |}.

Definition not_found : Response :=
  {| status := 404; statusText := "Not Found"; content_type := Some "text/html";
     text := Ok "gone"; arrayBuffer := Ok 4 |}.


(** The file system accepts both calls. *)
Definition stored (r : Response) (t : N) : ImageIO :=
  {| img_fetch := Responds r; img_mkdir := None; img_writeFile := None;
     img_now := t |}.

Definition listing (page_link : option string) (title description : string)
    (images : list string) : Draft :=
  {| d_page_link := page_link;
     d_original_title := None; d_original_description := None;
     d_title := Some title; d_description := Some description;
     d_image_urls := Some (CStr <$> images);
     d_propertyCountry := None; d_propertyAgent := None;
     d_rest := [("propertyPrice", "AED 500,000")] |}.

(** The reference parser; the pages in [down] cannot be fetched; the
    extractor finds [drafts] on every page; the enhancer answers; an image
    whose last path segment is [b.jpg] is a 404, every other one is served
    and stored. *)
Definition world (drafts : list Draft) (down : list string) : World :=
  {| URL_parse := URL.parse;
     page_fetch := fun url =>
       if existsb (String.eqb url) down then Rejects (ErrorObj "fetch failed")
       else Responds (page "<html><body>listing</body></html>");
     extract_prompt := fun _ => Ok (Some drafts);
     enhance_service := fun _ title description =>
       Ok {| enhancedTitle := "Stunning " +:+ title;
             enhancedDescription := description |};
     image_io := fun _ imgIndex imgUrl _ =>
       stored (if String.eqb (Js.after_last "/" imgUrl) "b.jpg" then not_found else png)
              (1000 + N.of_nat imgIndex)%N;
     now_id := fun _ => 1700000000000%N;
     now_iso := fun _ => "2024-01-01T00:00:00.000Z";
     image_completion := fun _ => [2; 0; 1];
     record_completion := [1; 0] |}.

(** The same, with an enhancement service that always throws. *)
Definition out_of_service (drafts : list Draft) : World :=
  {| URL_parse := URL.parse;
     page_fetch := page_fetch (world drafts []);
     extract_prompt := extract_prompt (world drafts []);
     enhance_service := fun _ _ _ => Throw (ErrorObj "503 Service Unavailable");
     image_io := image_io (world drafts []);
     now_id := now_id (world drafts []);
     now_iso := now_iso (world drafts []);
     image_completion := fun _ => [1; 2; 0];
     record_completion := [0; 1] |}.

(** Every page can be fetched, and the extraction prompt always throws. *)
Definition prompt_down : World :=
  {| URL_parse := URL.parse;
     page_fetch := page_fetch (world [] []);
     extract_prompt := fun _ => Throw (ErrorObj "503 Service Unavailable");
     enhance_service := enhance_service (world [] []);
     image_io := image_io (world [] []);
     now_id := now_id (world [] []);
     now_iso := now_iso (world [] []);
     image_completion := fun _ => [];
     record_completion := [] |}.

(** Scenario A: two records, three candidates each, the second is a 404. *)
Definition villa : Draft :=
  listing (Some "https://x.com/listing/5") "Villa" "Sea view"
    ["https://img.test/a.jpg"; "https://img.test/b.jpg"; "imgs/c.jpg"].
Definition flat : Draft :=
  listing None "Flat" "Two rooms"
    ["/img/a.jpg"; "b.jpg"; "https://img.test/c.jpg"].

(** A draft whose candidates are all relative, and one without a title. *)
Definition relative_only : Draft :=
  listing (Some "listing/7") "Studio" "Compact" ["imgs/a.jpg"; "/b.jpg"].
Definition untitled : Draft :=
  listing None "" "Sea view" [].

(** Pasted HTML of 140 characters, and of 50. *)
Definition html140 : string :=
  String.concat "" (replicate 10 "<p>listing</p>").
Definition html50 : string :=
  String.concat "" (replicate 5 "<p>abc</p>").

(** The three lines of property P4, and the two of scenario B. *)
Definition newline : string := String "010" EmptyString.
Definition three_urls : string :=
  "http://a.test" +:+ newline +:+ "http://b.test" +:+ newline +:+ "http://c.test".
Definition blank_line : string :=
  "http://a.test" +:+ newline +:+ newline +:+ "http://b.test".

End Scenario.

(** ** Notions used in the further properties *)

(** The decimal digits. *)
Definition is_digit (c : ascii) : bool :=
  let n := nat_of_ascii c in (48 <=? n) && (n <=? 57).

(** The page a call fetches, when the call is a page fetch. *)
Definition fetchedPage (ev : Event) : option string :=
  match ev with
  | EvFetchPage url => Some url
  | _ => None
  end.

(** What the job of one URL adds to the result and to the history of
    [scrapeBulk], read off its page: the records, the error entry and the
    history entry. *)
Definition pageRecords (w : World) (url : string) : list Property :=
  match outcome (getHtml w url) with
  | Ok htmlContent => imap (finalizedRecord w url) (extracted w htmlContent)
  | Throw _ => []
  end.

Definition pageError (w : World) (url : string) : option BulkScrapeError :=
  match outcome (getHtml w url) with
  | Ok _ => None
  | Throw e => Some {| url := url; error := errorMessage e |}
  end.

Definition pageEntry (w : World) (url : string) : option HistoryEntry :=
  match outcome (getHtml w url) with
  | Ok htmlContent =>
      match extracted w htmlContent with
      | [] => None
      | p :: ps =>
          Some {| h_type := BULK_job;
                  h_details := "Bulk operation included: " +:+ url;
                  h_propertyCount := length (p :: ps) |}
      end
  | Throw _ => None
  end.

(** The public URL of a stored file. *)
Definition publicUrlOf (propertyId : string) (now : N) (imgIndex : nat)
    (fileExtension : string) : string :=
  "/uploads/properties/" +:+ propertyId +:+ "/" +:+ Js.of_N now +:+ "_"
  +:+ Js.of_nat imgIndex +:+ "." +:+ fileExtension.

(** ** The image components
    ([src/src/components/app/property-image.tsx] and
    [src/src/components/app/property-image-gallery.tsx]) *)

(** [s.includes(sub)] *)
Fixpoint includes (s sub : string) : bool :=
  String.prefix sub s
  || match s with
     | EmptyString => false
     | String _ s' => includes s' sub
     end.

(** [PropertyImage] ([property-image.tsx], lines 19-82): the two state
    variables, the two handlers of the image element, and what is rendered. *)
Module PropertyImage.

Record State := {
  isLoading : bool;
  hasError : bool
}.

(** [useState(true)] and [useState(false)] *)
Definition initial : State := {| isLoading := true; hasError := false |}.

Definition handleError (s : State) : State :=
  {| isLoading := false; hasError := true |}.

Definition handleLoad (s : State) : State :=
  {| isLoading := false; hasError := hasError s |}.

(** What the image element reports. *)
Inductive ImageEvent :=
| onLoad
| onError.

Definition handle (s : State) (ev : ImageEvent) : State :=
  match ev with
  | onLoad => handleLoad s
  | onError => handleError s
  end.

(** The failure box shows [src]; the picture is transparent under the spinner
    until it is loaded. *)
Inductive View :=
| FailedToLoad (src : string) (width height : nat)
| Picture (spinner : bool) (src alt : string) (width height : nat) (opaque : bool).

(** [width = 200] and [height = 150] when the caller leaves them out. *)
Definition render (src alt : string) (width height : option nat) (s : State) : View :=
  let width := default 200 width in
  let height := default 150 height in
  if hasError s then FailedToLoad src width height
  else Picture (isLoading s) src alt width height (negb (isLoading s)).

End PropertyImage.

(** [PropertyImageGallery] ([property-image-gallery.tsx], lines 15-71). *)
Module Gallery.

(** One entry of the thumbnail strip; [thumb_onClick] is the index its click
    handler stores. *)
Record Thumbnail := {
  thumb_src : string;
  thumb_alt : string;
  thumb_active : bool;
  thumb_onClick : nat
}.

(** [currentImage] is [None] when [imageUrls[safeIndex]] is [undefined]. *)
Inductive View :=
| NoImages
| Carousel (currentImage : option string) (alt : string)
    (counter : option string) (thumbnails : list Thumbnail).

(** [Math.max(0, Math.min(currentImageIndex, imageUrls.length - 1))], for a
    list that is not empty. *)
Definition safeIndex (imageUrls : list string) (currentImageIndex : nat) : nat :=
  Nat.max 0 (Nat.min currentImageIndex (length imageUrls - 1)).

Definition render (imageUrls : list string) (title : string)
    (currentImageIndex : nat) : View :=
  match imageUrls with
  | [] => NoImages
  | first :: _ =>
      if includes first "placehold.co" then NoImages
      else
        let safeIndex := safeIndex imageUrls currentImageIndex in
        let currentImage := imageUrls !! safeIndex in
        Carousel currentImage
          (title +:+ " - Image " +:+ Js.of_nat (safeIndex + 1))
          (if 1 <? length imageUrls
           then Some (Js.of_nat (safeIndex + 1) +:+ " / "
                      +:+ Js.of_nat (length imageUrls))
           else None)
          (if 1 <? length imageUrls
           then imap (fun index img =>
                        {| thumb_src := img;
                           thumb_alt := "Thumbnail " +:+ Js.of_nat (index + 1);
                           thumb_active := index =? safeIndex;
                           thumb_onClick := index |})
                     imageUrls
           else [])
  end.

(** The state of a mounted gallery: the list it was last given and the
    index it holds. *)
Record State := {
  imageUrls : list string;
  currentImageIndex : nat
}.

(** [useState(0)] *)
Definition mount (imageUrls : list string) : State :=
  {| imageUrls := imageUrls; currentImageIndex := 0 |}.

(** What happens to a mounted gallery: a click on the thumbnail whose
    handler stores [index], or a new list from the parent. *)
Inductive Action :=
| Click (index : nat)
| NewImages (imageUrls : list string).

(** All states rendered in a session, the one at hand first.  A click
    stores the index of its thumbnail.  A new list is first rendered with
    the index that is still held; the effect then stores 0 and the gallery
    renders again. *)
Fixpoint rendered (s : State) (actions : list Action) : list State :=
  s :: match actions with
       | [] => []
       | Click index :: actions' =>
           rendered {| imageUrls := imageUrls s; currentImageIndex := index |} actions'
       | NewImages imageUrls :: actions' =>
           {| imageUrls := imageUrls; currentImageIndex := currentImageIndex s |}
           :: rendered {| imageUrls := imageUrls; currentImageIndex := 0 |} actions'
       end.

Definition view (title : string) (s : State) : View :=
  render (imageUrls s) title (currentImageIndex s).

(** The gallery of the earlier revision (second document of
    [property-image.tsx], lines 97-148): the placeholder entries are left
    out, the index is used as it is, and nothing resets it. *)
Module Earlier.

Definition validImages (imageUrls : list string) : list string :=
  List.filter (fun url => Js.truthy url && negb (includes url "placehold.co")) imageUrls.

Definition render (imageUrls : list string) (title : string)
    (currentImageIndex : nat) : View :=
  let validImages := validImages imageUrls in
  if length validImages =? 0 then NoImages
  else
    let currentImage := validImages !! currentImageIndex in
    Carousel currentImage
      (title +:+ " - Image " +:+ Js.of_nat (currentImageIndex + 1))
      (if 1 <? length validImages
       then Some (Js.of_nat (currentImageIndex + 1) +:+ " / "
                  +:+ Js.of_nat (length validImages))
       else None)
      (if 1 <? length validImages
       then imap (fun index img =>
                    {| thumb_src := img;
                       thumb_alt := "Thumbnail " +:+ Js.of_nat (index + 1);
                       thumb_active := index =? currentImageIndex;
                       thumb_onClick := index |})
                 validImages
       else []).

End Earlier.

End Gallery.

(** The two places where a row of [DatabaseTable] shows the images of a
    record ([src/unnamed/part_001], lines 90-94 and 139-148).  The thumbnail
    is [prop.image_url || 'https://placehold.co/600x400.png']. *)
Definition rowThumbnail (prop : Property) : string :=
  Js.or_else (image_url prop) "https://placehold.co/600x400.png".

(** The gallery is only rendered for a list that is not empty; its title is
    [prop.title ?? 'Image Gallery'], and the title of a finalized record is
    always set. *)
Definition rowGallery (prop : Property) (currentImageIndex : nat)
    : option Gallery.View :=
  if 0 <? length (image_urls prop)
  then Some (Gallery.render (image_urls prop) (title prop) currentImageIndex)
  else None.

(** ** The export of records ([src/src/lib/export.ts]) *)
Module Exports.

(** The values the export handles.  The members of an object are its own
    enumerable string keys in the order [for ... in] visits them. *)
#[warnings="-register-all"] Inductive Value (number : Type) :=
| VUndefined
| VNull
| VBool (b : bool)
| VNum (n : number)
| VStr (s : string)
| VArr (elements : list (Value number))
| VObj (members : list (string * Value number)).

Arguments VUndefined {number}.
Arguments VNull {number}.
Arguments VBool {number} b.
Arguments VNum {number} n.
Arguments VStr {number} s.
Arguments VArr {number} elements.
Arguments VObj {number} members.

(** What the export needs of numbers: the literal [0], [ToBoolean] (false for
    zero and NaN) and [ToString]. *)
Class Number (number : Type) := {
  zero : number;
  number_truthy : number -> bool;
  number_toString : number -> string
}.

(** The browser the export runs in: [window] is [None] when [typeof window]
    is ['undefined'], and [location.origin] otherwise; [new_URL] is the URL
    constructor, [None] when it throws. *)
Record Client := {
  window : option string;
  new_URL : string -> option string -> option URL.t
}.

Section Rows.
Context {number : Type} `{!Number number}.

(** [v ?? d] *)
Definition nullish (v : Value number) : bool :=
  match v with
  | VUndefined | VNull => true
  | _ => false
  end.

Definition coalesce (v d : Value number) : Value number :=
  if nullish v then d else v.

(** [ToBoolean] *)
Definition truthy (v : Value number) : bool :=
  match v with
  | VUndefined | VNull => false
  | VBool b => b
  | VNum n => number_truthy n
  | VStr s => Js.truthy s
  | VArr _ | VObj _ => true
  end.

(** [String(v)] for plain data; [elements.join(sep)] renders [undefined] and
    [null] as the empty string. *)
Fixpoint ToString (v : Value number) : string :=
  match v with
  | VUndefined => "undefined"
  | VNull => "null"
  | VBool b => if b then "true" else "false"
  | VNum n => number_toString n
  | VStr s => s
  | VArr elements =>
      String.concat ","
        (map (fun e => match e with
                       | VUndefined | VNull => ""
                       | _ => ToString e
                       end) elements)
  | VObj _ => "[object Object]"
  end.

Definition join (sep : string) (elements : list (Value number)) : string :=
  String.concat sep
    (map (fun e => if nullish e then "" else ToString e) elements).

(** [typeof v === 'object' && !Array.isArray(v) && v !== null] *)
Definition is_object (v : Value number) : bool :=
  match v with
  | VObj _ => true
  | _ => false
  end.

(** [getAbsoluteUrl] (lines 8-23).  A value that is truthy and not a string
    has no [startsWith]: the call throws. *)
Definition getAbsoluteUrl (client : Client) (url : Value number)
    : Result string :=
  if negb (truthy url) then Ok ""
  else
    match url with
    | VStr url =>
        if Js.startsWith url "http" then Ok url
        else
          match window client with
          | Some origin =>
              match new_URL client url (Some origin) with
              | Some u => Ok (URL.href u)
              | None => Ok url
              end
          | None => Ok url
          end
    | _ => Throw (ErrorObj "url.startsWith is not a function")
    end.

(** [elements.map(f)] for an [f] that may throw. *)
Fixpoint mapResult {A B} (f : A -> Result B) (l : list A) : Result (list B) :=
  match l with
  | [] => Ok []
  | x :: l' =>
      y ← f x;
      ys ← mapResult f l';
      mret (y :: ys)
  end.

(** [createNestedObject] (lines 25-112); [prop k] is [prop[k]], [VUndefined]
    for a field the record does not have.  Only the two image fields can
    make it throw; they are evaluated in the order of the literal. *)
Definition createNestedObject (client : Client) (prop : string -> Value number)
    : Result (Value number) :=
  let text k := coalesce (prop k) (VStr "N/A") in
  let count k := coalesce (prop k) (VNum zero) in
  let flag k := coalesce (prop k) (VBool false) in
  let list k := coalesce (prop k) (VArr []) in
  image_url ← getAbsoluteUrl client (coalesce (prop "image_url") (VStr ""));
  image_urls ←
    match coalesce (prop "image_urls") (VArr []) with
    | VArr elements =>
        mapResult (fun url => getAbsoluteUrl client (coalesce url (VStr ""))) elements
    | _ => Throw (ErrorObj "(prop.image_urls ?? []).map is not a function")
    end;
  mret (VObj [
    ("main", VObj [
       ("id", prop "id");
       ("title", text "title");
       ("propertyPrice", text "propertyPrice");
       ("description", text "description");
       ("categories", list "categories");
       ("whatDoYouRent", text "whatDoYouRent");
       ("propertyFurnishingStatus", text "propertyFurnishingStatus");
       ("tenantType", text "tenantType");
       ("scraped_at", text "scraped_at");
       ("original_url", text "original_url");
       ("page_link", text "page_link")]);
    ("location", VObj [
       ("propertyAddress", text "propertyAddress");
       ("city", text "city");
       ("neighborhoodArea", text "neighborhoodArea");
       ("propertyCountry", text "propertyCountry");
       ("propertyLongitude", count "propertyLongitude");
       ("propertyLatitude", count "propertyLatitude")]);
    ("property_details", VObj [
       ("propertyBed", count "propertyBed");
       ("propertyBathroom", count "propertyBathroom");
       ("propertyLivingRoom", count "propertyLivingRoom");
       ("propertyRoom", count "propertyRoom");
       ("propertySize", text "propertySize");
       ("propertyBuilding", text "propertyBuilding");
       ("propertyTax", text "propertyTax");
       ("propertyDeposit", text "propertyDeposit");
       ("propertyDiscount", text "propertyDiscount")]);
    ("status_and_terms", VObj [
       ("propertyDisplayStatus", text "propertyDisplayStatus");
       ("propertyApprovalStatus", text "propertyApprovalStatus");
       ("propertyMinimumStay", text "propertyMinimumStay");
       ("propertyMaximumStay", text "propertyMaximumStay");
       ("propertyMinimumNotice", text "propertyMinimumNotice");
       ("termAndCondition", text "termAndCondition")]);
    ("preferences_flags", VObj [
       ("propertyGenderPreference", text "propertyGenderPreference");
       ("featuredProperty", flag "featuredProperty");
       ("platinumProperty", flag "platinumProperty");
       ("premiumProperty", flag "premiumProperty")]);
    ("features_and_amenities", VObj [
       ("featuresAndAmenities", list "featuresAndAmenities")]);
    ("images", VObj [
       ("image_url", VStr image_url);
       ("image_urls", VArr (VStr <$> image_urls))]);
    ("legal_and_reference", VObj [
       ("validated_information", text "validated_information");
       ("permit_number", text "permit_number");
       ("ded_license_number", text "ded_license_number");
       ("rera_registration_number", text "rera_registration_number");
       ("dld_brn", text "dld_brn");
       ("reference_id", text "reference_id")]);
    ("agent_and_owner", VObj [
       ("propertyAgent", text "propertyAgent");
       ("propertyOwnerDetails", text "propertyOwnerDetails");
       ("listed_by_name", text "listed_by_name");
       ("listed_by_phone", text "listed_by_phone");
       ("listed_by_email", text "listed_by_email")]);
    ("ai_enhancements_originals", VObj [
       ("original_title", text "original_title");
       ("original_description", text "original_description")]);
    ("additional", VObj [
       ("matterportLink", text "matterportLink")])]).

(** The array index a property key stands for, if it is one: the canonical
    decimal string of an integer below 2^32 - 1.  Such keys come first in the
    order of the own keys of an object, in ascending order; the other string
    keys follow in the order of their creation. *)
Fixpoint decimal (s : string) (acc : N) : N :=
  match s with
  | EmptyString => acc
  | String c s' => decimal s' (10 * acc + (N.of_nat (nat_of_ascii c) - 48))%N
  end.

Definition array_index (key : string) : option N :=
  let n := decimal key 0%N in
  if String.eqb (Js.of_N n) key && (n <? 4294967295)%N then Some n else None.

(** Where a new array index [n] goes among the keys of [result]. *)
Fixpoint insert_index (n : N) (key : string) (v : Value number)
    (result : list (string * Value number)) : list (string * Value number) :=
  match result with
  | [] => [(key, v)]
  | (k, x) :: result' =>
      match array_index k with
      | Some m =>
          if (m <? n)%N then (k, x) :: insert_index n key v result'
          else (key, v) :: result
      | None => (key, v) :: result
      end
  end.

(** [result[key] = v]: an existing key keeps its place. *)
Definition assign (key : string) (v : Value number)
    (result : list (string * Value number)) : list (string * Value number) :=
  if existsb (fun kx => String.eqb kx.1 key) result then
    map (fun kx => if String.eqb kx.1 key then (kx.1, v) else kx) result
  else
    match array_index key with
    | Some n => insert_index n key v result
    | None => result ++ [(key, v)]
    end.

(** [flattenObject] (lines 114-129), for the objects it is called with: the
    object built by [createNestedObject] (line 134) and, in the recursive
    call (line 119), a value that has passed the object test.  [result] is
    the object that is filled, as the list of its entries in key order. *)
Fixpoint flattenObject (obj : Value number) (parentKey : string)
    (result : list (string * Value number)) : list (string * Value number) :=
  match obj with
  | VObj members =>
      fold_left
        (fun result member =>
           let key := member.1 in
           let newKey :=
             if Js.truthy parentKey then parentKey +:+ "." +:+ key else key in
           match member.2 with
           | VObj _ => flattenObject member.2 newKey result
           | VArr elements => assign newKey (VStr (join " | " elements)) result
           | _ => assign newKey member.2 result
           end)
        members result
  | _ => result
  end.

(** The key under which a member is stored. *)
Definition newKey (parentKey key : string) : string :=
  if Js.truthy parentKey then parentKey +:+ "." +:+ key else key.

(** What is stored for a member that is not an object. *)
Definition cell (v : Value number) : Value number :=
  match v with
  | VArr elements => VStr (join " | " elements)
  | _ => v
  end.

(** Neither an object nor an array. *)
Definition scalar (v : Value number) : bool :=
  match v with
  | VObj _ | VArr _ => false
  | _ => true
  end.

(** [result[key]] *)
Definition get (key : string) (result : list (string * Value number))
    : option (Value number) :=
  snd <$> List.find (fun kx => String.eqb kx.1 key) result.

(** The members of an object that are not objects themselves, at any depth,
    each with the key it is stored under, in the order they are visited. *)
Fixpoint leaves (obj : Value number) (parentKey : string)
    : list (string * Value number) :=
  match obj with
  | VObj members =>
      flat_map
        (fun member =>
           match member.2 with
           | VObj _ => leaves member.2 (newKey parentKey member.1)
           | _ => [(newKey parentKey member.1, member.2)]
           end)
        members
  | _ => []
  end.

(** [flattenObject(createNestedObject(prop))], the row of one record
    (lines 134, 142 and 161). *)
Definition exportRow (client : Client) (prop : string -> Value number)
    : Result (list (string * Value number)) :=
  nested ← createNestedObject client prop;
  mret (flattenObject nested "" []).

End Rows.

(** The columns of an exported row. *)
Definition columns : list string :=
  [ "main.id"; "main.title"; "main.propertyPrice"; "main.description";
    "main.categories"; "main.whatDoYouRent"; "main.propertyFurnishingStatus";
    "main.tenantType"; "main.scraped_at"; "main.original_url"; "main.page_link";
    "location.propertyAddress"; "location.city"; "location.neighborhoodArea";
    "location.propertyCountry"; "location.propertyLongitude";
    "location.propertyLatitude";
    "property_details.propertyBed"; "property_details.propertyBathroom";
    "property_details.propertyLivingRoom"; "property_details.propertyRoom";
    "property_details.propertySize"; "property_details.propertyBuilding";
    "property_details.propertyTax"; "property_details.propertyDeposit";
    "property_details.propertyDiscount";
    "status_and_terms.propertyDisplayStatus";
    "status_and_terms.propertyApprovalStatus";
    "status_and_terms.propertyMinimumStay";
    "status_and_terms.propertyMaximumStay";
    "status_and_terms.propertyMinimumNotice";
    "status_and_terms.termAndCondition";
    "preferences_flags.propertyGenderPreference";
    "preferences_flags.featuredProperty"; "preferences_flags.platinumProperty";
    "preferences_flags.premiumProperty";
    "features_and_amenities.featuresAndAmenities";
    "images.image_url"; "images.image_urls";
    "legal_and_reference.validated_information";
    "legal_and_reference.permit_number";
    "legal_and_reference.ded_license_number";
    "legal_and_reference.rera_registration_number";
    "legal_and_reference.dld_brn"; "legal_and_reference.reference_id";
    "agent_and_owner.propertyAgent"; "agent_and_owner.propertyOwnerDetails";
    "agent_and_owner.listed_by_name"; "agent_and_owner.listed_by_phone";
    "agent_and_owner.listed_by_email";
    "ai_enhancements_originals.original_title";
    "ai_enhancements_originals.original_description";
    "additional.matterportLink" ].

(** The image fields have the types the record type gives them: a string
    and an array of strings, each possibly missing. *)
Definition stringOrMissing {number} (v : Value number) : bool :=
  match v with
  | VUndefined | VNull | VStr _ => true
  | _ => false
  end.

Definition imagesWellTyped {number} (prop : string -> Value number) : bool :=
  stringOrMissing (prop "image_url")
  && match prop "image_urls" with
     | VUndefined | VNull => true
     | VArr elements => forallb stringOrMissing elements
     | _ => false
     end.

(** Numbers as integers, for the examples: the integers below 10^21 in
    absolute value, which [ToString] prints digit by digit. *)
#[global] Instance Z_Number : Number Z := {|
  zero := 0%Z;
  number_truthy := fun n => negb (n =? 0)%Z;
  number_toString := fun n => pretty n
|}.

(** A browser on the application's origin, with the reference parser. *)
Definition browser : Client :=
  {| window := Some "https://app.test"; new_URL := URL.parse |}.

(** A record with a title, a number of bedrooms and two images, one stored
    and one left at its remote URL; every other field is missing. *)
Definition sample : string -> Value Z := fun k =>
  if String.eqb k "id" then VStr "prop-1700000000000-0"
  else if String.eqb k "title" then VStr "Villa"
  else if String.eqb k "propertyBed" then VNum 3%Z
  else if String.eqb k "image_url"
       then VStr "/uploads/properties/prop-1700000000000-0/1000_0.png"
  else if String.eqb k "image_urls"
       then VArr [VStr "/uploads/properties/prop-1700000000000-0/1000_0.png";
                  VStr "https://img.test/b.jpg"]
  else VUndefined.

End Exports.

(** * Properties *)

(** ** [Promise.all] keeps the index order *)
Section PromiseAll.
Context {A : Type}.
Implicit Types (results : list A) (values : list (option A)) (order : list nat).

Lemma slots_agree_empty results :
  slots_agree results (replicate (length results) None).
Proof.
  split; [by rewrite length_replicate|].
  intros i v [? _]%lookup_replicate. discriminate.
Qed.

Lemma slots_agree_store results values i r :
  slots_agree results values → results !! i = Some r →
  slots_agree results (<[i := Some r]> values).
Proof.
  intros [Hlen Hval] Hr. split; [by rewrite length_insert|].
  intros j v. destruct (decide (i = j)) as [<-|Hne].
  - rewrite list_lookup_insert_eq; [congruence|].
    rewrite Hlen. by eapply lookup_lt_Some.
  - rewrite list_lookup_insert_ne by done. apply Hval.
Qed.

Lemma resolveElements_agree order : ∀ results values,
  slots_agree results values →
  slots_agree results (resolveElements order results values).
Proof.
  induction order as [|i order IH]; intros results values Hv; simpl; [done|].
  apply IH. destruct (results !! i) eqn:Hr; [|done].
  by apply slots_agree_store.
Qed.

(** A filled slot stays filled. *)
Lemma resolveElements_keeps order : ∀ results values i v,
  slots_agree results values →
  values !! i = Some (Some v) →
  resolveElements order results values !! i = Some (Some v).
Proof.
  induction order as [|j order IH]; intros results values i v Hv Hi; simpl; [done|].
  destruct (results !! j) eqn:Hr; [|by apply IH].
  apply IH; [by apply slots_agree_store|].
  destruct (decide (j = i)) as [->|Hne].
  - destruct Hv as [Hlen Hval]. rewrite (Hval _ _ Hi) in Hr. simplify_eq.
    apply list_lookup_insert_eq. by eapply lookup_lt_Some.
  - by rewrite list_lookup_insert_ne.
Qed.

(** A promise that settles has its value stored in its own slot. *)
Lemma resolveElements_settled order : ∀ results values i r,
  slots_agree results values →
  i ∈ order → results !! i = Some r →
  resolveElements order results values !! i = Some (Some r).
Proof.
  induction order as [|j order IH]; intros results values i r Hv Hin Hr; simpl.
  - by apply elem_of_nil in Hin.
  - apply elem_of_cons in Hin as [->|Hin].
    + rewrite Hr. apply resolveElements_keeps; [by apply slots_agree_store|].
      apply list_lookup_insert_eq. destruct Hv as [-> _]. by eapply lookup_lt_Some.
    + destruct (results !! j) eqn:Hj; [|by eapply IH].
      eapply IH; [by apply slots_agree_store|done..].
Qed.

Lemma omap_Some_fmap (l : list A) : omap (fun v => v) (Some <$> l) = l.
Proof. induction l as [|x l IH]; csimpl; [done|]. by f_equal. Qed.

(** The values come out by index, whatever the settling order. *)
Lemma Promise_all_by_index order results : Promise_all order results = results.
Proof.
  unfold Promise_all.
  set (vs := resolveElements _ _ _).
  assert (vs = Some <$> results) as ->; [|apply omap_Some_fmap].
  assert (slots_agree results vs) as [Hlen _].
  { apply resolveElements_agree, slots_agree_empty. }
  apply list_eq. intros i. rewrite list_lookup_fmap.
  destruct (results !! i) as [r|] eqn:Hr; simpl.
  - apply resolveElements_settled; [apply slots_agree_empty| |done].
    apply elem_of_app. right. apply elem_of_seq.
    apply lookup_lt_Some in Hr. lia.
  - apply lookup_ge_None. rewrite Hlen. by apply lookup_ge_None.
Qed.

End PromiseAll.

(** ** Computations *)

Lemma bind_ok {A B} (m : Comp A) (f : A → Comp B) a :
  outcome m = Ok a →
  m ≫= f = MkComp (trace m ++ trace (f a)) (outcome (f a)).
Proof. intros H. unfold mbind, Comp_bind. by rewrite H. Qed.

Lemma bind_throw {A B} (m : Comp A) (f : A → Comp B) e :
  outcome m = Throw e → m ≫= f = MkComp (trace m) (Throw e).
Proof. intros H. unfold mbind, Comp_bind. by rewrite H. Qed.

Lemma try_catch_ok {A} (body : Comp A) handler a :
  outcome body = Ok a → try_catch body handler = body.
Proof. intros H. unfold try_catch. by rewrite H. Qed.

Lemma try_catch_throw {A} (body : Comp A) handler e :
  outcome body = Throw e →
  try_catch body handler
  = MkComp (trace body ++ trace (handler e)) (outcome (handler e)).
Proof. intros H. unfold try_catch. by rewrite H. Qed.

Lemma history_app tr1 tr2 : history (tr1 ++ tr2) = history tr1 ++ history tr2.
Proof. unfold history. apply omap_app. Qed.

(** Unfolds the binds of a computation and reads off its trace and outcome. *)
Ltac run := unfold mbind, Comp_bind, mret, Comp_ret; cbn [outcome trace].

(** The equations that describe whole computations are gathered in the
    rewrite database [pipeline]. *)
Create Rewrite HintDb pipeline.

(** ** The extractor never throws *)

Lemma extractPropertyInfo_eq w htmlContent :
  extractPropertyInfo w htmlContent
  = MkComp [EvExtract htmlContent] (Ok (Properties (extracted w htmlContent))).
Proof.
  unfold extractPropertyInfo, extracted, settle.
  destruct (extract_prompt w htmlContent) as [output|e]; reflexivity.
Qed.
#[global] Hint Rewrite extractPropertyInfo_eq : pipeline.

(** ** The enhancer never throws *)

Lemma enhancePropertyContent_eq w index title description :
  enhancePropertyContent w index title description
  = MkComp (if skipsEnhancement title description then []
            else [EvEnhance title description])
           (Ok (enhancedContentOf w index title description)).
Proof.
  unfold enhancePropertyContent, enhancedContentOf, skipsEnhancement.
  destruct (negb (Js.truthy title) || negb (Js.truthy description)); [done|].
  by destruct (enhance_service w index title description).
Qed.

(** ** One record *)

Lemma processProperty_eq w originalUrl index p :
  processProperty w originalUrl index p
  = MkComp (recordTrace w originalUrl p) (Ok (finalizedRecord w originalUrl index p)).
Proof.
  unfold processProperty, recordTrace, finalizedRecord.
  rewrite enhancePropertyContent_eq. run. simpl.
  by rewrite app_nil_r.
Qed.

(** ** All records of a job *)

Lemma firstRejection_none {A} order (outcomes : list (Result A)) :
  Forall (fun r => is_ok r = true) outcomes →
  firstRejection order outcomes = None.
Proof.
  intros Hall. induction order as [|i order IH]; simpl; [done|].
  destruct (outcomes !! i) as [[a|e]|] eqn:Hi; try done.
  eapply Forall_lookup_1 in Hall; [|done]. discriminate.
Qed.

Lemma Promise_all_comp_fulfilled {A} order (traces : list (list Event)) (values : list A) :
  length traces = length values →
  Promise_all_comp order (zip_with MkComp traces (Ok <$> values))
  = MkComp (concat traces) (Ok values).
Proof.
  intros Hlen. unfold Promise_all_comp.
  assert (trace <$> zip_with MkComp traces (Ok <$> values) = traces) as ->.
  { revert values Hlen. induction traces as [|t traces IH]; intros [|v values] ?;
      simplify_eq/=; [done|]. f_equal. by apply IH. }
  assert (outcome <$> zip_with MkComp traces (Ok <$> values) = Ok <$> values) as ->.
  { revert values Hlen. induction traces as [|t traces IH]; intros [|v values] ?;
      simplify_eq/=; [done|]. f_equal. by apply IH. }
  rewrite firstRejection_none.
  2:{ apply Forall_fmap, Forall_true. done. }
  f_equal. f_equal. rewrite Promise_all_by_index.
  revert values Hlen. induction traces as [|t traces IH]; intros [|v values] ?;
    simplify_eq/=; [done|]. f_equal. by apply IH.
Qed.

Lemma imap_processProperty w originalUrl (properties : list Draft) :
  imap (processProperty w originalUrl) properties
  = zip_with MkComp (recordTrace w originalUrl <$> properties)
      (Ok <$> imap (finalizedRecord w originalUrl) properties).
Proof.
  unfold recordTrace.
  set (f := processProperty w originalUrl).
  set (g := finalizedRecord w originalUrl).
  assert (∀ k, imap (f ∘ Nat.add k) properties
               = zip_with MkComp (recordTrace w originalUrl <$> properties)
                   (Ok <$> imap (g ∘ Nat.add k) properties)) as H.
  { induction properties as [|p ps IH]; intros k; simpl; [done|].
    f_equal.
    - subst f g. simpl. apply processProperty_eq.
    - specialize (IH (S k)).
      rewrite <-(imap_ext (f ∘ Nat.add (S k)) _ ps), <-(imap_ext (g ∘ Nat.add (S k)) _ ps).
      + exact IH.
      + intros i x _. simpl. f_equal. lia.
      + intros i x _. simpl. f_equal. lia. }
  exact (H 0).
Qed.

(** [processScrapedData] always returns: one record per draft, by index,
    after one history entry that counts them. *)
Lemma processScrapedData_eq w properties originalUrl type details :
  processScrapedData w properties originalUrl type details
  = MkComp (concat (recordTrace w originalUrl <$> properties)
            ++ [EvSaveHistory {| h_type := type; h_details := details;
                                 h_propertyCount := length properties |};
                EvRevalidate "/history"])
           (Ok (imap (finalizedRecord w originalUrl) properties)).
Proof.
  unfold processScrapedData.
  rewrite imap_processProperty, Promise_all_comp_fulfilled.
  2:{ by rewrite length_fmap, length_imap. }
  unfold saveHistoryEntry, revalidatePath, emit. run. simpl.
  by rewrite length_imap.
Qed.
#[global] Hint Rewrite processScrapedData_eq : pipeline.

(** ** The image list of a record *)

Lemma truthy_app_l s t : Js.truthy s = true → Js.truthy (s +:+ t) = true.
Proof. by destruct s. Qed.

Lemma truthy_app_r s t : Js.truthy t = true → Js.truthy (s +:+ t) = true.
Proof. destruct s; [done|]. by intros _. Qed.

(** A serialized URL is never the empty string. *)
Lemma href_truthy u : Js.truthy (URL.href u) = true.
Proof. unfold URL.href. apply truthy_app_r, truthy_app_l. done. Qed.

Lemma resolveImageUrl_truthy w p originalUrl c imgUrl :
  resolveImageUrl w p originalUrl c = Some imgUrl → Js.truthy imgUrl = true.
Proof.
  unfold resolveImageUrl. intros H.
  repeat case_match; simplify_eq/=;
    match goal with
    | H : URL.href <$> ?o = Some _ |- _ =>
        destruct o; simplify_eq/=; apply href_truthy
    end.
Qed.

Lemma absoluteImageUrls_truthy w p originalUrl :
  Forall (fun imgUrl => Js.truthy imgUrl = true) (absoluteImageUrls w p originalUrl).
Proof.
  unfold absoluteImageUrls. destruct (d_image_urls p) as [cs|]; [|constructor].
  apply Forall_forall. intros imgUrl (c & _ & Hc)%list_elem_of_omap.
  by eapply resolveImageUrl_truthy.
Qed.

(** A stored image gets a non-empty public URL. *)
Lemma fetchAndPersist_truthy w pid imgIndex imgUrl io publicUrl :
  fetchAndPersist w pid imgIndex imgUrl io = Ok publicUrl →
  Js.truthy publicUrl = true.
Proof.
  unfold fetchAndPersist, mbind, Result_bind, mret, Result_ret. intros H.
  repeat case_match; simplify_eq/=. done.
Qed.

Lemma processImage_truthy w pid imgIndex imgUrl io :
  Js.truthy imgUrl = true → Js.truthy (processImage w pid imgIndex imgUrl io) = true.
Proof.
  intros Hu. unfold processImage.
  destruct (fetchAndPersist w pid imgIndex imgUrl io) eqn:H; [|done].
  by eapply fetchAndPersist_truthy.
Qed.

Lemma imageProcessingPromises_truthy w originalUrl index p :
  Forall (fun u => Js.truthy u = true) (imageProcessingPromises w originalUrl index p).
Proof.
  unfold imageProcessingPromises. apply Forall_lookup. intros i u Hi.
  apply list_lookup_imap_Some in Hi as (imgUrl & Hurl & ->).
  apply processImage_truthy.
  apply (Forall_lookup_1 _ _ _ _ (absoluteImageUrls_truthy w p originalUrl) Hurl).
Qed.

Lemma filter_all {A} (f : A → bool) (l : list A) :
  Forall (fun x => f x = true) l → List.filter f l = l.
Proof.
  induction 1 as [|x l Hx _ IH]; simpl; [done|]. by rewrite Hx, IH.
Qed.

(** Nothing is dropped after the fetches: the processed list holds one entry
    per resolved candidate, by index. *)
Lemma processedImageUrls_eq w originalUrl index p :
  processedImageUrls w originalUrl index p
  = imageProcessingPromises w originalUrl index p.
Proof.
  unfold processedImageUrls. rewrite Promise_all_by_index.
  apply filter_all, imageProcessingPromises_truthy.
Qed.

Lemma length_imageProcessingPromises w originalUrl index p :
  length (imageProcessingPromises w originalUrl index p)
  = length (absoluteImageUrls w p originalUrl).
Proof. unfold imageProcessingPromises. apply length_imap. Qed.

Lemma finalImageUrls_eq w originalUrl index p :
  finalImageUrls w originalUrl index p
  = if 0 <? length (absoluteImageUrls w p originalUrl)
    then imageProcessingPromises w originalUrl index p
    else [placeholder].
Proof.
  unfold finalImageUrls.
  by rewrite processedImageUrls_eq, length_imageProcessingPromises.
Qed.

Lemma lookup_finalized w originalUrl (properties : list Draft) index p :
  properties !! index = Some p →
  imap (finalizedRecord w originalUrl) properties !! index
  = Some (finalizedRecord w originalUrl index p).
Proof. intros H. by rewrite list_lookup_imap, H. Qed.

Lemma finalizedRecord_reschedule w imageOrder recordOrder originalUrl index p :
  finalizedRecord (reschedule w imageOrder recordOrder) originalUrl index p
  = finalizedRecord w originalUrl index p.
Proof.
  unfold finalizedRecord. rewrite !finalImageUrls_eq. reflexivity.
Qed.

(** C2 — Every finalized record that the pipeline produces, whatever the
    draft and whatever happens to each image, has at least one entry in
    [image_urls], and [image_url] is [image_urls[0]]; when no candidate
    survives processing, [image_urls] is exactly the one sentinel
    placeholder. *)
Theorem image_urls_never_empty w properties originalUrl type details :
  ∃ finalProperties,
    outcome (processScrapedData w properties originalUrl type details)
    = Ok finalProperties
    ∧ length finalProperties = length properties
    ∧ Forall (fun r => 1 ≤ length (image_urls r)
                       ∧ image_url r = image_urls r !! 0
                       ∧ is_Some (image_url r)) finalProperties
    ∧ ∀ index p, properties !! index = Some p →
        ∃ r, finalProperties !! index = Some r
             ∧ (processedImageUrls w originalUrl index p = [] →
                image_urls r = [placeholder] ∧ image_url r = Some placeholder).
Proof.
  eexists. rewrite processScrapedData_eq. simpl.
  split; [done|]. split; [by rewrite length_imap|]. split.
  - apply Forall_lookup. intros index r Hr.
    apply list_lookup_imap_Some in Hr as (p & _ & ->). simpl.
    assert (1 ≤ length (finalImageUrls w originalUrl index p)) as Hlen.
    { unfold finalImageUrls.
      destruct (0 <? length (processedImageUrls w originalUrl index p)) eqn:H;
        [apply Nat.ltb_lt in H; lia | simpl; lia]. }
    split; [done|]. split; [done|].
    apply lookup_lt_is_Some. lia.
  - intros index p Hp. eexists. split; [by apply lookup_finalized|].
    intros Hnone. simpl. unfold finalImageUrls. by rewrite Hnone.
Qed.

(** C3 — When the fetch-and-persist step of a resolved candidate fails
    (non-2xx response, empty payload, any thrown error), the record is still
    produced, and the entry for that candidate in its image list is the
    resolved URL string itself. *)
Theorem failed_image_falls_back w properties originalUrl type details
    index p imgIndex imgUrl e :
  properties !! index = Some p →
  absoluteImageUrls w p originalUrl !! imgIndex = Some imgUrl →
  fetchAndPersist w (propertyId w index) imgIndex imgUrl
    (image_io w index imgIndex imgUrl (referer p originalUrl)) = Throw e →
  ∃ finalProperties r,
    outcome (processScrapedData w properties originalUrl type details)
    = Ok finalProperties
    ∧ finalProperties !! index = Some r
    ∧ image_urls r !! imgIndex = Some imgUrl.
Proof.
  intros Hp Hurl Hfail. do 2 eexists. rewrite processScrapedData_eq. simpl.
  split; [done|]. split; [by apply lookup_finalized|]. simpl.
  rewrite finalImageUrls_eq.
  assert ((0 <? length (absoluteImageUrls w p originalUrl)) = true) as ->.
  { apply Nat.ltb_lt. apply lookup_lt_Some in Hurl. lia. }
  unfold imageProcessingPromises. rewrite list_lookup_imap, Hurl. simpl.
  unfold processImage. by rewrite Hfail.
Qed.

(** C4 — For a record with a non-empty resolved candidate list, the final
    [image_urls] has one entry per candidate, in discovery order: entry [i]
    is the outcome (stored reference or fallback) of candidate [i].  The
    settling orders of the concurrent promises do not matter: every other
    choice of them gives the same records. *)
Theorem image_order_is_discovery_order w properties originalUrl type details
    index p :
  properties !! index = Some p →
  0 < length (absoluteImageUrls w p originalUrl) →
  ∃ finalProperties r,
    outcome (processScrapedData w properties originalUrl type details)
    = Ok finalProperties
    ∧ finalProperties !! index = Some r
    ∧ length (image_urls r) = length (absoluteImageUrls w p originalUrl)
    ∧ (∀ imgIndex imgUrl,
         absoluteImageUrls w p originalUrl !! imgIndex = Some imgUrl →
         image_urls r !! imgIndex
         = Some (processImage w (propertyId w index) imgIndex imgUrl
                   (image_io w index imgIndex imgUrl (referer p originalUrl))))
    ∧ (∀ imageOrder recordOrder,
         outcome (processScrapedData (reschedule w imageOrder recordOrder)
                    properties originalUrl type details)
         = Ok finalProperties).
Proof.
  intros Hp Hlen. do 2 eexists. rewrite processScrapedData_eq. simpl.
  split; [done|]. split; [by apply lookup_finalized|]. simpl.
  rewrite finalImageUrls_eq.
  assert ((0 <? length (absoluteImageUrls w p originalUrl)) = true) as ->.
  { by apply Nat.ltb_lt. }
  split; [apply length_imageProcessingPromises|]. split.
  - intros imgIndex imgUrl Hurl.
    unfold imageProcessingPromises. by rewrite list_lookup_imap, Hurl.
  - intros imageOrder recordOrder. rewrite processScrapedData_eq. simpl.
    f_equal. apply imap_ext. intros i x _. apply finalizedRecord_reschedule.
Qed.

(** ** The bulk loop *)

(** Whatever the body of the [try] block does, the loop returns: it runs
    every job, pushes the records of those that return, and records one error
    for each one that throws. *)
Lemma bulkLoop_eq job urlList : ∀ k allResults errors,
  bulkLoop job k urlList allResults errors
  = MkComp (jobTraces job k urlList)
      (Ok {| properties := allResults ++ pushedRecords (jobOutcomes job k urlList);
             errors := errors ++ capturedErrors (jobOutcomes job k urlList) |}).
Proof.
  induction urlList as [|url urlList IH]; intros k allResults errors; simpl.
  - unfold pushedRecords, capturedErrors. simpl. by rewrite !app_nil_r.
  - unfold pushedRecords, capturedErrors. csimpl.
    destruct (outcome (job k url)) as [processed|e] eqn:Hjob; simpl.
    + rewrite (try_catch_ok _ _ (allResults ++ processed, errors)).
      2:{ by rewrite (bind_ok _ _ _ Hjob). }
      rewrite (bind_ok _ _ _ Hjob). run. simpl.
      rewrite IH. simpl. rewrite app_nil_r. unfold pushedRecords.
      by rewrite app_assoc.
    + rewrite (try_catch_throw _ _ e).
      2:{ by rewrite (bind_throw _ _ _ Hjob). }
      rewrite (bind_throw _ _ _ Hjob). run. simpl.
      rewrite IH. simpl. rewrite app_nil_r. unfold capturedErrors.
      by rewrite <-app_assoc.
Qed.

Lemma length_jobOutcomes job urlList : ∀ k,
  length (jobOutcomes job k urlList) = length urlList.
Proof. induction urlList as [|url urlList IH]; intros k; simpl; [done|]. by rewrite IH. Qed.

Lemma length_bulkOutcomes ws urlList :
  length (bulkOutcomes ws urlList) = length urlList.
Proof. apply length_jobOutcomes. Qed.

Lemma all_failed jobs :
  Forall (fun job => failed job = true) jobs →
  pushedRecords jobs = [] ∧ length (capturedErrors jobs) = length jobs.
Proof.
  unfold pushedRecords, capturedErrors, failed.
  induction 1 as [|[url [rs|e]] jobs Hjob _ [IH1 IH2]]; csimpl in *; [done|done|].
  split; [done|]. by rewrite IH2.
Qed.

(** ** Resolution of image candidates *)

(** C5 (as amended) — A candidate that is not a string, or is empty, is
    skipped.  One that starts with [http://] or [https://] is parsed on its own,
    without a base, and the serialized result is used.  Any other candidate is
    resolved against the page link of the draft when that link is absolute,
    else against the origin URL of the job when that one is absolute:
    [imgs/a.jpg] with the page link [https://x.com/listing/5] gives
    [https://x.com/listing/imgs/a.jpg].  When neither base is absolute, or when
    the parser rejects the reference, the candidate is dropped from the list
    and the record is still produced. *)
Theorem image_candidate_resolution w p originalUrl :
  resolveImageUrl w p originalUrl COther = None
  ∧ resolveImageUrl w p originalUrl (CStr "") = None
  ∧ (∀ imgUrl, Js.truthy imgUrl = true →
       resolveImageUrl w p originalUrl (CStr imgUrl)
       = if is_absolute imgUrl then URL.href <$> URL_parse w imgUrl None
         else if page_link_absolute p
              then URL.href <$> URL_parse w imgUrl (d_page_link p)
         else if is_absolute originalUrl
              then URL.href <$> URL_parse w imgUrl (Some originalUrl)
         else None)
  ∧ (URL_parse w = URL.parse →
     d_page_link p = Some "https://x.com/listing/5" →
     resolveImageUrl w p originalUrl (CStr "imgs/a.jpg")
     = Some "https://x.com/listing/imgs/a.jpg")
  ∧ absoluteImageUrls w p originalUrl
    = omap (resolveImageUrl w p originalUrl) (default [] (d_image_urls p))
  ∧ ∀ index, is_ok (outcome (processProperty w originalUrl index p)) = true.
Proof.
  split; [done|]. split; [done|]. split; [|split; [|split]].
  - intros imgUrl Htruthy. unfold resolveImageUrl, baseUrlToUse.
    rewrite Htruthy. simpl.
    destruct (is_absolute imgUrl); [done|].
    destruct (page_link_absolute p) eqn:Hpl.
    + unfold page_link_absolute in Hpl. by destruct (d_page_link p).
    + destruct (is_absolute originalUrl) eqn:Habs.
      * assert (Js.truthy originalUrl = true) as ->; [|done].
        destruct originalUrl; [discriminate|done].
      * by rewrite andb_false_r.
  - intros Hparse Hlink. unfold resolveImageUrl, baseUrlToUse, page_link_absolute.
    rewrite Hparse, Hlink. reflexivity.
  - unfold absoluteImageUrls. by destruct (d_image_urls p).
  - intros index. by rewrite processProperty_eq.
Qed.

(** ** The fetch-and-persist step *)



(** ** Enhancement *)

Lemma truthy_false s : Js.truthy s = false ↔ s = "".
Proof. by destruct s. Qed.

Lemma filter_enhance_fetches (urls : list string) ref :
  List.filter is_enhance (map (fun imgUrl => EvFetchImage imgUrl ref) urls) = [].
Proof. induction urls as [|u urls IH]; simpl; done. Qed.

Lemma enhancedContentOf_skip w index title description :
  title = "" ∨ description = "" →
  skipsEnhancement title description = true
  ∧ enhancedContentOf w index title description
    = {| enhancedTitle := title; enhancedDescription := description |}.
Proof.
  intros Hempty.
  assert (skipsEnhancement title description = true) as Hskip.
  { unfold skipsEnhancement. destruct Hempty as [->| ->]; [done|]. apply orb_true_r. }
  unfold enhancedContentOf. by rewrite Hskip.
Qed.

Lemma enhancedContentOf_throw w index title description e :
  enhance_service w index title description = Throw e →
  enhancedContentOf w index title description
  = {| enhancedTitle := title; enhancedDescription := description |}.
Proof.
  intros He. unfold enhancedContentOf.
  destruct (skipsEnhancement title description); [done|]. by rewrite He.
Qed.

(** C7 — For a draft whose (defaulted) title or description is empty, the
    enhancement service is not called and the finalized title and
    description are the defaulted inputs; when the service call throws, the
    record is still produced with the original title and description.  In the
    cloud-storage revision the guard stands at the call site as well. *)
Theorem enhancement_falls_back w originalUrl index p :
  let title0 := Js.or_else (d_title p) "" in
  let description0 := Js.or_else (d_description p) "" in
  ∃ r,
    outcome (processProperty w originalUrl index p) = Ok r
    ∧ (title0 = "" ∨ description0 = "" →
       List.filter is_enhance (trace (processProperty w originalUrl index p)) = []
       ∧ title r = title0 ∧ description r = description0)
    ∧ (∀ e, enhance_service w index title0 description0 = Throw e →
       title r = title0 ∧ description r = description0)
    ∧ (title0 = "" ∨ description0 = "" →
       Legacy.enhancementStep w index p
       = MkComp [] (Ok (d_title p, d_description p))).
Proof.
  intros title0 description0. subst title0 description0.
  exists (finalizedRecord w originalUrl index p). rewrite processProperty_eq.
  cbn [outcome trace]. unfold finalizedRecord. cbn [title description].
  split; [done|]. split; [|split].
  - intros Hempty.
    destruct (enhancedContentOf_skip w index _ _ Hempty) as [Hskip ->].
    unfold recordTrace. rewrite Hskip, app_nil_r.
    split; [apply filter_enhance_fetches|done].
  - intros e He. by rewrite (enhancedContentOf_throw _ _ _ _ _ He).
  - intros Hempty. unfold Legacy.enhancementStep.
    unfold Js.or_else in Hempty.
    destruct (d_title p) as [t|], (d_description p) as [d|]; try done.
    destruct (Js.truthy t) eqn:Ht, (Js.truthy d) eqn:Hd; try done.
    destruct Hempty as [->| ->]; discriminate.
Qed.

(** ** Validation and history *)

Lemma prefix_app s t : String.prefix s (s +:+ t) = true.
Proof.
  induction s as [|c s IH]; simpl; [by destruct t|].
  destruct (ascii_dec c c); [done|congruence].
Qed.

Lemma validateUrl_valid w url :
  validHttpUrl w url = true → validateUrl w url = MkComp [] (Ok tt).
Proof.
  unfold validHttpUrl, validateUrl. destruct (URL_parse w url None) as [u|]; [|done].
  intros [->| ->]%orb_true_iff; [done|]. by rewrite andb_false_r.
Qed.

Lemma validateUrl_invalid w url :
  validHttpUrl w url = false →
  ∃ reason,
    validateUrl w url
    = MkComp [] (Throw (ErrorObj
        ("Invalid URL provided: " +:+ Js.dquote +:+ url +:+ Js.dquote
         +:+ ". Please ensure it is a valid HTTP or HTTPS URL. Reason: "
         +:+ reason))).
Proof.
  unfold validHttpUrl, validateUrl. destruct (URL_parse w url None) as [u|].
  - intros [-> ->]%orb_false_iff. by eexists.
  - intros _. by eexists.
Qed.

Lemma getHtml_trace w url : trace (getHtml w url) = [EvFetchPage url].
Proof.
  unfold getHtml, try_catch, throw, settle.
  destruct (page_fetch w url) as [response|[m|t]]; simpl;
    [destruct (negb (ok response)); simpl; [|destruct (text response) as [?|[m|t]]; simpl]| |];
    repeat case_match; done.
Qed.

Lemma history_recordTrace w originalUrl p : history (recordTrace w originalUrl p) = [].
Proof.
  unfold recordTrace. rewrite history_app.
  assert (history (map (fun imgUrl => EvFetchImage imgUrl (referer p originalUrl))
                       (absoluteImageUrls w p originalUrl)) = []) as ->.
  { induction (absoluteImageUrls w p originalUrl); done. }
  by destruct (skipsEnhancement _ _).
Qed.

Lemma history_records w originalUrl (properties : list Draft) :
  history (concat (recordTrace w originalUrl <$> properties)) = [].
Proof.
  induction properties as [|p ps IH]; csimpl; [done|].
  by rewrite history_app, history_recordTrace, IH.
Qed.

(** What [scrapeUrl] does once its input is validated and fetched. *)
Lemma scrapeUrl_fetched w url htmlContent :
  validHttpUrl w url = true →
  outcome (getHtml w url) = Ok htmlContent →
  scrapeUrl w url
  = MkComp ([EvFetchPage url; EvExtract htmlContent]
            ++ concat (recordTrace w url <$> extracted w htmlContent)
            ++ [EvSaveHistory {| h_type := URL_job; h_details := url;
                                 h_propertyCount := length (extracted w htmlContent) |};
                EvRevalidate "/history"])
           (Ok (imap (finalizedRecord w url) (extracted w htmlContent))).
Proof.
  intros Hvalid Hfetch. unfold scrapeUrl.
  rewrite (validateUrl_valid _ _ Hvalid).
  run. rewrite Hfetch. autorewrite with pipeline. run.
  autorewrite with pipeline. run. by rewrite getHtml_trace.
Qed.

(** What [scrapeHtml] does once its input passes the length check. *)
Lemma scrapeHtml_accepted w html originalUrl :
  100 ≤ String.length html →
  scrapeHtml w html originalUrl
  = MkComp ([EvExtract html]
            ++ concat (recordTrace w (default "scraped-from-html" originalUrl)
                         <$> extracted w html)
            ++ [EvSaveHistory {| h_type := HTML_job; h_details := "Pasted HTML content";
                                 h_propertyCount := length (extracted w html) |};
                EvRevalidate "/history"])
           (Ok (imap (finalizedRecord w (default "scraped-from-html" originalUrl))
                     (extracted w html))).
Proof.
  intros Hlen. unfold scrapeHtml.
  assert (negb (Js.truthy html) || (String.length html <? 100) = false) as ->.
  { apply orb_false_iff. split.
    - destruct html; [simpl in Hlen; lia|done].
    - apply Nat.ltb_ge. lia. }
  autorewrite with pipeline. run. by autorewrite with pipeline.
Qed.

(** C8 — A single job that passes validation writes exactly one history
    entry, whose count is the number of finalized records the job returns:
    [scrapeUrl] once the page is fetched, [scrapeHtml] once the length check
    is passed.  When the extractor finds no record the job returns the empty
    list and the entry counts 0. *)
Theorem one_history_entry_per_job w :
  (∀ url htmlContent,
     validHttpUrl w url = true →
     outcome (getHtml w url) = Ok htmlContent →
     ∃ finalProperties,
       outcome (scrapeUrl w url) = Ok finalProperties
       ∧ length finalProperties = length (extracted w htmlContent)
       ∧ history (trace (scrapeUrl w url))
         = [{| h_type := URL_job; h_details := url;
               h_propertyCount := length finalProperties |}]
       ∧ (extracted w htmlContent = [] →
          finalProperties = []
          ∧ history (trace (scrapeUrl w url))
            = [{| h_type := URL_job; h_details := url; h_propertyCount := 0 |}]))
  ∧ (∀ html originalUrl,
       100 ≤ String.length html →
       ∃ finalProperties,
         outcome (scrapeHtml w html originalUrl) = Ok finalProperties
         ∧ length finalProperties = length (extracted w html)
         ∧ history (trace (scrapeHtml w html originalUrl))
           = [{| h_type := HTML_job; h_details := "Pasted HTML content";
                 h_propertyCount := length finalProperties |}]
         ∧ (extracted w html = [] →
            finalProperties = []
            ∧ history (trace (scrapeHtml w html originalUrl))
              = [{| h_type := HTML_job; h_details := "Pasted HTML content";
                    h_propertyCount := 0 |}])).
Proof.
  split.
  - intros url htmlContent Hvalid Hfetch. eexists.
    rewrite (scrapeUrl_fetched _ _ _ Hvalid Hfetch). cbn [outcome trace].
    split; [done|]. rewrite length_imap. split; [done|].
    rewrite (history_app [_; _]), history_app, history_records.
    split; [done|]. by intros ->.
  - intros html originalUrl Hlen. eexists.
    rewrite (scrapeHtml_accepted _ _ _ Hlen). cbn [outcome trace].
    split; [done|]. rewrite length_imap. split; [done|].
    rewrite (history_app [_]), history_app, history_records.
    split; [done|]. by intros ->.
Qed.

(** C9 — An input of [scrapeUrl] that is not a valid absolute URL with the
    [http:] or [https:] protocol is rejected with the validation error before
    anything is fetched; an HTML input of [scrapeHtml] that is empty or
    shorter than 100 characters is rejected before the extractor is called.
    The rejected runs make no external call at all. *)
Theorem invalid_input_is_rejected_first w :
  (∀ url,
     validHttpUrl w url = false →
     ∃ message,
       scrapeUrl w url = MkComp [] (Throw (ErrorObj message))
       ∧ Js.startsWith message "Invalid URL provided: " = true)
  ∧ (∀ html originalUrl,
       String.length html < 100 →
       scrapeHtml w html originalUrl
       = MkComp [] (Throw (ErrorObj "Invalid HTML provided."))).
Proof.
  split.
  - intros url Hinvalid.
    destruct (validateUrl_invalid _ _ Hinvalid) as [reason Hv].
    eexists. unfold scrapeUrl. rewrite Hv. split; [reflexivity|].
    apply prefix_app.
  - intros html originalUrl Hlen. unfold scrapeHtml.
    assert ((String.length html <? 100) = true) as ->; [by apply Nat.ltb_lt|].
    by rewrite orb_true_r.
Qed.

(** ** Pasted HTML without an origin *)

Lemma resolveImageUrl_no_base w p c :
  page_link_absolute p = false →
  resolveImageUrl w p "scraped-from-html" c
  = match c with
    | CStr imgUrl =>
        if Js.truthy imgUrl && is_absolute imgUrl
        then URL.href <$> URL_parse w imgUrl None
        else None
    | COther => None
    end.
Proof.
  intros Hpl. destruct c as [imgUrl|]; [|done].
  unfold resolveImageUrl, baseUrlToUse. rewrite Hpl.
  destruct (Js.truthy imgUrl); [|done]. simpl.
  by destruct (is_absolute imgUrl).
Qed.

Lemma absoluteImageUrls_relative_only w p :
  page_link_absolute p = false →
  Forall isRelative (default [] (d_image_urls p)) →
  absoluteImageUrls w p "scraped-from-html" = [].
Proof.
  intros Hpl Hrel. unfold absoluteImageUrls.
  destruct (d_image_urls p) as [cs|]; [|done]. simpl in Hrel.
  induction Hrel as [|c cs Hc _ IH]; csimpl; [done|].
  rewrite (resolveImageUrl_no_base _ _ _ Hpl), IH.
  destruct c as [imgUrl|]; [|done]. simpl in Hc. rewrite Hc.
  by rewrite andb_false_r.
Qed.

Lemma absoluteImageUrls_no_base w p :
  page_link_absolute p = false →
  absoluteImageUrls w p "scraped-from-html"
  = omap (resolveWithoutBase w) (default [] (d_image_urls p)).
Proof.
  intros Hpl. unfold absoluteImageUrls.
  destruct (d_image_urls p) as [cs|]; [|done]. simpl.
  induction cs as [|c cs IH]; csimpl; [done|].
  by rewrite (resolveImageUrl_no_base _ _ _ Hpl), IH.
Qed.

Lemma filter_fetch_recordTrace w originalUrl p :
  List.filter is_fetch (recordTrace w originalUrl p)
  = (fun imgUrl => EvFetchImage imgUrl (referer p originalUrl))
    <$> absoluteImageUrls w p originalUrl.
Proof.
  unfold recordTrace. rewrite List.filter_app.
  assert (List.filter is_fetch
            (if skipsEnhancement (Js.or_else (d_title p) "")
                                 (Js.or_else (d_description p) "")
             then []
             else [EvEnhance (Js.or_else (d_title p) "")
                             (Js.or_else (d_description p) "")]) = []) as ->.
  { by destruct (skipsEnhancement _ _). }
  rewrite app_nil_r.
  induction (absoluteImageUrls w p originalUrl) as [|u us IH]; csimpl; [done|].
  by rewrite IH.
Qed.

(** C10 — [scrapeHtml] called without an origin works with the origin
    [scraped-from-html], which is not absolute.  For a draft whose page link
    is not absolute either, a candidate is resolved only when it already
    starts with [http://] or [https://]; every other candidate is dropped.
    The resolved list of the record is the list of its absolute candidates
    that parse, in candidate order; exactly these are fetched, each once, and
    the image list of the record holds one entry per such candidate, its
    stored file or its fallback.  A record whose candidates are all relative
    gets the single sentinel placeholder as its image list. *)
Theorem pasted_html_drops_relative_images w html :
  100 ≤ String.length html →
  ∃ finalProperties,
    outcome (scrapeHtml w html None) = Ok finalProperties
    ∧ List.filter is_fetch (trace (scrapeHtml w html None))
      = concat ((fun p => List.filter is_fetch (recordTrace w "scraped-from-html" p))
                <$> extracted w html)
    ∧ ∀ index p,
        extracted w html !! index = Some p →
        page_link_absolute p = false →
        ∃ r,
          finalProperties !! index = Some r
          ∧ original_url r = "scraped-from-html"
          ∧ is_absolute (original_url r) = false
          ∧ (∀ c, resolveImageUrl w p (original_url r) c
                  = match c with
                    | CStr imgUrl =>
                        if Js.truthy imgUrl && is_absolute imgUrl
                        then URL.href <$> URL_parse w imgUrl None
                        else None
                    | COther => None
                    end)
          ∧ (∀ c, isRelative c → resolveImageUrl w p (original_url r) c = None)
          ∧ (let resolved :=
               omap (resolveWithoutBase w) (default [] (d_image_urls p)) in
             absoluteImageUrls w p (original_url r) = resolved
             ∧ List.filter is_fetch (recordTrace w (original_url r) p)
               = (fun imgUrl => EvFetchImage imgUrl (referer p (original_url r)))
                 <$> resolved
             ∧ image_urls r
               = (if 0 <? length resolved
                  then imap (fun imgIndex imgUrl =>
                               processImage w (propertyId w index) imgIndex imgUrl
                                 (image_io w index imgIndex imgUrl
                                    (referer p (original_url r))))
                            resolved
                  else [placeholder]))
          ∧ (Forall isRelative (default [] (d_image_urls p)) →
             absoluteImageUrls w p (original_url r) = []
             ∧ image_urls r = [placeholder]
             ∧ image_url r = Some placeholder).
Proof.
  intros Hlen. eexists. rewrite (scrapeHtml_accepted _ _ _ Hlen).
  cbn [outcome trace default]. split; [done|]. split.
  { rewrite (List.filter_app _ [_]), List.filter_app. cbn [List.filter is_fetch].
    rewrite app_nil_r. simpl.
    induction (extracted w html) as [|p ps IH]; csimpl; [done|].
    by rewrite List.filter_app, IH. }
  intros index p Hp Hpl. eexists. split; [by apply lookup_finalized|].
  unfold finalizedRecord. cbn [original_url image_urls image_url].
  split; [done|]. split; [done|]. split.
  { intros c. by apply resolveImageUrl_no_base. }
  split.
  { intros c Hc. rewrite (resolveImageUrl_no_base _ _ _ Hpl).
    destruct c as [imgUrl|]; [|done]. simpl in Hc. rewrite Hc.
    by rewrite andb_false_r. }
  split.
  - cbv zeta. split; [by apply absoluteImageUrls_no_base|].
    split.
    + by rewrite filter_fetch_recordTrace, (absoluteImageUrls_no_base _ _ Hpl).
    + rewrite finalImageUrls_eq. unfold imageProcessingPromises.
      by rewrite (absoluteImageUrls_no_base _ _ Hpl).
  - intros Hrel. rewrite finalImageUrls_eq.
    by rewrite (absoluteImageUrls_relative_only _ _ Hpl Hrel).
Qed.

(** * The scenarios of the specification, run *)

(** The string methods on the bulk input. *)
Example split_keeps_blank_lines :
  Js.split "010" Scenario.blank_line = ["http://a.test"; ""; "http://b.test"].
Proof. reflexivity. Qed.

Example trim_both_ends : Js.trim "  http://a.test  " = "http://a.test".
Proof. reflexivity. Qed.

Example extension_from_content_type :
  extensionOfContentType "image/svg+xml" = "svg"
  ∧ extensionOfContentType "image/JPEG" = "jpg"
  ∧ extensionOfContentType "image/png; charset=binary" = "jpg".
Proof. repeat split; reflexivity. Qed.

Example extension_from_url :
  extensionOfUrl (Scenario.world [] []) "https://img.test/photos/a.large.webp?w=3"
  = Ok "webp".
Proof. reflexivity. Qed.

(** The reference parser on the inputs of the scenarios. *)
Example parse_relative_reference :
  URL.href <$> URL.parse "imgs/a.jpg" (Some "https://x.com/listing/5")
  = Some "https://x.com/listing/imgs/a.jpg".
Proof. reflexivity. Qed.

Example parse_adds_root_path :
  URL.href <$> URL.parse "https://x.com" None = Some "https://x.com/".
Proof. reflexivity. Qed.

Example parse_rejects_empty_host : URL.parse "http://" None = None.
Proof. reflexivity. Qed.

Example parse_rejects_origin_marker : URL.parse "scraped-from-html" None = None.
Proof. reflexivity. Qed.

Example parse_dot_segments :
  URL.href <$> URL.parse "../../z.png?k" (Some "http://h.io/a/b/c/d")
  = Some "http://h.io/a/z.png?k".
Proof. reflexivity. Qed.

(** Scenario A: two records with three candidates each, one 404 per record;
    each record keeps three entries, in candidate order. *)
Example scenario_A :
  image_urls <$>
    default [] (fulfilled (outcome
      (scrapeUrl (Scenario.world [Scenario.villa; Scenario.flat] [])
                 "https://x.com/search")))
  = [ ["/uploads/properties/prop-1700000000000-0/1000_0.png";
       "https://img.test/b.jpg";
       "/uploads/properties/prop-1700000000000-0/1002_2.png"];
      ["/uploads/properties/prop-1700000000000-1/1000_0.png";
       "https://x.com/b.jpg";
       "/uploads/properties/prop-1700000000000-1/1002_2.png"] ].
Proof. vm_compute. reflexivity. Qed.

(** Scenario B: the blank line is ignored, two jobs are attempted. *)
Example scenario_B :
  urlList Scenario.blank_line = ["http://a.test"; "http://b.test"]
  ∧ List.filter is_fetch
      (trace (scrapeBulk (fun _ => Scenario.world [] []) Scenario.blank_line))
    = [EvFetchPage "http://a.test"; EvFetchPage "http://b.test"].
Proof. split; vm_compute; reflexivity. Qed.

(** Scenario C: fifty characters of HTML are rejected before extraction. *)
Example scenario_C :
  String.length Scenario.html50 = 50
  ∧ scrapeHtml (Scenario.world [Scenario.villa] []) Scenario.html50 None
    = MkComp [] (Throw (ErrorObj "Invalid HTML provided.")).
Proof. split; vm_compute; reflexivity. Qed.

(** Scenario D: no record extracted, the job returns the empty list and one
    history entry with count 0. *)
Example scenario_D :
  let job := scrapeHtml (Scenario.world [] []) Scenario.html140 None in
  outcome job = Ok []
  ∧ history (trace job)
    = [{| h_type := HTML_job; h_details := "Pasted HTML content";
          h_propertyCount := 0 |}].
Proof. split; vm_compute; reflexivity. Qed.

(** Property P4: three URLs, the second cannot be fetched. *)
Example bulk_isolation :
  let result :=
    scrapeBulk (fun _ => Scenario.world [Scenario.villa] ["http://b.test"])
               Scenario.three_urls in
  (original_url <$> default [] (properties <$> fulfilled (outcome result)))
  = ["http://a.test"; "http://c.test"]
  ∧ default [] (errors <$> fulfilled (outcome result))
    = [{| url := "http://b.test";
          error := "Could not retrieve content from http://b.test. Reason: fetch failed" |}].
Proof. split; vm_compute; reflexivity. Qed.

(** The earlier revision of the image task rejects a response without a
    content type, which the current one stores. *)
Example legacy_rejects_missing_content_type :
  let response := {| status := 200; statusText := "OK"; content_type := None;
                     text := Ok ""; arrayBuffer := Ok 2048 |} in
  Legacy.fetchAndPersist "prop-1-0" 0 (Scenario.stored response 1000)
  = Throw (ErrorObj "Invalid content-type: null. Expected an image.")
  ∧ fetchAndPersist (Scenario.world [] []) "prop-1-0" 0 "https://img.test/a.jpg"
      (Scenario.stored response 1000)
    = Ok "/uploads/properties/prop-1-0/1000_0.jpg".
Proof. split; vm_compute; reflexivity. Qed.

(** * The theorems at concrete inputs *)

(** The 404 of scenario A falls back to the resolved URL. *)
Lemma failed_image_falls_back_scenario_A :
  ∃ finalProperties r,
    outcome (processScrapedData (Scenario.world [Scenario.villa; Scenario.flat] [])
               [Scenario.villa; Scenario.flat] "https://x.com/search"
               URL_job "https://x.com/search")
    = Ok finalProperties
    ∧ finalProperties !! 0 = Some r
    ∧ image_urls r !! 1 = Some "https://img.test/b.jpg".
Proof.
  apply (failed_image_falls_back
           (Scenario.world [Scenario.villa; Scenario.flat] [])
           [Scenario.villa; Scenario.flat] "https://x.com/search"
           URL_job "https://x.com/search" 0 Scenario.villa 1
           "https://img.test/b.jpg"
           (ErrorObj "Fetch failed for https://img.test/b.jpg with status 404 Not Found")).
  - reflexivity.
  - vm_compute. reflexivity.
  - vm_compute. reflexivity.
Defined.

(** The second record of scenario A keeps its three entries in candidate
    order, under every settling order. *)
Lemma image_order_scenario_A :
  let w := Scenario.world [Scenario.villa; Scenario.flat] [] in
  ∃ finalProperties r,
    outcome (processScrapedData w [Scenario.villa; Scenario.flat]
               "https://x.com/search" URL_job "https://x.com/search")
    = Ok finalProperties
    ∧ finalProperties !! 1 = Some r
    ∧ absoluteImageUrls w Scenario.flat "https://x.com/search"
      = ["https://x.com/img/a.jpg"; "https://x.com/b.jpg"; "https://img.test/c.jpg"]
    ∧ image_urls r
      = ["/uploads/properties/prop-1700000000000-1/1000_0.png";
         "https://x.com/b.jpg";
         "/uploads/properties/prop-1700000000000-1/1002_2.png"]
    ∧ (∀ imageOrder recordOrder,
         outcome (processScrapedData (reschedule w imageOrder recordOrder)
                    [Scenario.villa; Scenario.flat]
                    "https://x.com/search" URL_job "https://x.com/search")
         = Ok finalProperties).
Proof.
  intros w.
  destruct (image_order_is_discovery_order w [Scenario.villa; Scenario.flat]
              "https://x.com/search" URL_job "https://x.com/search" 1 Scenario.flat)
    as (rs & r & Hrs & Hr & _ & _ & Horder); [reflexivity|vm_compute; lia|].
  exists rs, r. split; [exact Hrs|]. split; [exact Hr|].
  split; [vm_compute; reflexivity|]. split; [|exact Horder].
  assert (Some r = Some (finalizedRecord w "https://x.com/search" 1 Scenario.flat)) as Heq.
  { rewrite <-Hr. rewrite processScrapedData_eq in Hrs. cbn [outcome] in Hrs.
    injection Hrs as <-. reflexivity. }
  injection Heq as ->. vm_compute. reflexivity.
Defined.

(** An absolute candidate is not kept as it is written: the parser adds the
    root path to [https://x.com], and rejects [http://]. *)
Lemma absolute_candidate_is_reserialized :
  let w := Scenario.world [] [] in
  is_absolute "https://x.com" = true
  ∧ resolveImageUrl w Scenario.villa "https://x.com/search" (CStr "https://x.com")
    = Some "https://x.com/"
  ∧ String.eqb "https://x.com/" "https://x.com" = false
  ∧ is_absolute "http://" = true
  ∧ resolveImageUrl w Scenario.villa "https://x.com/search" (CStr "http://") = None.
Proof. repeat split; vm_compute; reflexivity. Qed.


(** A draft without a title is not sent to the service; a service that
    throws leaves title and description as they were. *)
Lemma enhancement_falls_back_untitled :
  (let w := Scenario.world [Scenario.untitled] [] in
   ∃ r,
     outcome (processProperty w "https://x.com/search" 0 Scenario.untitled) = Ok r
     ∧ List.filter is_enhance
         (trace (processProperty w "https://x.com/search" 0 Scenario.untitled)) = []
     ∧ title r = "" ∧ description r = "Sea view")
  ∧ (let w := Scenario.out_of_service [Scenario.villa] in
     ∃ r,
       outcome (processProperty w "https://x.com/search" 0 Scenario.villa) = Ok r
       ∧ title r = "Villa" ∧ description r = "Sea view").
Proof.
  split.
  - destruct (enhancement_falls_back (Scenario.world [Scenario.untitled] [])
                "https://x.com/search" 0 Scenario.untitled)
      as (r & Hr & Hskip & _).
    exists r. split; [exact Hr|]. apply Hskip. left. reflexivity.
  - destruct (enhancement_falls_back (Scenario.out_of_service [Scenario.villa])
                "https://x.com/search" 0 Scenario.villa)
      as (r & Hr & _ & Hthrow & _).
    exists r. split; [exact Hr|].
    apply (Hthrow (ErrorObj "503 Service Unavailable")). reflexivity.
Defined.

(** Scenario D through [scrapeUrl] and through [scrapeHtml]. *)
Lemma one_history_entry_scenario_D :
  let w := Scenario.world [] [] in
  (∃ finalProperties,
     outcome (scrapeUrl w "https://x.com/search") = Ok finalProperties
     ∧ finalProperties = []
     ∧ history (trace (scrapeUrl w "https://x.com/search"))
       = [{| h_type := URL_job; h_details := "https://x.com/search";
             h_propertyCount := 0 |}])
  ∧ (∃ finalProperties,
       outcome (scrapeHtml w Scenario.html140 None) = Ok finalProperties
       ∧ finalProperties = []
       ∧ history (trace (scrapeHtml w Scenario.html140 None))
         = [{| h_type := HTML_job; h_details := "Pasted HTML content";
               h_propertyCount := 0 |}]).
Proof.
  intros w. destruct (one_history_entry_per_job w) as [Hurl Hhtml]. split.
  - destruct (Hurl "https://x.com/search" "<html><body>listing</body></html>")
      as (rs & Hrs & _ & _ & Hzero); [reflexivity|reflexivity|].
    exists rs. split; [exact Hrs|]. apply Hzero. reflexivity.
  - destruct (Hhtml Scenario.html140 None) as (rs & Hrs & _ & _ & Hzero).
    { vm_compute. lia. }
    exists rs. split; [exact Hrs|]. apply Hzero. reflexivity.
Defined.

(** Scenario C, and a URL whose protocol is not [http:] or [https:]. *)
Lemma invalid_input_scenario_C :
  let w := Scenario.world [Scenario.villa] [] in
  (∃ message,
     scrapeUrl w "mailto:agent@x.com" = MkComp [] (Throw (ErrorObj message))
     ∧ Js.startsWith message "Invalid URL provided: " = true)
  ∧ scrapeHtml w Scenario.html50 None
    = MkComp [] (Throw (ErrorObj "Invalid HTML provided.")).
Proof.
  intros w. destruct (invalid_input_is_rejected_first w) as [Hurl Hhtml]. split.
  - apply Hurl. reflexivity.
  - apply Hhtml. vm_compute. lia.
Defined.

(** Pasted HTML with two records without an absolute page link: the
    candidates of the first are all relative; the second has two relative
    candidates and an absolute one, which alone is fetched and stored. *)
Lemma pasted_html_relative_only :
  let w := Scenario.world [Scenario.relative_only; Scenario.flat] [] in
  ∃ finalProperties r mixed,
    outcome (scrapeHtml w Scenario.html140 None) = Ok finalProperties
    ∧ finalProperties !! 0 = Some r
    ∧ original_url r = "scraped-from-html"
    ∧ absoluteImageUrls w Scenario.relative_only (original_url r) = []
    ∧ image_urls r = [placeholder]
    ∧ image_url r = Some placeholder
    ∧ finalProperties !! 1 = Some mixed
    ∧ d_image_urls Scenario.flat
      = Some [CStr "/img/a.jpg"; CStr "b.jpg"; CStr "https://img.test/c.jpg"]
    ∧ absoluteImageUrls w Scenario.flat (original_url mixed)
      = ["https://img.test/c.jpg"]
    ∧ image_urls mixed = ["/uploads/properties/prop-1700000000000-1/1000_0.png"]
    ∧ List.filter is_fetch (trace (scrapeHtml w Scenario.html140 None))
      = [EvFetchImage "https://img.test/c.jpg" ""].
Proof.
  intros w.
  destruct (pasted_html_drops_relative_images w Scenario.html140)
    as (rs & Hrs & Hfetched & Hrec); [vm_compute; lia|].
  destruct (Hrec 0 Scenario.relative_only)
    as (r & Hr & Ho & _ & _ & _ & _ & Himg); [reflexivity|reflexivity|].
  destruct Himg as (Hnone & Hurls & Hurl).
  { repeat constructor. }
  destruct (Hrec 1 Scenario.flat)
    as (mixed & Hmixed & Ho' & _ & _ & _ & Hlist & _); [reflexivity|reflexivity|].
  destruct Hlist as (Hresolved & _ & Himages).
  exists rs, r, mixed.
  split; [exact Hrs|]. split; [exact Hr|]. split; [exact Ho|].
  split; [exact Hnone|]. split; [exact Hurls|]. split; [exact Hurl|].
  split; [exact Hmixed|]. split; [reflexivity|].
  split; [rewrite Hresolved; vm_compute; reflexivity|].
  split; [rewrite Himages; vm_compute; reflexivity|].
  rewrite Hfetched. vm_compute. reflexivity.
Defined.

(** A record without candidates gets the placeholder, and only it. *)
Lemma image_urls_never_empty_untitled :
  let w := Scenario.world [Scenario.untitled] [] in
  ∃ finalProperties r,
    outcome (processScrapedData w [Scenario.untitled] "https://x.com/search"
               URL_job "https://x.com/search") = Ok finalProperties
    ∧ finalProperties !! 0 = Some r
    ∧ image_urls r = [placeholder]
    ∧ image_url r = Some placeholder.
Proof.
  intros w.
  destruct (image_urls_never_empty w [Scenario.untitled] "https://x.com/search"
              URL_job "https://x.com/search")
    as (rs & Hrs & _ & _ & Hrec).
  destruct (Hrec 0 Scenario.untitled eq_refl) as (r & Hr & Hnone).
  destruct Hnone as [Hurls Hurl]; [reflexivity|].
  exists rs, r. repeat split; assumption.
Defined.

(** Property P5 with the reference parser. *)
Lemma image_candidate_resolution_P5 :
  resolveImageUrl (Scenario.world [] []) Scenario.villa "https://x.com/search"
    (CStr "imgs/a.jpg")
  = Some "https://x.com/listing/imgs/a.jpg".
Proof.
  destruct (image_candidate_resolution (Scenario.world [] []) Scenario.villa
              "https://x.com/search") as (_ & _ & _ & HP5 & _).
  apply HP5; reflexivity.
Defined.


(** * Further properties *)

Lemma Ok_inj {A} (a b : A) : Ok a = Ok b → a = b.
Proof. by intros [= ->]. Qed.

(** ** Strings *)

Lemma append_cons c s t : String c s +:+ t = String c (s +:+ t).
Proof. reflexivity. Qed.

Lemma append_assoc s t u : (s +:+ t) +:+ u = s +:+ (t +:+ u).
Proof. induction s as [|c s IH]; [done|]. by rewrite !append_cons, IH. Qed.

Lemma append_nil_r s : s +:+ "" = s.
Proof. induction s as [|c s IH]; [done|]. by rewrite append_cons, IH. Qed.

Lemma rev_app_spec s : ∀ acc, String.rev_app s acc = String.rev s +:+ acc.
Proof.
  unfold String.rev. induction s as [|c s IH]; intros acc; simpl; [done|].
  rewrite (IH (String c acc)), (IH (String c "")). by rewrite append_assoc.
Qed.

Lemma rev_cons c s : String.rev (String c s) = String.rev s +:+ String c "".
Proof. unfold String.rev at 1. simpl. apply rev_app_spec. Qed.

Lemma rev_snoc s c : String.rev (s +:+ String c "") = String c (String.rev s).
Proof.
  induction s as [|d s IH]; [done|].
  by rewrite append_cons, !rev_cons, IH.
Qed.

Lemma rev_involutive s : String.rev (String.rev s) = s.
Proof. induction s as [|c s IH]; [done|]. by rewrite rev_cons, rev_snoc, IH. Qed.

Lemma all_chars_app p s t :
  Js.all_chars p (s +:+ t) = Js.all_chars p s && Js.all_chars p t.
Proof.
  induction s as [|c s IH]; [done|].
  rewrite append_cons. simpl. by rewrite IH, andb_assoc.
Qed.

Lemma all_chars_rev p s : Js.all_chars p (String.rev s) = Js.all_chars p s.
Proof.
  induction s as [|c s IH]; [done|].
  rewrite rev_cons, all_chars_app, IH. simpl.
  rewrite andb_true_r. apply andb_comm.
Qed.

(** ** [trim] *)

Lemma trimStart_blank s :
  Js.all_chars Js.is_white_space s = true → Js.trimStart s = "".
Proof.
  induction s as [|c s IH]; simpl; [done|].
  intros [Hc Hs]%andb_true_iff. rewrite Hc. auto.
Qed.

Lemma trim_blank s : Js.all_chars Js.is_white_space s = true → Js.trim s = "".
Proof. intros H. unfold Js.trim. by rewrite trimStart_blank. Qed.

Lemma length_trimStart s : String.length (Js.trimStart s) ≤ String.length s.
Proof.
  induction s as [|c s IH]; simpl; [done|].
  destruct (Js.is_white_space c); simpl; lia.
Qed.

Lemma trimStart_idemp s : Js.trimStart (Js.trimStart s) = Js.trimStart s.
Proof.
  induction s as [|c s IH]; simpl; [done|].
  destruct (Js.is_white_space c) eqn:Hc; [done|]. simpl. by rewrite Hc.
Qed.

Lemma trimStart_snoc s c :
  Js.is_white_space c = false →
  ∃ l, Js.trimStart (s +:+ String c "") = l +:+ String c "".
Proof.
  intros Hc. induction s as [|d s [l IH]].
  - exists "". simpl. by rewrite Hc.
  - rewrite append_cons. simpl.
    destruct (Js.is_white_space d); [by exists l|]. by exists (String d s).
Qed.

Lemma trimEnd_keeps_start t :
  Js.trimStart t = t → Js.trimStart (Js.trimEnd t) = Js.trimEnd t.
Proof.
  destruct t as [|c t]; [done|]. simpl.
  destruct (Js.is_white_space c) eqn:Hc.
  { intros H. pose proof (length_trimStart t) as Hlen.
    rewrite H in Hlen. simpl in Hlen. lia. }
  intros _. unfold Js.trimEnd. rewrite rev_cons.
  destruct (trimStart_snoc (String.rev t) c Hc) as [l ->].
  rewrite rev_snoc. simpl. by rewrite Hc.
Qed.

Lemma trimEnd_idemp t : Js.trimEnd (Js.trimEnd t) = Js.trimEnd t.
Proof. unfold Js.trimEnd. by rewrite rev_involutive, trimStart_idemp. Qed.

Lemma trim_idemp s : Js.trim (Js.trim s) = Js.trim s.
Proof.
  unfold Js.trim.
  rewrite (trimEnd_keeps_start (Js.trimStart s)) by apply trimStart_idemp.
  apply trimEnd_idemp.
Qed.

Lemma split_go_all p sep s : ∀ cur,
  Js.all_chars p s = true → Js.all_chars p cur = true →
  Forall (fun line => Js.all_chars p line = true) (Js.split_go sep s cur).
Proof.
  induction s as [|c s IH]; intros cur Hs Hcur; simpl.
  - constructor; [|done]. by rewrite all_chars_rev.
  - simpl in Hs. apply andb_true_iff in Hs as [Hc Hs].
    destruct (Ascii.eqb c sep).
    + constructor; [by rewrite all_chars_rev|]. by apply IH.
    + apply IH; [done|]. simpl. by rewrite Hc.
Qed.

Lemma urlList_blank urls :
  Js.all_chars Js.is_white_space urls = true → urlList urls = [].
Proof.
  intros H. unfold urlList, Js.split.
  pose proof (split_go_all _ "010" urls "" H eq_refl) as Hall.
  induction Hall as [|line lines Hline _ IH]; simpl; [done|].
  by rewrite (trim_blank _ Hline).
Qed.

Lemma urlList_trimmed urls :
  Forall (fun url => Js.truthy url = true ∧ Js.trim url = url) (urlList urls).
Proof.
  unfold urlList. induction (Js.split "010" urls) as [|line lines IH]; simpl; [done|].
  destruct (Js.truthy (Js.trim line)) eqn:Hline; [|done].
  constructor; [|done]. split; [done|]. apply trim_idemp.
Qed.

(** ** Fetching a page *)

(** X1 — [getHtml] makes exactly one fetch and never retries.  It returns the
    body exactly when the server answers with a 2xx status and the body can
    be read.  Whatever it throws is an [Error] whose message starts with
    [Failed to fetch URL], or with [Could not retrieve content from], the URL
    and [. Reason: ]; a non-2xx answer gives the first kind, with the status
    code and text. *)
Theorem getHtml_settles w url :
  trace (getHtml w url) = [EvFetchPage url]
  ∧ (∀ htmlContent,
       outcome (getHtml w url) = Ok htmlContent
       ↔ ∃ response, page_fetch w url = Responds response
                     ∧ ok response = true ∧ text response = Ok htmlContent)
  ∧ (∀ e, outcome (getHtml w url) = Throw e →
       ∃ message,
         e = ErrorObj message
         ∧ (Js.startsWith message "Failed to fetch URL" = true
            ∨ Js.startsWith message
                ("Could not retrieve content from " +:+ url +:+ ". Reason: ") = true))
  ∧ (∀ response,
       page_fetch w url = Responds response → ok response = false →
       outcome (getHtml w url)
       = Throw (ErrorObj ("Failed to fetch URL " +:+ url +:+ ": HTTP "
                          +:+ Js.of_nat (status response) +:+ " "
                          +:+ statusText response +:+ "."))).
Proof.
  assert (∀ reason,
            Js.startsWith ("Could not retrieve content from " +:+ url
                           +:+ ". Reason: " +:+ reason)
              ("Could not retrieve content from " +:+ url +:+ ". Reason: ") = true)
    as Hwrapped.
  { intros reason. unfold Js.startsWith.
    replace ("Could not retrieve content from " +:+ url +:+ ". Reason: " +:+ reason)
      with (("Could not retrieve content from " +:+ url +:+ ". Reason: ") +:+ reason)
      by (by rewrite !append_assoc).
    apply prefix_app. }
  assert (∀ rest, Js.startsWith ("Failed to fetch URL " +:+ rest)
                    "Failed to fetch URL" = true) as Hfailed by done.
  split; [apply getHtml_trace|].
  unfold getHtml, try_catch, throw, settle, emit. run.
  destruct (page_fetch w url) as [response|error] eqn:Hfetch; cbn [outcome trace].
  - destruct (ok response) eqn:Hok; cbn [negb outcome trace].
    + destruct (text response) as [body|error] eqn:Htext; cbn [outcome trace].
      * split; [|split; [done|]].
        -- intros htmlContent. split.
           ++ intros [= <-]. by exists response.
           ++ intros (r & [= <-] & _ & Hr). congruence.
        -- intros r [= <-] ?. congruence.
      * split; [|split]. 
        -- intros htmlContent. split.
           ++ destruct error as [message|text0]; [|done].
              by destruct (Js.startsWith message "Failed to fetch URL").
           ++ intros (r & [= <-] & _ & Hr). congruence.
        -- intros e He. destruct error as [message|text0].
           ++ destruct (Js.startsWith message "Failed to fetch URL") eqn:Hm;
                injection He as <-; eauto.
           ++ injection He as <-; eauto.
        -- intros r [= <-] ?. congruence.
    + rewrite Hfailed. cbn [outcome trace]. split; [|split].
      * intros htmlContent. split; [done|].
        intros (r & [= <-] & Hr & _). congruence.
      * intros e [= <-]. eauto.
      * by intros r [= <-] _.
  - split; [|split; [|done]].
    + intros htmlContent. split.
      * destruct error as [message|text0]; [|done].
        by destruct (Js.startsWith message "Failed to fetch URL").
      * by intros (r & ? & _).
    + intros e He. destruct error as [message|text0].
      * destruct (Js.startsWith message "Failed to fetch URL") eqn:Hm;
          injection He as <-; eauto.
      * injection He as <-; eauto.
Qed.

(** ** The jobs of the bulk loop *)

(** What the job of one URL does, by the fate of its page. *)
Lemma bulkJob_eq w url :
  bulkJob w url
  = match outcome (getHtml w url) with
    | Throw e => MkComp [EvFetchPage url] (Throw e)
    | Ok htmlContent =>
        match extracted w htmlContent with
        | [] => MkComp [EvFetchPage url; EvExtract htmlContent] (Ok [])
        | p :: ps =>
            MkComp ([EvFetchPage url; EvExtract htmlContent]
                    ++ concat (recordTrace w url <$> p :: ps)
                    ++ [EvSaveHistory
                          {| h_type := BULK_job;
                             h_details := "Bulk operation included: " +:+ url;
                             h_propertyCount := length (p :: ps) |};
                        EvRevalidate "/history"])
                   (Ok (imap (finalizedRecord w url) (p :: ps)))
        end
    end.
Proof.
  unfold bulkJob.
  destruct (outcome (getHtml w url)) as [htmlContent|e] eqn:Hfetch.
  - rewrite (bind_ok _ _ _ Hfetch), getHtml_trace.
    autorewrite with pipeline. run.
    destruct (extracted w htmlContent) as [|p ps]; [done|].
    by autorewrite with pipeline.
  - by rewrite (bind_throw _ _ _ Hfetch), getHtml_trace.
Qed.

Lemma bulkJob_outcome w url :
  outcome (bulkJob w url)
  = match outcome (getHtml w url) with
    | Ok _ => Ok (pageRecords w url)
    | Throw e => Throw e
    end.
Proof.
  rewrite bulkJob_eq. unfold pageRecords.
  destruct (outcome (getHtml w url)) as [htmlContent|e]; [|done].
  by destruct (extracted w htmlContent).
Qed.

Lemma omap_fetchedPage_records w url (ps : list Draft) :
  omap fetchedPage (concat (recordTrace w url <$> ps)) = [].
Proof.
  induction ps as [|p ps IH]; csimpl; [done|].
  rewrite omap_app, IH, app_nil_r. unfold recordTrace. rewrite omap_app.
  assert (omap fetchedPage
            (map (fun imgUrl => EvFetchImage imgUrl (referer p url))
                 (absoluteImageUrls w p url)) = []) as ->.
  { induction (absoluteImageUrls w p url); done. }
  by destruct (skipsEnhancement _ _).
Qed.

Lemma bulkJob_fetches w url : omap fetchedPage (trace (bulkJob w url)) = [url].
Proof.
  rewrite bulkJob_eq.
  destruct (outcome (getHtml w url)) as [htmlContent|e]; [|done].
  destruct (extracted w htmlContent) as [|p ps]; [done|].
  cbn [trace]. rewrite (omap_app _ [_; _]), omap_app, omap_fetchedPage_records.
  done.
Qed.

Lemma bulkJob_history w url :
  history (trace (bulkJob w url)) = option_list (pageEntry w url).
Proof.
  rewrite bulkJob_eq. unfold pageEntry.
  destruct (outcome (getHtml w url)) as [htmlContent|e]; [|done].
  destruct (extracted w htmlContent) as [|p ps]; [done|].
  cbn [trace]. rewrite (history_app [_; _]), history_app, history_records.
  done.
Qed.

(** The jobs of a list of URLs, by position. *)
Lemma jobOutcomes_imap job urlList : ∀ k,
  jobOutcomes job k urlList
  = imap (fun i url => (url, outcome (job (k + i) url))) urlList.
Proof.
  induction urlList as [|url urlList IH]; intros k; simpl; [done|].
  rewrite Nat.add_0_r. f_equal. rewrite IH.
  apply imap_ext. intros i x _. simpl. do 3 f_equal. lia.
Qed.

Lemma jobTraces_omap {A} (f : Event → option A) (g : nat → string → list A) job :
  (∀ k url, omap f (trace (job k url)) = g k url) →
  ∀ urlList k,
    omap f (jobTraces job k urlList)
    = concat (imap (fun i url => g (k + i) url) urlList).
Proof.
  intros Hjob urls. induction urls as [|url urls IH]; intros k; simpl; [done|].
  rewrite omap_app, Hjob, Nat.add_0_r. f_equal. rewrite IH. f_equal.
  apply imap_ext. intros i x _. simpl. f_equal. lia.
Qed.

Lemma concat_singletons {A} (l : list A) : concat (imap (fun _ x => [x]) l) = l.
Proof.
  assert (∀ (f : nat → A → list A), (∀ i x, f i x = [x]) → concat (imap f l) = l) as H.
  { induction l as [|x l IH]; intros f Hf; simpl; [done|].
    rewrite Hf. simpl. f_equal. apply IH. intros i y. apply Hf. }
  by apply H.
Qed.

Lemma concat_option_list {A B} (f : nat → A → option B) (l : list A) :
  concat (imap (fun i x => option_list (f i x)) l) = omap (fun v => v) (imap f l).
Proof.
  revert f. induction l as [|x l IH]; intros f; csimpl; [done|].
  change (imap ((fun i x0 => option_list (f i x0)) ∘ S) l)
    with (imap (fun i x0 => option_list ((f ∘ S) i x0)) l).
  rewrite IH. by destruct (f 0 x).
Qed.

(** X2 — A bulk input that holds nothing but white space and line breaks
    (the empty input included) is rejected with [No valid URLs found in bulk
    input.] before any call is made. *)
Theorem scrapeBulk_rejects_blank_input ws urls :
  Js.all_chars Js.is_white_space urls = true →
  scrapeBulk ws urls
  = MkComp [] (Throw (ErrorObj "No valid URLs found in bulk input.")).
Proof. intros Hblank. unfold scrapeBulk. by rewrite (urlList_blank _ Hblank). Qed.

(** X3 — The pages [scrapeBulk] fetches are exactly the lines of its input
    that are not blank, trimmed, each fetched once and in input order,
    whatever happens to the jobs before; no fetched URL is empty or carries
    surrounding white space. *)
Theorem scrapeBulk_fetches_each_line_once ws urls :
  omap fetchedPage (trace (scrapeBulk ws urls)) = urlList urls
  ∧ Forall (fun url => Js.truthy url = true ∧ Js.trim url = url) (urlList urls).
Proof.
  split; [|apply urlList_trimmed].
  unfold scrapeBulk.
  destruct (length (urlList urls) =? 0) eqn:Hlen.
  { apply Nat.eqb_eq, nil_length_inv in Hlen. by rewrite Hlen. }
  rewrite bulkLoop_eq. cbn [trace].
  rewrite (jobTraces_omap fetchedPage (fun _ url => [url])).
  - apply concat_singletons.
  - intros k url. apply bulkJob_fetches.
Qed.

(** The outcomes of the jobs, read off the pages. *)
Lemma bulkOutcomes_by_page (ws : nat → World) (urlList : list string) :
  pushedRecords (bulkOutcomes ws urlList)
  = concat (imap (fun k => pageRecords (ws k)) urlList)
  ∧ capturedErrors (bulkOutcomes ws urlList)
    = omap (fun v => v) (imap (fun k => pageError (ws k)) urlList).
Proof.
  unfold bulkOutcomes. rewrite jobOutcomes_imap. simpl.
  unfold pushedRecords, capturedErrors. revert ws.
  induction urlList as [|url urlList IH]; intros ws; csimpl; [done|].
  destruct (IH (ws ∘ S)) as [IH1 IH2].
  rewrite bulkJob_outcome. unfold pageError, pageRecords in *.
  destruct (outcome (getHtml (ws 0) url)) as [htmlContent|e]; csimpl.
  - split; [f_equal; exact IH1|exact IH2].
  - split; [exact IH1|f_equal; exact IH2].
Qed.

Lemma scrapeBulk_outcome ws urls :
  0 < length (urlList urls) →
  outcome (scrapeBulk ws urls)
  = Ok {| properties := pushedRecords (bulkOutcomes ws (urlList urls));
          errors := capturedErrors (bulkOutcomes ws (urlList urls)) |}.
Proof.
  intros Hlen. unfold scrapeBulk.
  destruct (length (urlList urls) =? 0) eqn:H0; [apply Nat.eqb_eq in H0; lia|].
  by rewrite bulkLoop_eq.
Qed.

(** What the job of position [k] is. *)
Lemma bulkOutcomes_lookup (ws : nat → World) (urls : list string) k url :
  urls !! k = Some url →
  bulkOutcomes ws urls !! k = Some (url, outcome (bulkJob (ws k) url)).
Proof.
  intros Hk. unfold bulkOutcomes.
  by rewrite jobOutcomes_imap, list_lookup_imap, Hk.
Qed.

(** C1 (as amended) — For a URL list with at least one non-blank line,
    [scrapeBulk] returns (it does not throw) and every job is run.  The job of
    a URL fails exactly when its page cannot be fetched: it then adds one
    [{url, error}] entry with the message of that failure and the loop goes
    on.  A failure of the extraction is absorbed: the job returns without
    records and adds no error entry, and so does no failure of an image or
    of the enhancement.  The records of the jobs that return are all
    accumulated, and when every job fails the record list is empty and the
    error list has one entry per URL. *)
Theorem scrapeBulk_isolates_failures ws urls :
  0 < length (urlList urls) →
  let jobs := bulkOutcomes ws (urlList urls) in
  outcome (scrapeBulk ws urls)
  = Ok {| properties := pushedRecords jobs; errors := capturedErrors jobs |}
  ∧ trace (scrapeBulk ws urls) = bulkTrace ws (urlList urls)
  ∧ (∀ k url,
       urlList urls !! k = Some url →
       ∃ job,
         jobs !! k = Some (url, job)
         ∧ failed (url, job) = negb (is_ok (outcome (getHtml (ws k) url)))
         ∧ (∀ e, outcome (getHtml (ws k) url) = Throw e → job = Throw e)
         ∧ (∀ htmlContent,
              outcome (getHtml (ws k) url) = Ok htmlContent →
              job = Ok (imap (finalizedRecord (ws k) url)
                             (extracted (ws k) htmlContent))
              ∧ (is_ok (extract_prompt (ws k) htmlContent) = false →
                 job = Ok [])))
  ∧ capturedErrors jobs
    = omap (fun v => v) (imap (fun k => pageError (ws k)) (urlList urls))
  ∧ pushedRecords jobs
    = concat (imap (fun k => pageRecords (ws k)) (urlList urls))
  ∧ length (capturedErrors jobs) = length (List.filter failed jobs)
  ∧ (Forall (fun job => failed job = true) jobs →
     pushedRecords jobs = []
     ∧ 0 < length (capturedErrors jobs)
     ∧ length (capturedErrors jobs) = length (urlList urls)).
Proof.
  intros Hlen jobs.
  destruct (bulkOutcomes_by_page ws (urlList urls)) as [Hrecords Herrors].
  split; [by apply scrapeBulk_outcome|]. split.
  { unfold scrapeBulk.
    destruct (length (urlList urls) =? 0) eqn:H0; [apply Nat.eqb_eq in H0; lia|].
    by rewrite bulkLoop_eq. }
  split.
  { intros k url Hk. exists (outcome (bulkJob (ws k) url)).
    split; [by apply bulkOutcomes_lookup|].
    rewrite bulkJob_outcome. unfold failed, pageRecords. cbn [snd].
    destruct (outcome (getHtml (ws k) url)) as [htmlContent|e] eqn:Hfetch.
    - split; [done|]. split; [done|]. intros ? [= <-]. split; [done|].
      intros Hprompt. unfold extracted.
      by destruct (extract_prompt (ws k) htmlContent).
    - split; [done|]. split; [by intros ? [= <-]|done]. }
  split; [exact Herrors|]. split; [exact Hrecords|]. split.
  - clear. unfold capturedErrors, failed.
    induction jobs as [|[url [rs|e]] jobs IH]; csimpl; [done|done|]. by rewrite IH.
  - intros Hall. destruct (all_failed _ Hall) as [Hnone Hlen'].
    subst jobs. rewrite length_bulkOutcomes in Hlen'. split; [done|]. lia.
Qed.

(** The count of the entry a page leaves is the number of its records. *)
Lemma pageEntry_count w url :
  length (pageRecords w url) = from_option h_propertyCount 0 (pageEntry w url).
Proof.
  unfold pageRecords, pageEntry.
  destruct (outcome (getHtml w url)) as [htmlContent|e]; [|done].
  rewrite length_imap. by destruct (extracted w htmlContent).
Qed.

Lemma counts_add_up {A} (l : list A) :
  ∀ (f : nat → A → option HistoryEntry) (g : nat → A → list Property),
    (∀ k x, length (g k x) = from_option h_propertyCount 0 (f k x)) →
    sum_list (h_propertyCount <$> omap (fun v => v) (imap f l))
    = length (concat (imap g l)).
Proof.
  induction l as [|x l IH]; intros f g Hfg; csimpl; [done|].
  rewrite length_app, Hfg, <-(IH (f ∘ S) (g ∘ S)) by (intros k y; apply Hfg).
  by destruct (f 0 x).
Qed.

Lemma page_counts_add_up (urlList : list string) (ws : nat → World) :
  sum_list (h_propertyCount
              <$> omap (fun v => v) (imap (fun k => pageEntry (ws k)) urlList))
  = length (concat (imap (fun k => pageRecords (ws k)) urlList)).
Proof. apply counts_add_up. intros k url. apply pageEntry_count. Qed.

(** X4 — The result of [scrapeBulk] is decided by the pages alone.  A URL
    lands in [errors] exactly when its page cannot be fetched, with the message
    of that failure; every other URL contributes the finalized records of
    the drafts found on its page, in page order, and a page without drafts
    contributes nothing.  A failing extraction, image or enhancement never
    produces an error entry. *)
Theorem scrapeBulk_result_by_page ws urls :
  0 < length (urlList urls) →
  outcome (scrapeBulk ws urls)
  = Ok {| properties := concat (imap (fun k => pageRecords (ws k)) (urlList urls));
          errors := omap (fun v => v)
                      (imap (fun k => pageError (ws k)) (urlList urls)) |}.
Proof.
  intros Hlen. rewrite (scrapeBulk_outcome _ _ Hlen).
  by destruct (bulkOutcomes_by_page ws (urlList urls)) as [-> ->].
Qed.

(** X5 — The history of a bulk run holds one [BULK] entry for every URL
    whose page yields at least one draft, in input order, with the URL in its
    details and the number of its records as count.  A URL whose page cannot
    be fetched, or yields no draft, leaves no entry (a single-URL job writes
    an entry with count 0 in that case).  The counts of the entries add up to
    the number of records the run returns. *)
Theorem scrapeBulk_history ws urls :
  history (trace (scrapeBulk ws urls))
  = omap (fun v => v) (imap (fun k => pageEntry (ws k)) (urlList urls))
  ∧ ∀ result,
      outcome (scrapeBulk ws urls) = Ok result →
      sum_list (h_propertyCount <$> history (trace (scrapeBulk ws urls)))
      = length (properties result).
Proof.
  assert (history (trace (scrapeBulk ws urls))
          = omap (fun v => v) (imap (fun k => pageEntry (ws k)) (urlList urls)))
    as Hhistory.
  { unfold scrapeBulk.
    destruct (length (urlList urls) =? 0) eqn:Hlen.
    { apply Nat.eqb_eq, nil_length_inv in Hlen. by rewrite Hlen. }
    rewrite bulkLoop_eq. cbn [trace]. unfold history.
    rewrite (jobTraces_omap _ (fun k url => option_list (pageEntry (ws k) url))).
    - apply concat_option_list.
    - intros k url. apply bulkJob_history. }
  split; [exact Hhistory|].
  intros result Hresult. rewrite Hhistory, page_counts_add_up.
  destruct (urlList urls) as [|url rest] eqn:Hlist.
  { unfold scrapeBulk in Hresult. by rewrite Hlist in Hresult. }
  rewrite scrapeBulk_outcome in Hresult by (rewrite Hlist; simpl; lia).
  injection Hresult as <-. simpl. rewrite Hlist.
  by destruct (bulkOutcomes_by_page ws (url :: rest)) as [-> _].
Qed.

(** X6 — When the page of a valid URL cannot be fetched, [scrapeUrl] throws
    the error of [getHtml] unchanged; the fetch is the only call it makes:
    the extractor is not called and no history entry is written. *)
Theorem scrapeUrl_fetch_failure w url e :
  validHttpUrl w url = true →
  outcome (getHtml w url) = Throw e →
  scrapeUrl w url = MkComp [EvFetchPage url] (Throw e).
Proof.
  intros Hvalid Hfetch. unfold scrapeUrl.
  rewrite (validateUrl_valid _ _ Hvalid). run.
  by rewrite Hfetch, getHtml_trace.
Qed.

(** X7 — The extraction flow never throws: when the prompt fails, or has no
    output, it answers with an empty list of drafts.  For a single-URL job
    this is the same as a page without listings: the job returns no record,
    reports no error, and writes a history entry with count 0. *)
Theorem extraction_failure_is_silent w :
  (∀ htmlContent,
     ∃ drafts,
       extractPropertyInfo w htmlContent
       = MkComp [EvExtract htmlContent] (Ok (Properties drafts))
       ∧ (is_ok (extract_prompt w htmlContent) = false → drafts = [])
       ∧ (extract_prompt w htmlContent = Ok None → drafts = []))
  ∧ (∀ url htmlContent,
       validHttpUrl w url = true →
       outcome (getHtml w url) = Ok htmlContent →
       is_ok (extract_prompt w htmlContent) = false →
       scrapeUrl w url
       = MkComp [EvFetchPage url; EvExtract htmlContent;
                 EvSaveHistory {| h_type := URL_job; h_details := url;
                                  h_propertyCount := 0 |};
                 EvRevalidate "/history"]
                (Ok [])).
Proof.
  assert (∀ htmlContent,
            is_ok (extract_prompt w htmlContent) = false →
            extracted w htmlContent = []) as Hfailed.
  { intros htmlContent. unfold extracted.
    by destruct (extract_prompt w htmlContent). }
  split.
  - intros htmlContent. exists (extracted w htmlContent).
    split; [apply extractPropertyInfo_eq|]. split; [apply Hfailed|].
    unfold extracted. by intros ->.
  - intros url htmlContent Hvalid Hfetch Hprompt.
    rewrite (scrapeUrl_fetched _ _ _ Hvalid Hfetch), (Hfailed _ Hprompt). done.
Qed.

(** ** The names of stored files and of records *)

Lemma pretty_N_go_digits x : ∀ s,
  Js.all_chars is_digit s = true → Js.all_chars is_digit (pretty_N_go x s) = true.
Proof.
  induction (N.lt_wf_0 x) as [x _ IH]; intros s Hs.
  assert (x = 0 ∨ 0 < x)%N as [->|Hx] by lia.
  - by rewrite pretty_N_go_0.
  - rewrite pretty_N_go_step by done. apply IH.
    + by apply N.div_lt.
    + simpl. rewrite Hs, andb_true_r.
      unfold pretty_N_char. by repeat case_match.
Qed.

Lemma of_N_digits n : Js.all_chars is_digit (Js.of_N n) = true.
Proof.
  unfold Js.of_N, pretty, pretty_N.
  destruct (decide (n = 0%N)); [done|]. by apply pretty_N_go_digits.
Qed.

Lemma of_nat_digits n : Js.all_chars is_digit (Js.of_nat n) = true.
Proof. apply (of_N_digits (N.of_nat n)). Qed.

(** A run of digits ends at the first character that is not a digit. *)
Lemma digits_then_inj c d1 : ∀ d2 r1 r2,
  is_digit c = false →
  Js.all_chars is_digit d1 = true → Js.all_chars is_digit d2 = true →
  d1 +:+ String c r1 = d2 +:+ String c r2 → d1 = d2 ∧ r1 = r2.
Proof.
  induction d1 as [|a d1 IH]; intros [|b d2] r1 r2 Hc H1 H2 Heq.
  - by injection Heq.
  - rewrite append_cons in Heq. injection Heq as <- _.
    simpl in H2. rewrite Hc in H2. done.
  - rewrite append_cons in Heq. injection Heq as -> _.
    simpl in H1. rewrite Hc in H1. done.
  - rewrite !append_cons in Heq. injection Heq as -> Heq.
    simpl in H1, H2. apply andb_true_iff in H1 as [_ H1], H2 as [_ H2].
    destruct (IH d2 r1 r2 Hc H1 H2 Heq) as [-> ->]. done.
Qed.

Lemma of_N_then_inj c m n r1 r2 :
  is_digit c = false →
  Js.of_N m +:+ String c r1 = Js.of_N n +:+ String c r2 → m = n ∧ r1 = r2.
Proof.
  intros Hc Heq.
  destruct (digits_then_inj c _ _ r1 r2 Hc (of_N_digits m) (of_N_digits n) Heq)
    as [Hmn ->].
  split; [|done]. by apply (inj pretty).
Qed.

Lemma of_nat_then_inj c m n r1 r2 :
  is_digit c = false →
  Js.of_nat m +:+ String c r1 = Js.of_nat n +:+ String c r2 → m = n ∧ r1 = r2.
Proof.
  intros Hc Heq.
  destruct (digits_then_inj c _ _ r1 r2 Hc (of_nat_digits m) (of_nat_digits n) Heq)
    as [Hmn ->].
  split; [|done]. by apply (inj pretty).
Qed.

(** A record id followed by [/] is read back in one way only. *)
Lemma propertyId_then_inj w index index' r1 r2 :
  propertyId w index +:+ "/" +:+ r1 = propertyId w index' +:+ "/" +:+ r2 →
  index = index' ∧ r1 = r2.
Proof.
  unfold propertyId. rewrite !append_assoc. intros Heq.
  apply (inj (String.app "prop-")) in Heq.
  apply of_N_then_inj in Heq as [_ Heq]; [|done].
  by apply of_nat_then_inj in Heq.
Qed.

Lemma propertyId_inj w index index' :
  propertyId w index = propertyId w index' → index = index'.
Proof.
  intros Heq.
  by destruct (propertyId_then_inj w index index' "" "" ltac:(by rewrite Heq)).
Qed.

Lemma extensionOfContentType_sanitized contentType :
  Js.test_lower_alnum (extensionOfContentType contentType) = true.
Proof.
  unfold extensionOfContentType. cbv zeta.
  match goal with
  | |- context [if Js.test_lower_alnum ?ext then _ else _] =>
      destruct (Js.test_lower_alnum ext) eqn:Htest
  end; done.
Qed.

Lemma fileExtension_sanitized w contentType imgUrl ext :
  fileExtension w contentType imgUrl = Ok ext → Js.test_lower_alnum ext = true.
Proof.
  assert (extensionOfUrl w imgUrl = Ok ext → Js.test_lower_alnum ext = true) as Hurl.
  { unfold extensionOfUrl. destruct (URL_parse w imgUrl None) as [u|]; [|done].
    destruct (Js.truthy _ && Js.test_lower_alnum _ && _) eqn:Hguess.
    - intros [= <-]. by apply andb_true_iff in Hguess as [[_ ?]%andb_true_iff _].
    - by intros [= <-]. }
  unfold fileExtension. destruct contentType as [ct|]; [|done].
  destruct (Js.truthy ct && Js.startsWith ct "image/"); [|done].
  intros [= <-]. apply extensionOfContentType_sanitized.
Qed.

(** What a stored image is called. *)
Lemma fetchAndPersist_stored w pid imgIndex imgUrl io publicUrl :
  fetchAndPersist w pid imgIndex imgUrl io = Ok publicUrl →
  ∃ response ext,
    img_fetch io = Responds response
    ∧ fileExtension w (content_type response) imgUrl = Ok ext
    ∧ publicUrl = publicUrlOf pid (img_now io) imgIndex ext.
Proof.
  unfold fetchAndPersist, responded, returns. unfold mbind, Result_bind, mret, Result_ret.
  destruct (img_fetch io) as [response|e] eqn:Hfetch; [|done].
  destruct (negb (ok response)); [done|].
  destruct (fileExtension w (content_type response) imgUrl) as [ext|e] eqn:Hext;
    [|done].
  destruct (arrayBuffer response) as [byteLength|e]; [|done].
  destruct (byteLength =? 0); [done|].
  destruct (img_mkdir io); [done|]. destruct (img_writeFile io); [done|].
  intros [= <-]. by exists response, ext.
Qed.

(** X8 — A stored image is published as
    [/uploads/properties/<record id>/<clock>_<image index>.<extension>], and
    the extension is a non-empty run of lower-case letters and digits whatever
    content type the server announces and whatever the image URL looks like:
    no dot, slash or other character of a header or URL reaches the file
    name. *)
Theorem stored_file_name_is_sanitized w pid imgIndex imgUrl io publicUrl :
  fetchAndPersist w pid imgIndex imgUrl io = Ok publicUrl →
  ∃ ext,
    publicUrl = "/uploads/properties/" +:+ pid +:+ "/" +:+ Js.of_N (img_now io)
                +:+ "_" +:+ Js.of_nat imgIndex +:+ "." +:+ ext
    ∧ Js.truthy ext = true
    ∧ Js.all_chars Js.is_lower_alnum ext = true.
Proof.
  intros Hstored.
  destruct (fetchAndPersist_stored _ _ _ _ _ _ Hstored) as (response & ext & _ & Hext & ->).
  exists ext. split; [done|].
  apply fileExtension_sanitized in Hext. by apply andb_true_iff in Hext.
Qed.

(** X9 — Within one job, the public URL of a stored image tells which
    record and which image it belongs to: two image tasks that store under
    the same public URL are tasks of the same record index and the same image
    index, whatever the clock says.  No stored image of a job overwrites
    another one. *)
Theorem stored_files_do_not_collide w index index' imgIndex imgIndex'
    imgUrl imgUrl' io io' publicUrl :
  fetchAndPersist w (propertyId w index) imgIndex imgUrl io = Ok publicUrl →
  fetchAndPersist w (propertyId w index') imgIndex' imgUrl' io' = Ok publicUrl →
  index = index' ∧ imgIndex = imgIndex'.
Proof.
  intros H1 H2.
  destruct (fetchAndPersist_stored _ _ _ _ _ _ H1) as (_ & ext & _ & _ & ->).
  destruct (fetchAndPersist_stored _ _ _ _ _ _ H2) as (_ & ext' & _ & _ & Heq).
  unfold publicUrlOf in Heq.
  apply (inj (String.app "/uploads/properties/")) in Heq.
  apply propertyId_then_inj in Heq as [-> Heq]. split; [done|].
  apply of_N_then_inj in Heq as [_ Heq]; [|done].
  by apply of_nat_then_inj in Heq as [-> _].
Qed.

(** X10 — The records of one job carry pairwise distinct ids, whatever the
    clock says: the index of the record is part of its id. *)
Theorem record_ids_are_distinct w properties originalUrl type details :
  ∃ finalProperties,
    outcome (processScrapedData w properties originalUrl type details)
    = Ok finalProperties
    ∧ NoDup (id <$> finalProperties).
Proof.
  autorewrite with pipeline. eexists. split; [done|].
  apply NoDup_alt. intros i j x.
  rewrite !list_lookup_fmap, !list_lookup_imap.
  destruct (properties !! i) as [p|], (properties !! j) as [q|]; simpl; try done.
  intros Hi Hj. rewrite <-Hj in Hi. apply (inj Some) in Hi.
  by apply (propertyId_inj w).
Qed.

(** ** The earlier revision of the image task *)

Lemma lower_char_fixed c : Js.is_lower_alnum c = true → Js.lower_char c = c.
Proof.
  unfold Js.is_lower_alnum, Js.lower_char. cbv zeta.
  generalize (nat_of_ascii c). intros n Hn.
  destruct (((65 <=? n) && (n <=? 90))
            || ((192 <=? n) && (n <=? 222) && negb (n =? 215))) eqn:Hupper; [|done].
  exfalso.
  repeat first [ apply orb_true_iff in Hn as [Hn|Hn]
               | apply orb_true_iff in Hupper as [Hupper|Hupper]
               | apply andb_true_iff in Hn as [? Hn]
               | apply andb_true_iff in Hupper as [? Hupper] ];
    repeat match goal with
           | H : (_ <=? _) = true |- _ => apply Nat.leb_le in H
           | H : (_ && _) = true |- _ => apply andb_true_iff in H as [? ?]
           end; lia.
Qed.

Lemma toLowerCase_fixed s :
  Js.all_chars Js.is_lower_alnum s = true → Js.toLowerCase s = s.
Proof.
  induction s as [|c s IH]; simpl; [done|].
  intros [Hc Hs]%andb_true_iff. by rewrite (lower_char_fixed _ Hc), IH.
Qed.

(** X11 — The image task of the current revision stores every image the
    earlier revision stored, under the same directory and file stem; only
    the extension may differ.  The current extension is always lower-case
    letters and digits; it is the earlier one whenever that one already was,
    [jpeg] aside, which the current revision writes as [jpg]. *)
Theorem later_revision_stores_what_the_earlier_did w pid imgIndex imgUrl io publicUrl :
  Legacy.fetchAndPersist pid imgIndex io = Ok publicUrl →
  ∃ ext ext',
    publicUrl = publicUrlOf pid (img_now io) imgIndex ext
    ∧ fetchAndPersist w pid imgIndex imgUrl io
      = Ok (publicUrlOf pid (img_now io) imgIndex ext')
    ∧ Js.test_lower_alnum ext' = true
    ∧ (Js.test_lower_alnum ext = true → ext ≠ "jpeg" → ext' = ext).
Proof.
  unfold Legacy.fetchAndPersist, fetchAndPersist, fileExtension, responded, returns.
  unfold mbind, Result_bind, mret, Result_ret.
  destruct (img_fetch io) as [response|e]; [|done].
  destruct (negb (ok response)); [done|].
  destruct (content_type response) as [contentType|]; [|done].
  destruct (Js.truthy contentType && Js.startsWith contentType "image/"); [|done].
  destruct (arrayBuffer response) as [byteLength|e]; [|done].
  destruct (byteLength =? 0); [done|].
  destruct (img_mkdir io); [done|]. destruct (img_writeFile io); [done|].
  intros Hurl. apply Ok_inj in Hurl as <-.
  eexists _, _. split; [reflexivity|]. split; [reflexivity|].
  split; [apply extensionOfContentType_sanitized|].
  unfold extensionOfContentType. cbv zeta. unfold mbind.
  match goal with
  | |- context [Js.or_else ?h "jpg"] => destruct h as [head|]; [|done]
  end.
  cbn [fmap option_fmap option_map Js.or_else].
  destruct (Js.truthy head) eqn:Hhead.
  - intros [_ Halnum]%andb_true_iff Hjpeg.
    rewrite (toLowerCase_fixed _ Halnum), Hhead.
    destruct (String.eqb head "jpeg") eqn:Heq.
    { by apply String.eqb_eq in Heq. }
    unfold Js.test_lower_alnum. by rewrite Hhead, Halnum.
  - destruct head; [|done]. done.
Qed.

(** ** The image components *)

Lemma safeIndex_lt imageUrls currentImageIndex :
  0 < length imageUrls →
  Gallery.safeIndex imageUrls currentImageIndex < length imageUrls.
Proof. unfold Gallery.safeIndex. lia. Qed.

Lemma safeIndex_in_range imageUrls currentImageIndex :
  currentImageIndex < length imageUrls →
  Gallery.safeIndex imageUrls currentImageIndex = currentImageIndex.
Proof. unfold Gallery.safeIndex. lia. Qed.

(** What the gallery shows when it shows images. *)
Lemma render_carousel first rest title currentImageIndex :
  includes first "placehold.co" = false →
  ∃ u alt counter thumbnails,
    Gallery.render (first :: rest) title currentImageIndex
    = Gallery.Carousel (Some u) alt counter thumbnails
    ∧ (first :: rest) !! Gallery.safeIndex (first :: rest) currentImageIndex = Some u
    ∧ length thumbnails = (if 1 <? length (first :: rest)
                           then length (first :: rest) else 0)
    ∧ ∀ index t,
        thumbnails !! index = Some t →
        (first :: rest) !! index = Some (Gallery.thumb_src t)
        ∧ Gallery.thumb_onClick t = index
        ∧ Gallery.thumb_active t
          = (index =? Gallery.safeIndex (first :: rest) currentImageIndex).
Proof.
  intros Hfirst.
  destruct (lookup_lt_is_Some_2 (first :: rest)
              (Gallery.safeIndex (first :: rest) currentImageIndex)) as [u Hu].
  { apply safeIndex_lt. simpl. lia. }
  unfold Gallery.render. rewrite Hfirst. cbv zeta. rewrite Hu.
  eexists _, _, _, _. split; [reflexivity|]. split; [done|]. split.
  - destruct (1 <? length (first :: rest)); [by rewrite length_imap|done].
  - intros index t. destruct (1 <? length (first :: rest)); [|done].
    intros (img & Himg & ->)%list_lookup_imap_Some. by rewrite Himg.
Qed.

(** X12 — The gallery shows [No images available] exactly when its list is
    empty or its first URL contains [placehold.co].  In every other case, and
    for every index it may hold, the main image is an element of the list (it
    is never [undefined]): the one at the held index when that index is in
    range, the last one otherwise.  The thumbnail strip is shown for two
    images or more, has one thumbnail per image in list order, and marks
    exactly the thumbnail of the main image as active. *)
Theorem gallery_shows_an_image_of_its_list imageUrls title currentImageIndex :
  (Gallery.render imageUrls title currentImageIndex = Gallery.NoImages
   ↔ imageUrls = []
     ∨ ∃ first, imageUrls !! 0 = Some first ∧ includes first "placehold.co" = true)
  ∧ (∀ currentImage alt counter thumbnails,
       Gallery.render imageUrls title currentImageIndex
       = Gallery.Carousel currentImage alt counter thumbnails →
       ∃ u,
         currentImage = Some u
         ∧ imageUrls !! Nat.min currentImageIndex (length imageUrls - 1) = Some u
         ∧ length thumbnails = (if 1 <? length imageUrls then length imageUrls else 0)
         ∧ ∀ index t,
             thumbnails !! index = Some t →
             imageUrls !! index = Some (Gallery.thumb_src t)
             ∧ (Gallery.thumb_active t = true
                ↔ index = Nat.min currentImageIndex (length imageUrls - 1))).
Proof.
  destruct imageUrls as [|first rest].
  { split; [by split; [left|]|done]. }
  destruct (includes first "placehold.co") eqn:Hfirst.
  { unfold Gallery.render. rewrite Hfirst. split; [|done].
    split; [|done]. intros _. right. by exists first. }
  destruct (render_carousel first rest title currentImageIndex Hfirst)
    as (u & alt & counter & thumbnails & -> & Hu & Hlen & Hthumbs).
  split.
  - split; [done|]. intros [?|(first' & [= <-] & ?)]; congruence.
  - intros ???? [= <- <- <- <-]. exists u. split; [done|].
    split; [exact Hu|]. split; [done|].
    intros index t Ht. destruct (Hthumbs index t Ht) as (Hsrc & _ & Hactive).
    split; [done|]. rewrite Hactive. unfold Gallery.safeIndex.
    rewrite Nat.eqb_eq. lia.
Qed.

Lemma rendered_last actions : ∀ s imageUrls,
  last (Gallery.rendered s (actions ++ [Gallery.NewImages imageUrls]))
  = Some (Gallery.mount imageUrls).
Proof.
  induction actions as [|a actions IH]; intros s imageUrls; [done|].
  destruct a as [index|l]; simpl.
  - specialize (IH {| Gallery.imageUrls := Gallery.imageUrls s;
                      Gallery.currentImageIndex := index |} imageUrls).
    destruct (Gallery.rendered _ (actions ++ _)); [done|exact IH].
  - specialize (IH {| Gallery.imageUrls := l; Gallery.currentImageIndex := 0 |}
                   imageUrls).
    destruct (Gallery.rendered _ (actions ++ _)); [done|exact IH].
Qed.

(** X13 — In a session of the gallery, whatever is clicked and whatever
    lists the parent passes, every view that gets rendered is either [No
    images available] or shows an image of the list held at that moment; this
    includes the render between the arrival of a shorter list and the reset
    of the index.  A click on a thumbnail shows the image of that
    thumbnail, and once a new list has arrived the gallery is back in the
    state of a freshly mounted one. *)
Theorem gallery_session_is_safe title :
  (∀ imageUrls actions,
     Forall (fun s =>
               match Gallery.view title s with
               | Gallery.NoImages => True
               | Gallery.Carousel currentImage _ _ _ =>
                   ∃ u, currentImage = Some u ∧ u ∈ Gallery.imageUrls s
               end)
            (Gallery.rendered (Gallery.mount imageUrls) actions))
  ∧ (∀ s currentImage alt counter thumbnails index t,
       Gallery.view title s = Gallery.Carousel currentImage alt counter thumbnails →
       thumbnails !! index = Some t →
       ∃ alt' counter' thumbnails',
         Gallery.rendered s [Gallery.Click (Gallery.thumb_onClick t)]
         = [s; {| Gallery.imageUrls := Gallery.imageUrls s;
                  Gallery.currentImageIndex := index |}]
         ∧ Gallery.view title {| Gallery.imageUrls := Gallery.imageUrls s;
                                 Gallery.currentImageIndex := index |}
           = Gallery.Carousel (Some (Gallery.thumb_src t)) alt' counter' thumbnails')
  ∧ (∀ s actions imageUrls,
       last (Gallery.rendered s (actions ++ [Gallery.NewImages imageUrls]))
       = Some (Gallery.mount imageUrls)).
Proof.
  split; [|split; [|intros; apply rendered_last]].
  - intros imageUrls actions. apply Forall_forall. intros s _.
    unfold Gallery.view. destruct s as [l cur]; simpl.
    destruct l as [|first rest]; [done|].
    destruct (includes first "placehold.co") eqn:Hfirst.
    { unfold Gallery.render. by rewrite Hfirst. }
    destruct (render_carousel first rest title cur Hfirst)
      as (u & alt & counter & thumbnails & -> & Hu & _).
    exists u. split; [done|]. by eapply list_elem_of_lookup_2.
  - intros [l cur] currentImage alt counter thumbnails index t. unfold Gallery.view.
    simpl. intros Hview Ht.
    destruct l as [|first rest]; [done|].
    destruct (includes first "placehold.co") eqn:Hfirst.
    { unfold Gallery.render in Hview. by rewrite Hfirst in Hview. }
    destruct (render_carousel first rest title cur Hfirst)
      as (u & alt0 & counter0 & thumbnails0 & Heq & _ & _ & Hthumbs).
    rewrite Heq in Hview. injection Hview as <- <- <- <-.
    destruct (Hthumbs index t Ht) as (Hsrc & Hclick & _).
    destruct (render_carousel first rest title index Hfirst)
      as (u' & alt' & counter' & thumbnails' & Heq' & Hu' & _).
    rewrite safeIndex_in_range in Hu' by (by eapply lookup_lt_Some).
    exists alt', counter', thumbnails'. rewrite Hclick. split; [done|].
    rewrite Heq'. congruence.
Qed.

(** X14 — The two revisions of the gallery, on a list without placeholder
    and without empty entries: as long as the held index is in range they
    render the same view; with an index past the end (a shorter list has
    arrived since the last click) the earlier revision renders an undefined
    main image, the current one the last image of the list. *)
Theorem gallery_revisions_compared imageUrls title currentImageIndex :
  Forall (fun url => Js.truthy url = true ∧ includes url "placehold.co" = false)
         imageUrls →
  (currentImageIndex < length imageUrls →
   Gallery.Earlier.render imageUrls title currentImageIndex
   = Gallery.render imageUrls title currentImageIndex)
  ∧ (0 < length imageUrls ≤ currentImageIndex →
     ∃ u alt counter thumbnails thumbnails',
       Gallery.Earlier.render imageUrls title currentImageIndex
       = Gallery.Carousel None alt counter thumbnails
       ∧ Gallery.render imageUrls title currentImageIndex
         = Gallery.Carousel (Some u)
             (title +:+ " - Image " +:+ Js.of_nat (length imageUrls))
             (if 1 <? length imageUrls
              then Some (Js.of_nat (length imageUrls) +:+ " / "
                         +:+ Js.of_nat (length imageUrls))
              else None)
             thumbnails'
       ∧ last imageUrls = Some u).
Proof.
  intros Hclean.
  assert (Gallery.Earlier.validImages imageUrls = imageUrls) as Hvalid.
  { unfold Gallery.Earlier.validImages. apply filter_all.
    eapply Forall_impl; [exact Hclean|]. intros url [-> ->]. done. }
  destruct imageUrls as [|first rest]; [split; simpl; lia|].
  assert (includes first "placehold.co" = false) as Hfirst.
  { by apply Forall_inv in Hclean as [_ ?]. }
  split.
  - intros Hrange. unfold Gallery.Earlier.render, Gallery.render.
    cbv zeta. rewrite Hvalid, Hfirst, (safeIndex_in_range _ _ Hrange). done.
  - intros [_ Hpast].
    destruct (render_carousel first rest title currentImageIndex Hfirst)
      as (u & alt & counter & thumbnails & Heq & Hu & _).
    assert (Gallery.safeIndex (first :: rest) currentImageIndex = length rest) as Hsafe.
    { unfold Gallery.safeIndex. simpl in *. lia. }
    exists u. eexists _, _, _, _. split; [|split].
    + unfold Gallery.Earlier.render. cbv zeta. rewrite Hvalid.
      rewrite (lookup_ge_None_2 (first :: rest)) by done. reflexivity.
    + unfold Gallery.render. rewrite Hfirst. cbv zeta.
      rewrite Hsafe in *. rewrite Hu.
      replace (length rest + 1) with (length (first :: rest)) by (simpl; lia).
      reflexivity.
    + rewrite Hsafe in Hu. rewrite last_lookup. simpl. exact Hu.
Qed.

Lemma handle_events events : ∀ s,
  let s' := foldl PropertyImage.handle s events in
  (PropertyImage.hasError s' = true
   ↔ PropertyImage.hasError s = true ∨ PropertyImage.onError ∈ events)
  ∧ (PropertyImage.isLoading s' = true
     ↔ PropertyImage.isLoading s = true ∧ events = []).
Proof.
  induction events as [|ev events IH]; intros s; simpl.
  - split; [|by intuition]. split; [by left|]. intros [?|?%elem_of_nil]; done.
  - destruct (IH (PropertyImage.handle s ev)) as [IH1 IH2]. split.
    + rewrite IH1, elem_of_cons. destruct ev; simpl; intuition discriminate.
    + rewrite IH2. destruct ev; simpl; intuition discriminate.
Qed.

(** X15 — [PropertyImage] over any sequence of load and error events of its
    image element: it starts with the spinner over a transparent picture;
    after the first event the spinner is gone for good; and once an error has
    been reported it shows the failure box with the source URL, whatever is
    reported later (a late load event does not bring the picture back). *)
Theorem image_failure_is_final src alt width height events :
  let s := foldl PropertyImage.handle PropertyImage.initial events in
  (PropertyImage.onError ∈ events →
   PropertyImage.render src alt width height s
   = PropertyImage.FailedToLoad src (default 200 width) (default 150 height))
  ∧ (PropertyImage.onError ∉ events →
     PropertyImage.render src alt width height s
     = PropertyImage.Picture (bool_decide (events = [])) src alt
         (default 200 width) (default 150 height)
         (negb (bool_decide (events = [])))).
Proof.
  intros s. destruct (handle_events events PropertyImage.initial) as [Herr Hload].
  fold s in Herr, Hload. simpl in Herr, Hload. unfold PropertyImage.render.
  split.
  - intros Hin. destruct (PropertyImage.hasError s); [done|].
    assert (false = true) by (apply Herr; by right). done.
  - intros Hnot. destruct (PropertyImage.hasError s).
    { destruct Herr as [[?|?] _]; done. }
    case_bool_decide as Hev.
    + assert (PropertyImage.isLoading s = true) as -> by (by apply Hload). done.
    + destruct (PropertyImage.isLoading s); [|done].
      destruct Hload as [[_ ?] _]; done.
Qed.

(** X16 — How the table shows the images of a record the pipeline
    finalized: the thumbnail of the row is the first entry of the record's
    image list (the fallback of the table is never needed), the gallery is
    always rendered, its main image is an entry of the record's list, and a
    record none of whose candidates could be resolved gets the placeholder as
    thumbnail and [No images available] as gallery. *)
Theorem record_images_in_the_table w originalUrl index p currentImageIndex :
  let r := finalizedRecord w originalUrl index p in
  ∃ first view,
    image_urls r !! 0 = Some first
    ∧ rowThumbnail r = first
    ∧ rowGallery r currentImageIndex = Some view
    ∧ (absoluteImageUrls w p originalUrl = [] →
       first = placeholder ∧ view = Gallery.NoImages)
    ∧ (∀ currentImage alt counter thumbnails,
         view = Gallery.Carousel currentImage alt counter thumbnails →
         ∃ u, currentImage = Some u ∧ u ∈ image_urls r).
Proof.
  intros r.
  assert (image_urls r = finalImageUrls w originalUrl index p) as Himgs by done.
  assert (image_url r = image_urls r !! 0) as Himg by done.
  assert (Forall (fun u => Js.truthy u = true) (image_urls r)
          ∧ 0 < length (image_urls r)
          ∧ (absoluteImageUrls w p originalUrl = [] → image_urls r = [placeholder]))
    as (Htruthy & Hlen & Hnone).
  { rewrite Himgs, finalImageUrls_eq.
    destruct (0 <? length (absoluteImageUrls w p originalUrl)) eqn:Hcand.
    - split; [apply imageProcessingPromises_truthy|].
      rewrite length_imageProcessingPromises. apply Nat.ltb_lt in Hcand.
      split; [done|]. intros Hnil. rewrite Hnil in Hcand. simpl in Hcand. lia.
    - split; [by repeat constructor|]. split; [simpl; lia|done]. }
  unfold rowThumbnail, rowGallery. rewrite Himg.
  destruct (image_urls r) as [|first rest] eqn:Hlist; [simpl in Hlen; lia|].
  apply Forall_inv in Htruthy.
  exists first, (Gallery.render (first :: rest) (title r) currentImageIndex).
  split; [done|]. split; [simpl; by rewrite Htruthy|]. split; [done|]. split.
  - intros Hnil. injection (Hnone Hnil) as -> ->. done.
  - intros currentImage alt counter thumbnails Hview.
    destruct (includes first "placehold.co") eqn:Hfirst.
    { unfold Gallery.render in Hview. by rewrite Hfirst in Hview. }
    destruct (render_carousel first rest (title r) currentImageIndex Hfirst)
      as (u & alt0 & counter0 & thumbnails0 & Heq & Hu & _).
    rewrite Heq in Hview. injection Hview as <- _ _ _.
    exists u. split; [done|]. by eapply list_elem_of_lookup_2.
Qed.

(** ** The export of records *)
Section ExportRows.
Context {number : Type} `{!Exports.Number number}.
Implicit Types (v d : Exports.Value number) (result : list (string * Exports.Value number)).

Lemma keys_update key v result :
  (map (fun kx : string * Exports.Value number =>
          if String.eqb kx.1 key then (kx.1, v) else kx) result).*1 = result.*1.
Proof.
  induction result as [|[k x] result IH]; [done|].
  change ((if String.eqb k key then (k, v) else (k, x)).1
          :: (map (fun kx : string * Exports.Value number =>
                     if String.eqb kx.1 key then (kx.1, v) else kx) result).*1
          = k :: result.*1).
  rewrite IH. by destruct (String.eqb k key).
Qed.

Lemma keys_insert_index n key v v' : ∀ result result',
  result.*1 = result'.*1 →
  (Exports.insert_index n key v result).*1
  = (Exports.insert_index n key v' result').*1.
Proof.
  induction result as [|[k x] result IH]; intros [|[k' x'] result'] Hkeys;
    simplify_eq/=; [done|].
  destruct (Exports.array_index k') as [m|]; [|csimpl; congruence].
  destruct (m <? n)%N; csimpl; [|congruence]. f_equal. by apply IH.
Qed.

Lemma keys_existsb key : ∀ result result',
  result.*1 = result'.*1 →
  existsb (fun kx : string * Exports.Value number => String.eqb kx.1 key) result
  = existsb (fun kx : string * Exports.Value number => String.eqb kx.1 key) result'.
Proof.
  induction result as [|[k x] result IH]; intros [|[k' x'] result'] Hkeys;
    simplify_eq/=; [done|]. f_equal. by apply IH.
Qed.

(** The keys of an object after an assignment do not depend on the values. *)
Lemma keys_assign key v v' result result' :
  result.*1 = result'.*1 →
  (Exports.assign key v result).*1 = (Exports.assign key v' result').*1.
Proof.
  intros Hkeys. unfold Exports.assign.
  rewrite (keys_existsb key result result' Hkeys).
  destruct (existsb _ result').
  - by rewrite !keys_update.
  - destruct (Exports.array_index key) as [n|].
    + by apply keys_insert_index.
    + rewrite !fmap_app. by f_equal.
Qed.

Lemma Forall_insert_index (P : string * Exports.Value number → Prop) n key v result :
  P (key, v) → Forall P result → Forall P (Exports.insert_index n key v result).
Proof.
  intros Hnew. induction 1 as [|[k x] result Hkx Hall IH]; simpl.
  - by constructor.
  - destruct (Exports.array_index k) as [m|]; [destruct (m <? n)%N|];
      repeat constructor; done.
Qed.

Lemma Forall_assign (P : string * Exports.Value number → Prop) key v result :
  P (key, v) → Forall P result → Forall P (Exports.assign key v result).
Proof.
  intros Hnew Hall. unfold Exports.assign.
  destruct (existsb _ result).
  - apply Forall_fmap. eapply Forall_impl; [exact Hall|].
    intros [k x] Hkx. simpl. destruct (String.eqb k key) eqn:Hk; [|done].
    apply String.eqb_eq in Hk as ->. done.
  - destruct (Exports.array_index key) as [n|].
    + by apply Forall_insert_index.
    + apply Forall_app. split; [done|]. by constructor.
Qed.

(** One member of the object that is flattened. *)
Lemma flattenObject_cons key v members parentKey result :
  Exports.flattenObject (Exports.VObj ((key, v) :: members)) parentKey result
  = Exports.flattenObject (Exports.VObj members) parentKey
      (if Exports.is_object v
       then Exports.flattenObject v (Exports.newKey parentKey key) result
       else Exports.assign (Exports.newKey parentKey key) (Exports.cell v) result).
Proof. by destruct v. Qed.

Lemma flattenObject_nil parentKey result :
  Exports.flattenObject (Exports.VObj []) parentKey result = result.
Proof. done. Qed.

(** A predicate that holds of every cell written holds of the result. *)
Lemma flattenObject_Forall (P : string * Exports.Value number → Prop) :
  (∀ key v, Exports.scalar v = true → P (key, v)) →
  ∀ obj parentKey result,
    Forall P result → Forall P (Exports.flattenObject obj parentKey result).
Proof.
  intros Hscalar. fix IH 1. intros [| | | | | |members] parentKey result Hall;
    try exact Hall.
  revert result Hall.
  induction members as [|[key v] members IHmembers]; intros result Hall;
    [exact Hall|].
  rewrite flattenObject_cons. apply IHmembers.
  destruct (Exports.is_object v) eqn:Hobject.
  - apply IH, Hall.
  - apply Forall_assign; [|exact Hall]. apply Hscalar. by destruct v.
Qed.

Lemma keys_flatten_leaves parentKey leaves : ∀ leaves' result result',
  Forall (fun m => Exports.is_object m.2 = false) leaves →
  Forall (fun m => Exports.is_object m.2 = false) leaves' →
  leaves.*1 = leaves'.*1 → result.*1 = result'.*1 →
  (Exports.flattenObject (Exports.VObj leaves) parentKey result).*1
  = (Exports.flattenObject (Exports.VObj leaves') parentKey result').*1.
Proof.
  induction leaves as [|[key v] leaves IH];
    intros [|[key' v'] leaves'] result result' Hl Hl' Hkeys Hresult;
    csimpl in Hkeys; simplify_eq; [done|].
  apply Forall_cons in Hl as [Hv Hl], Hl' as [Hv' Hl']. simpl in Hv, Hv'.
  rewrite !flattenObject_cons, Hv, Hv'.
  apply IH; [done..|]. by apply keys_assign.
Qed.

(** Two objects of two levels with the same keys flatten to the same keys. *)
Lemma keys_flatten_groups groups groups' :
  Forall2 (fun g g' =>
             g.1 = g'.1
             ∧ ∃ leaves leaves',
                 g.2 = Exports.VObj leaves ∧ g'.2 = Exports.VObj leaves'
                 ∧ leaves.*1 = leaves'.*1
                 ∧ Forall (fun m => Exports.is_object m.2 = false) leaves
                 ∧ Forall (fun m => Exports.is_object m.2 = false) leaves')
          groups groups' →
  ∀ parentKey result result',
    result.*1 = result'.*1 →
    (Exports.flattenObject (Exports.VObj groups) parentKey result).*1
    = (Exports.flattenObject (Exports.VObj groups') parentKey result').*1.
Proof.
  induction 1 as [|[key v] [key' v'] groups groups' Hg _ IH];
    intros parentKey result result' Hresult; [done|].
  destruct Hg as (Hkey & leaves & leaves' & Hv & Hv' & Hkeys & Hl & Hl').
  simpl in Hkey, Hv, Hv'. subst.
  rewrite !flattenObject_cons. cbn [Exports.is_object].
  apply IH. by apply keys_flatten_leaves.
Qed.

Lemma Forall_flatten_leaves (P : string * Exports.Value number → Prop)
    parentKey leaves : ∀ result,
  Forall (fun m => Exports.is_object m.2 = false
                   ∧ P (Exports.newKey parentKey m.1, Exports.cell m.2)) leaves →
  Forall P result →
  Forall P (Exports.flattenObject (Exports.VObj leaves) parentKey result).
Proof.
  induction leaves as [|[key v] leaves IH]; intros result Hl Hresult; [done|].
  apply Forall_cons in Hl as [[Hv HP] Hl]. simpl in Hv, HP.
  rewrite flattenObject_cons, Hv. apply IH; [done|]. by apply Forall_assign.
Qed.

Lemma Forall_flatten_groups (P : string * Exports.Value number → Prop) groups :
  Forall (fun g =>
            ∃ leaves,
              g.2 = Exports.VObj leaves
              ∧ Forall (fun m => Exports.is_object m.2 = false
                                 ∧ P (Exports.newKey g.1 m.1, Exports.cell m.2))
                       leaves)
         groups →
  ∀ result,
    Forall P result →
    Forall P (Exports.flattenObject (Exports.VObj groups) "" result).
Proof.
  induction 1 as [|[key v] groups (leaves & Hv & Hl) _ IH]; intros result Hresult;
    [done|].
  simpl in Hv, Hl. subst. rewrite flattenObject_cons. cbn [Exports.is_object].
  apply IH. by apply Forall_flatten_leaves.
Qed.

Lemma coalesce_not_object v d :
  Exports.is_object v = false → Exports.is_object d = false →
  Exports.is_object (Exports.coalesce v d) = false.
Proof. unfold Exports.coalesce. by destruct (Exports.nullish v). Qed.

Lemma scalar_cell v : Exports.is_object v = false → Exports.scalar (Exports.cell v) = true.
Proof. by destruct v. Qed.

Lemma nullish_cell_coalesce v d :
  Exports.nullish (Exports.cell d) = false →
  Exports.nullish (Exports.cell (Exports.coalesce v d)) = false.
Proof. by destruct v. Qed.

Lemma getAbsoluteUrl_typed client v :
  Exports.stringOrMissing v = true →
  ∃ url, Exports.getAbsoluteUrl client (Exports.coalesce v (Exports.VStr "")) = Ok url.
Proof.
  destruct v as [| | | |s| |]; try done; try (by exists ""). intros _.
  unfold Exports.coalesce, Exports.getAbsoluteUrl. cbn [Exports.nullish Exports.truthy].
  destruct (negb (Js.truthy s)); [by eexists|].
  destruct (Js.startsWith s "http"); [by eexists|].
  destruct (Exports.window client) as [origin|]; [|by eexists].
  destruct (Exports.new_URL client s (Some origin)); by eexists.
Qed.

Lemma mapResult_typed client (elements : list (Exports.Value number)) :
  forallb Exports.stringOrMissing elements = true →
  ∃ urls,
    Exports.mapResult
      (fun url => Exports.getAbsoluteUrl client (Exports.coalesce url (Exports.VStr "")))
      elements = Ok urls.
Proof.
  induction elements as [|v elements IH]; simpl; [by eexists|].
  intros [Hv Hrest]%andb_true_iff.
  destruct (getAbsoluteUrl_typed client v Hv) as [url ->].
  destruct (IH Hrest) as [urls ->]. by eexists.
Qed.

(** Shows that a member of a group is not an object. *)
Ltac plain_leaf Hplain :=
  first [ apply Hplain
        | apply coalesce_not_object; [apply Hplain|reflexivity]
        | reflexivity ].

(** Opens [exportRow] up to the object literal of [createNestedObject]. *)
Ltac open_row :=
  unfold Exports.exportRow;
  destruct (Exports.createNestedObject _ _) as [nested|e] eqn:Hnested; [|done];
  intros Hrow; apply Ok_inj in Hrow as <-;
  revert Hnested; unfold Exports.createNestedObject;
  unfold mbind, Result_bind, mret, Result_ret; cbv zeta;
  destruct (Exports.getAbsoluteUrl _ _) as [image_url|e]; [|done];
  match goal with
  | |- context [match ?images with Ok _ => _ | Throw _ => _ end] =>
      destruct images as [image_urls|e]; [|done]
  end;
  intros Hnested; apply Ok_inj in Hnested as <-.

(** The keys of a row do not depend on the record. *)
Lemma exportRow_keys client (prop : string → Exports.Value number) row :
  (∀ k, Exports.is_object (prop k) = false) →
  Exports.exportRow client prop = Ok row →
  row.*1 = Exports.columns.
Proof.
  intros Hplain. open_row.
  etrans.
  { let skeleton :=
      eval cbv in
        (match Exports.createNestedObject (number := number)
                 {| Exports.window := None; Exports.new_URL := fun _ _ => None |}
                 (fun _ => Exports.VUndefined) with
         | Ok (Exports.VObj groups) => groups
         | _ => []
         end) in
    apply (keys_flatten_groups _ skeleton); [|reflexivity].
    repeat (apply List.Forall2_cons;
            [split; [reflexivity|];
             eexists _, _; split; [reflexivity|]; split; [reflexivity|];
             split; [reflexivity|];
             split; repeat (apply List.Forall_cons; [plain_leaf Hplain|]);
             apply List.Forall_nil
            |]).
    apply List.Forall2_nil. }
  vm_compute. reflexivity.
Qed.

(** Reading a key after an assignment. *)
Lemma get_update key v result :
  existsb (fun kx : string * Exports.Value number => String.eqb kx.1 key) result = true →
  Exports.get key
    (map (fun kx : string * Exports.Value number =>
            if String.eqb kx.1 key then (kx.1, v) else kx) result)
  = Some v.
Proof.
  unfold Exports.get.
  induction result as [|[k x] result IH]; [done|]. cbn [existsb map fst].
  destruct (String.eqb k key) eqn:Hk.
  - intros _. cbn [List.find fst]. by rewrite Hk.
  - intros Hrest. cbn [List.find fst orb] in *. rewrite Hk. by apply IH.
Qed.

Lemma get_update_other key key' v result :
  key ≠ key' →
  Exports.get key'
    (map (fun kx : string * Exports.Value number =>
            if String.eqb kx.1 key then (kx.1, v) else kx) result)
  = Exports.get key' result.
Proof.
  intros Hne. unfold Exports.get.
  induction result as [|[k x] result IH]; [done|]. cbn [map fst].
  destruct (String.eqb k key) eqn:Hk; cbn [List.find fst].
  - apply String.eqb_eq in Hk as ->.
    apply String.eqb_neq in Hne. rewrite Hne. exact IH.
  - destruct (String.eqb k key'); [done|exact IH].
Qed.

Lemma get_insert_index n key v result :
  existsb (fun kx : string * Exports.Value number => String.eqb kx.1 key) result = false →
  Exports.get key (Exports.insert_index n key v result) = Some v.
Proof.
  unfold Exports.get.
  induction result as [|[k x] result IH]; cbn [existsb Exports.insert_index fst].
  - intros _. cbn [List.find fst]. by rewrite String.eqb_refl.
  - intros [Hk Hrest]%orb_false_iff.
    destruct (Exports.array_index k) as [m|]; [destruct (m <? n)%N|];
      cbn [List.find fst]; rewrite ?String.eqb_refl, ?Hk; [by apply IH|done|done].
Qed.

Lemma get_insert_index_other n key key' v result :
  key ≠ key' →
  Exports.get key' (Exports.insert_index n key v result) = Exports.get key' result.
Proof.
  intros Hne%String.eqb_neq. unfold Exports.get.
  induction result as [|[k x] result IH]; cbn [Exports.insert_index].
  - cbn [List.find fst]. by rewrite Hne.
  - destruct (Exports.array_index k) as [m|]; [destruct (m <? n)%N|];
      cbn [List.find fst]; rewrite ?Hne; [|done|done].
    destruct (String.eqb k key'); [done|exact IH].
Qed.

Lemma find_none_existsb key (result : list (string * Exports.Value number)) :
  existsb (fun kx => String.eqb kx.1 key) result = false →
  List.find (fun kx => String.eqb kx.1 key) result = None.
Proof.
  induction result as [|[k x] result IH]; [done|]. cbn [existsb List.find fst].
  intros [Hk Hrest]%orb_false_iff. rewrite Hk. by apply IH.
Qed.

Lemma find_app_r key (result : list (string * Exports.Value number)) tail :
  List.find (fun kx => String.eqb kx.1 key) (result ++ tail)
  = match List.find (fun kx => String.eqb kx.1 key) result with
    | Some kx => Some kx
    | None => List.find (fun kx => String.eqb kx.1 key) tail
    end.
Proof.
  induction result as [|[k x] result IH]; [done|]. cbn [app List.find fst].
  by destruct (String.eqb k key).
Qed.

Lemma get_assign key v result :
  Exports.get key (Exports.assign key v result) = Some v.
Proof.
  unfold Exports.assign.
  destruct (existsb _ result) eqn:Hin; [by apply get_update|].
  destruct (Exports.array_index key) as [n|]; [by apply get_insert_index|].
  unfold Exports.get. rewrite find_app_r, (find_none_existsb _ _ Hin).
  cbn [List.find fst]. by rewrite String.eqb_refl.
Qed.

Lemma get_assign_other key key' v result :
  key ≠ key' →
  Exports.get key' (Exports.assign key v result) = Exports.get key' result.
Proof.
  intros Hne. unfold Exports.assign.
  destruct (existsb _ result); [by apply get_update_other|].
  destruct (Exports.array_index key) as [n|]; [by apply get_insert_index_other|].
  unfold Exports.get. rewrite find_app_r.
  destruct (List.find _ result); [done|]. cbn [List.find fst].
  apply String.eqb_neq in Hne. by rewrite Hne.
Qed.

(** [flattenObject] assigns the leaves one after the other. *)
Lemma leaves_cons key v members parentKey :
  Exports.leaves (Exports.VObj ((key, v) :: members)) parentKey
  = (if Exports.is_object v
     then Exports.leaves v (Exports.newKey parentKey key)
     else [(Exports.newKey parentKey key, v)])
    ++ Exports.leaves (Exports.VObj members) parentKey.
Proof. by destruct v. Qed.

Lemma flattenObject_leaves :
  ∀ (obj : Exports.Value number) parentKey result,
    Exports.flattenObject obj parentKey result
    = fold_left (fun result entry =>
                   Exports.assign entry.1 (Exports.cell entry.2) result)
                (Exports.leaves obj parentKey) result.
Proof.
  fix IH 1. intros [| | | | | |members] parentKey result; try reflexivity.
  revert result.
  induction members as [|[key v] members IHmembers]; intros result;
    [reflexivity|].
  rewrite flattenObject_cons, leaves_cons, fold_left_app, IHmembers.
  f_equal. destruct (Exports.is_object v); [apply IH|reflexivity].
Qed.

Lemma get_fold_assign key (stored : list (string * Exports.Value number)) :
  ∀ result,
    Exports.get key
      (fold_left (fun result entry =>
                    Exports.assign entry.1 (Exports.cell entry.2) result)
                 stored result)
    = match Exports.get key (reverse stored) with
      | Some v => Some (Exports.cell v)
      | None => Exports.get key result
      end.
Proof.
  induction stored as [|[k x] stored IH] using rev_ind; intros result; [done|].
  rewrite fold_left_app, reverse_snoc. cbn [fold_left fst snd].
  unfold Exports.get at 2. cbn [List.find fst].
  destruct (String.eqb k key) eqn:Hk.
  - apply String.eqb_eq in Hk as ->. apply get_assign.
  - apply String.eqb_neq in Hk. rewrite (get_assign_other _ _ _ _ Hk).
    apply IH.
Qed.

(** X17 — [flattenObject] leaves no structure behind: whatever object it is
    given, however deeply nested, every value of the result is a string, a
    number, a boolean, [null] or [undefined].  The result holds exactly the
    keys of the members that are not objects, each under its dotted path; an
    array has become the string of its elements joined with [ | ], every
    other value is stored as it is, and of two members with the same path the
    one visited last is kept. *)
Theorem flattened_rows_are_flat (members : list (string * Exports.Value number))
    parentKey :
  let row := Exports.flattenObject (Exports.VObj members) parentKey [] in
  let stored := Exports.leaves (Exports.VObj members) parentKey in
  Forall (fun entry => Exports.scalar entry.2 = true) row
  ∧ (∀ key,
       Exports.get key row = Exports.cell <$> Exports.get key (reverse stored))
  ∧ (∀ key elements,
       Exports.get key (reverse stored) = Some (Exports.VArr elements) →
       Exports.get key row
       = Some (Exports.VStr (Exports.join " | " elements)))
  ∧ (∀ key v,
       Exports.get key (reverse stored) = Some v →
       Exports.scalar v = true →
       Exports.get key row = Some v).
Proof.
  intros row stored.
  assert (∀ key,
            Exports.get key row
            = Exports.cell <$> Exports.get key (reverse stored)) as Hget.
  { intros key. subst row stored.
    rewrite flattenObject_leaves, get_fold_assign.
    by destruct (Exports.get key (reverse _)). }
  split; [apply flattenObject_Forall; [by intros key v|done]|].
  split; [exact Hget|]. split.
  - intros key elements Hleaf. by rewrite Hget, Hleaf.
  - intros key v Hleaf Hscalar. rewrite Hget, Hleaf. by destruct v.
Qed.

(** X18 — Every exported row has the same 53 columns in the same order,
    whichever fields the record has, as long as no field of the record is
    itself an object.  No cell is an object or an array, and no cell except
    [main.id] is [undefined] or [null]: a missing field is exported as its
    default. *)
Theorem export_rows_have_fixed_columns client
    (prop : string → Exports.Value number) row :
  (∀ k, Exports.is_object (prop k) = false) →
  Exports.exportRow client prop = Ok row →
  row.*1 = Exports.columns
  ∧ length row = 53
  ∧ Forall (fun entry =>
              Exports.scalar entry.2 = true
              ∧ (entry.1 ≠ "main.id" → Exports.nullish entry.2 = false))
           row.
Proof.
  intros Hplain Hrow.
  pose proof (exportRow_keys client prop row Hplain Hrow) as Hkeys.
  split; [done|]. split.
  { rewrite <-(length_fmap fst), Hkeys. done. }
  revert Hrow. open_row.
  apply Forall_flatten_groups; [|done].
  repeat (apply List.Forall_cons;
          [eexists; split; [reflexivity|];
           repeat (apply List.Forall_cons;
                   [split; [plain_leaf Hplain|];
                    split; [apply scalar_cell; plain_leaf Hplain|];
                    first [ intros Hid; by destruct Hid
                          | intros _; apply nullish_cell_coalesce; reflexivity
                          | intros _; reflexivity ]
                   |]);
           apply List.Forall_nil
          |]).
  apply List.Forall_nil.
Qed.

(** X19 — A record whose image fields have the types of the record type (a
    string, or an array of strings, each possibly missing) is exported
    without an exception; the two image fields are the only ones that can
    make the export throw. *)
Theorem typed_records_are_exported client (prop : string → Exports.Value number) :
  Exports.imagesWellTyped prop = true →
  ∃ row, Exports.exportRow client prop = Ok row.
Proof.
  unfold Exports.imagesWellTyped. intros [Hurl Hurls]%andb_true_iff.
  unfold Exports.exportRow, Exports.createNestedObject.
  unfold mbind, Result_bind, mret, Result_ret. cbv zeta.
  destruct (getAbsoluteUrl_typed client _ Hurl) as [image_url ->].
  destruct (prop "image_urls") as [| | | | |elements|]; try done;
    cbn [Exports.coalesce Exports.nullish Exports.mapResult];
    try (by eexists).
  destruct (mapResult_typed client elements Hurls) as [urls Hmap].
  unfold mbind, Result_bind, mret, Result_ret in Hmap. rewrite Hmap. by eexists.
Qed.

(** X20 — [getAbsoluteUrl] on a string never throws.  It gives the empty
    string only for the empty string; a URL that starts with [http] is kept
    as it is; any other one is resolved against the origin of the page, and
    kept as it is when there is no window or the URL constructor throws. *)
Theorem getAbsoluteUrl_on_strings client (url : string) :
  ∃ absolute,
    Exports.getAbsoluteUrl (number := number) client (Exports.VStr url) = Ok absolute
    ∧ (absolute = "" ↔ url = "")
    ∧ (Js.startsWith url "http" = true → absolute = url)
    ∧ (Js.truthy url = true → Js.startsWith url "http" = false →
       absolute = match Exports.window client with
                  | Some origin =>
                      match Exports.new_URL client url (Some origin) with
                      | Some u => URL.href u
                      | None => url
                      end
                  | None => url
                  end).
Proof.
  unfold Exports.getAbsoluteUrl. cbn [Exports.truthy].
  destruct url as [|c url]; [by exists ""|]. cbn [Js.truthy negb].
  destruct (Js.startsWith (String c url) "http") eqn:Hhttp.
  { eexists. split; [done|]. by repeat split. }
  destruct (Exports.window client) as [origin|].
  2:{ eexists. split; [done|]. by repeat split. }
  destruct (Exports.new_URL client (String c url) (Some origin)) as [u|].
  2:{ eexists. split; [done|]. by repeat split. }
  eexists. split; [done|]. split; [|by split].
  split; [|done]. intros Hempty. pose proof (href_truthy u) as Hhref.
  by rewrite Hempty in Hhref.
Qed.

End ExportRows.

(** * The further properties at concrete inputs *)

(** Two lines of blanks. *)
Lemma scrapeBulk_rejects_blank_input_spaces :
  scrapeBulk (fun _ => Scenario.world [Scenario.villa] [])
    ("  " +:+ Scenario.newline +:+ " ")
  = MkComp [] (Throw (ErrorObj "No valid URLs found in bulk input.")).
Proof. apply scrapeBulk_rejects_blank_input. reflexivity. Defined.

(** The three URLs of property P4, the second of which cannot be fetched. *)
Lemma scrapeBulk_result_by_page_P4 :
  let ws := fun _ : nat => Scenario.world [Scenario.villa] ["http://b.test"] in
  ∃ result,
    outcome (scrapeBulk ws Scenario.three_urls) = Ok result
    ∧ original_url <$> properties result = ["http://a.test"; "http://c.test"]
    ∧ url <$> errors result = ["http://b.test"].
Proof.
  intros ws. eexists.
  split; [apply (scrapeBulk_result_by_page ws Scenario.three_urls); vm_compute; lia|].
  split; vm_compute; reflexivity.
Defined.

(** A valid URL whose page cannot be fetched. *)
Lemma scrapeUrl_fetch_failure_down :
  scrapeUrl (Scenario.world [Scenario.villa] ["http://b.test"]) "http://b.test"
  = MkComp [EvFetchPage "http://b.test"]
      (Throw (ErrorObj
                "Could not retrieve content from http://b.test. Reason: fetch failed")).
Proof. apply scrapeUrl_fetch_failure; reflexivity. Defined.

(** A content type whose subtype is two dots: the file is stored as [jpg]. *)
Lemma stored_file_name_is_sanitized_dots :
  let io := Scenario.stored
              {| status := 200; statusText := "OK";
                 content_type := Some "image/../../etc";
                 text := Ok ""; arrayBuffer := Ok 2048 |} 1000 in
  fetchAndPersist (Scenario.world [] []) "prop-1700000000000-0" 0
    "https://img.test/a" io
  = Ok "/uploads/properties/prop-1700000000000-0/1000_0.jpg"
  ∧ ∃ ext,
      "/uploads/properties/prop-1700000000000-0/1000_0.jpg"
      = "/uploads/properties/" +:+ "prop-1700000000000-0" +:+ "/"
        +:+ Js.of_N (img_now io) +:+ "_" +:+ Js.of_nat 0 +:+ "." +:+ ext
      ∧ Js.truthy ext = true
      ∧ Js.all_chars Js.is_lower_alnum ext = true.
Proof.
  intros io. split; [reflexivity|].
  apply (stored_file_name_is_sanitized (Scenario.world [] [])
           "prop-1700000000000-0" 0 "https://img.test/a" io).
  reflexivity.
Defined.

(** Two tasks for the first image of the first record of scenario A, run
    within the same millisecond on different image URLs, store under the same
    name. *)
Lemma stored_files_do_not_collide_scenario_A :
  let w := Scenario.world [Scenario.villa] [] in
  let stored := "/uploads/properties/prop-1700000000000-0/1000_0.png" in
  fetchAndPersist w (propertyId w 0) 0 "https://img.test/a.jpg"
    (Scenario.stored Scenario.png 1000) = Ok stored
  ∧ fetchAndPersist w (propertyId w 0) 0 "https://x.com/listing/imgs/c.jpg"
      (Scenario.stored Scenario.png 1000) = Ok stored
  ∧ 0 = 0 ∧ 0 = 0.
Proof.
  intros w stored. split; [reflexivity|]. split; [reflexivity|].
  apply (stored_files_do_not_collide w 0 0 0 0 "https://img.test/a.jpg"
           "https://x.com/listing/imgs/c.jpg"
           (Scenario.stored Scenario.png 1000)
           (Scenario.stored Scenario.png 1000) stored); reflexivity.
Defined.

(** Two images, the held index in range and past the end. *)
Lemma gallery_revisions_compared_two_images :
  let imageUrls := ["/uploads/properties/prop-1700000000000-0/1000_0.png";
                    "https://img.test/b.jpg"] in
  Gallery.Earlier.render imageUrls "Villa" 1 = Gallery.render imageUrls "Villa" 1
  ∧ ∃ alt counter thumbnails thumbnails',
      Gallery.Earlier.render imageUrls "Villa" 2
      = Gallery.Carousel None alt counter thumbnails
      ∧ Gallery.render imageUrls "Villa" 2
        = Gallery.Carousel (Some "https://img.test/b.jpg") "Villa - Image 2"
            (Some "2 / 2") thumbnails'.
Proof.
  intros imageUrls.
  assert (Forall (fun url => Js.truthy url = true
                             ∧ includes url "placehold.co" = false) imageUrls)
    as Hclean by (repeat constructor).
  split.
  - apply (gallery_revisions_compared imageUrls "Villa" 1 Hclean). simpl. lia.
  - destruct (gallery_revisions_compared imageUrls "Villa" 2 Hclean) as [_ Hpast].
    destruct Hpast as (u & alt & counter & thumbnails & thumbnails' & Hearlier
                       & Hcurrent & Hlast); [simpl; lia|].
    injection Hlast as <-.
    exists alt, counter, thumbnails, thumbnails'. split; [exact Hearlier|].
    exact Hcurrent.
Defined.

(** The row of the sample record. *)
Lemma export_rows_have_fixed_columns_sample :
  ∃ row,
    Exports.exportRow Exports.browser Exports.sample = Ok row
    ∧ row.*1 = Exports.columns
    ∧ length row = 53
    ∧ row !! 0 = Some ("main.id", Exports.VStr "prop-1700000000000-0")
    ∧ row !! 17 = Some ("property_details.propertyBed", Exports.VNum 3%Z)
    ∧ row !! 18 = Some ("property_details.propertyBathroom", Exports.VNum 0%Z)
    ∧ row !! 38
      = Some ("images.image_urls",
              Exports.VStr
                ("https://app.test/uploads/properties/prop-1700000000000-0/1000_0.png"
                 +:+ " | " +:+ "https://img.test/b.jpg")).
Proof.
  eexists. split; [vm_compute; reflexivity|].
  match goal with
  | |- ?row.*1 = _ ∧ _ =>
      destruct (export_rows_have_fixed_columns Exports.browser Exports.sample row)
        as (Hcolumns & Hlength & _)
  end.
  - intros k. unfold Exports.sample.
    repeat (destruct (String.eqb k _); [reflexivity|]). reflexivity.
  - vm_compute. reflexivity.
  - split; [exact Hcolumns|]. split; [exact Hlength|].
    repeat split; vm_compute; reflexivity.
Defined.

(** The sample record is exported. *)
Lemma typed_records_are_exported_sample :
  ∃ row, Exports.exportRow Exports.browser Exports.sample = Ok row.
Proof. apply typed_records_are_exported. reflexivity. Defined.

(** A PNG: both revisions store it under the same name. *)
Lemma later_revision_stores_png :
  let w := Scenario.world [] [] in
  let io := Scenario.stored Scenario.png 1000 in
  ∃ ext ext',
    "/uploads/properties/prop-1700000000000-0/1000_0.png"
    = publicUrlOf "prop-1700000000000-0" (img_now io) 0 ext
    ∧ fetchAndPersist w "prop-1700000000000-0" 0 "https://img.test/a.jpg" io
      = Ok (publicUrlOf "prop-1700000000000-0" (img_now io) 0 ext')
    ∧ Js.test_lower_alnum ext' = true
    ∧ (Js.test_lower_alnum ext = true → ext ≠ "jpeg" → ext' = ext).
Proof.
  intros w io.
  apply (later_revision_stores_what_the_earlier_did w "prop-1700000000000-0" 0
           "https://img.test/a.jpg" io).
  reflexivity.
Defined.

(** Bulk isolation on the three URLs of property P4: records from the first
    and the third URL, one error for the second, whose page cannot be
    fetched. *)
Lemma scrapeBulk_isolates_failures_P4 :
  let ws := fun _ : nat => Scenario.world [Scenario.villa] ["http://b.test"] in
  ∃ result,
    outcome (scrapeBulk ws Scenario.three_urls) = Ok result
    ∧ original_url <$> properties result = ["http://a.test"; "http://c.test"]
    ∧ errors result
      = [{| url := "http://b.test";
            error := "Could not retrieve content from http://b.test. Reason: fetch failed" |}]
    ∧ List.filter is_fetch (trace (scrapeBulk ws Scenario.three_urls))
      = [EvFetchPage "http://a.test";
         EvFetchImage "https://img.test/a.jpg" "http://a.test";
         EvFetchImage "https://img.test/b.jpg" "http://a.test";
         EvFetchImage "https://x.com/listing/imgs/c.jpg" "http://a.test";
         EvFetchPage "http://b.test";
         EvFetchPage "http://c.test";
         EvFetchImage "https://img.test/a.jpg" "http://c.test";
         EvFetchImage "https://img.test/b.jpg" "http://c.test";
         EvFetchImage "https://x.com/listing/imgs/c.jpg" "http://c.test"]
    ∧ bulkOutcomes ws (urlList Scenario.three_urls) !! 1
      = Some ("http://b.test",
              Throw (ErrorObj
                       "Could not retrieve content from http://b.test. Reason: fetch failed")).
Proof.
  intros ws.
  destruct (scrapeBulk_isolates_failures ws Scenario.three_urls)
    as (Hresult & Htrace & Hjobs & _); [vm_compute; lia|].
  eexists. split; [exact Hresult|].
  split; [vm_compute; reflexivity|]. split; [vm_compute; reflexivity|].
  split; [rewrite Htrace; vm_compute; reflexivity|].
  destruct (Hjobs 1 "http://b.test") as (job & Hjob & _ & Hthrown & _);
    [reflexivity|].
  rewrite Hjob. f_equal. f_equal. by apply Hthrown.
Defined.

(** Three URLs whose pages are fetched and whose extraction fails: every job
    has failed at extraction, and the result holds no error entry. *)
Lemma extraction_failures_are_not_reported :
  let ws := fun _ : nat => Scenario.prompt_down in
  (∀ htmlContent,
     is_ok (extract_prompt Scenario.prompt_down htmlContent) = false)
  ∧ urlList Scenario.three_urls = ["http://a.test"; "http://b.test"; "http://c.test"]
  ∧ outcome (scrapeBulk ws Scenario.three_urls)
    = Ok {| properties := []; errors := [] |}
  ∧ List.filter is_fetch (trace (scrapeBulk ws Scenario.three_urls))
    = [EvFetchPage "http://a.test"; EvFetchPage "http://b.test";
       EvFetchPage "http://c.test"].
Proof.
  intros ws. split; [done|]. split; [reflexivity|].
  split; vm_compute; reflexivity.
Qed.

(** An object with two arrays, one of them in a nested object. *)
Lemma flattened_rows_are_flat_arrays :
  let members : list (string * Exports.Value Z) :=
    [("tags", Exports.VArr [Exports.VStr "sea view"; Exports.VNull; Exports.VNum 2%Z]);
     ("main", Exports.VObj
                [("title", Exports.VStr "Villa");
                 ("images", Exports.VArr [Exports.VStr "a.jpg"; Exports.VStr "b.jpg"])])] in
  let row := Exports.flattenObject (Exports.VObj members) "" [] in
  Exports.get "tags" row = Some (Exports.VStr "sea view |  | 2")
  ∧ Exports.get "main.images" row = Some (Exports.VStr "a.jpg | b.jpg")
  ∧ Exports.get "main.title" row = Some (Exports.VStr "Villa")
  ∧ Exports.get "main" row = None.
Proof.
  intros members row.
  destruct (flattened_rows_are_flat members "") as (_ & Hget & Harray & Hscalar).
  split.
  { apply (Harray "tags"
             [Exports.VStr "sea view"; Exports.VNull; Exports.VNum 2%Z]).
    reflexivity. }
  split.
  { apply (Harray "main.images" [Exports.VStr "a.jpg"; Exports.VStr "b.jpg"]).
    reflexivity. }
  split; [apply (Hscalar "main.title" (Exports.VStr "Villa")); reflexivity|].
  unfold row. rewrite Hget. reflexivity.
Defined.
